(** * chain.js: the resolution engine of [Chain], and the [all] combinator

    A shallow embedding of [lib/chain.js].  JavaScript values are a small
    inductive type; every object the library mutates (chains, the closure
    variables of one settlement, the closure variables of one [all] call,
    the [nextTick] queue) lives in an explicit store, [World], that the
    functions thread through.  The embedded functions keep the names of the
    source; where the source has several functions of one name (the method
    [Chain.prototype.chain], the closure [chain] of a settlement, the
    exported [chain]) a prefix tells them apart.

    Embedded: the constructor, [_chain], [Chain.prototype.chain], [spread],
    [fail], [fin], [reject] and [resolve] with its inner [resolve] and the
    closures [delay], [next], [chain], [fail], [reject], [aCall], [nCall]
    and [cCall] of a settlement, the adapters [aCall], [nCall] and [cCall]
    of [Chain.prototype] and of the module, [all], [each], [start], [now],
    [chain], [fail] and [setImmediate] of the module.  Not embedded:
    [then], a chainable passed where a function is expected, a function
    handed to an adapter that calls its callback before it returns, the
    context as a value (what a [noHijack] function is handed first, see
    [call]), and the diagnostic output (what the logging line of
    [resolve] reads of a caught exception is embedded: reading it can
    raise). *)

From Stdlib Require Import ZArith String.
From stdpp Require Import base option list.

Set Warnings "-register-all".
Local Open Scope string_scope.
Local Open Scope list_scope.
Local Open Scope nat_scope.

(** ** Values *)

(** The three marker objects [NOW], [TICK] and [PAUSE] (compared by
    identity in the source). *)
Inductive Sentinel : Type := NOW | TICK | PAUSE.

(** JavaScript values, as far as the library tells them apart.
    [VOptions tick now pause value] is an object literal whose [tick], [now]
    and [pause] attributes are (or are not) the respective sentinel, and
    whose [value] attribute is [value]. [VChain c] is a reference to the
    [Chain] stored at index [c]; [VThenable t] is a foreign object that has a
    [then] method and no [chain] method: its [then] keeps the functions it
    is given and calls one of them later. Every other value has neither
    method. Arrays are values: the library writes to no array that it has
    handed on. *)
Inductive Val : Type :=
| VUndef
| VNull
| VBool (b : bool)
| VNum (n : Z)
| VStr (s : string)
| VArr (l : list Val)
| VError (msg : string)
| VObj (tag : nat)
| VSentinel (s : Sentinel)
| VOptions (tick now pause : bool) (value : Val)
| VChain (c : nat)
| VThenable (t : nat).

(** [!!v] *)
Definition truthy (v : Val) : bool :=
  match v with
  | VUndef | VNull | VBool false | VNum 0 | VStr "" => false
  | _ => true
  end.

(** [typeof v === 'undefined'] *)
Definition is_undefined (v : Val) : bool :=
  match v with VUndef => true | _ => false end.

(** [Array.isArray(v)] *)
Definition isArray (v : Val) : bool :=
  match v with VArr _ => true | _ => false end.

(** [isThenable]: [object && typeof object.then === 'function']. A [Chain]
    has a [then] method. *)
Definition isThenable (object : Val) : bool :=
  match object with VChain _ | VThenable _ => true | _ => false end.

(** [isChainable]: [object && typeof object.chain === 'function']. *)
Definition isChainable (object : Val) : bool :=
  match object with VChain _ => true | _ => false end.

(** [Array.isArray(v) ? v : [v]], the argument list a value is applied as. *)
Definition to_args (v : Val) : list Val :=
  match v with VArr l => l | _ => [v] end.

(** [a[k] = v] on a JavaScript array: writing past the end extends the
    array, the slots in between are holes (they read as [undefined]). *)
Definition js_set (k : nat) (v : Val) (a : list Val) : list Val :=
  if decide (k < length a) then <[k := v]> a
  else a ++ replicate (k - length a) VUndef ++ [v].

(** ** Handlers *)

(** How a handler's call ends. *)
Inductive Outcome : Type :=
| Return (v : Val)
| Throw (e : Val).

(** A function queued on a chain is one of the library's own closures
    (named after the place that creates them) or a function of the caller,
    [HUser].  A caller's function is given by what it does with the
    execution context it is called on: the calls it makes on [this] (or on
    the context passed first when the step is [noHijack]), in order, and
    how it ends.  Every method of the context returns the context itself,
    so those calls hand nothing back to the function. *)
Inductive Handler : Type :=
| HUser (body : list Val -> list Cmd * Outcome)
| HAllStart (j : nat)               (* all: function(){ctx = this.delay();} *)
| HAllOk (j k : nat) (isC : bool)   (* all: the first function given to values[k] *)
| HAllErr (j k : nat) (isC : bool)  (* all: the second function given to values[k] *)
| HSpread                           (* spread: _callback *)
| HReject (reason : Val)            (* Chain.prototype.reject: function(){this.reject(reason);} *)
| HNestedOk (c : nat)               (* resolve: first function of value.chain / value.then *)
| HNestedErr (c : nat) (isC : bool) (* resolve: second function of value.chain / value.then *)
with Cmd : Type :=
| CDelay                            (* this.delay(), this.pause() *)
| CNext (args : list Val)           (* this.next(...), this.resume(...) *)
| CReject (args : list Val)         (* this.reject(...) *)
| CChain (fallback errback : option Handler) (noHijack : bool). (* this.chain(...) *)

(** [this.fail(errback, noHijack)] *)
Definition CFail (errback : option Handler) (noHijack : bool) : Cmd :=
  CChain None errback noHijack.

(** A caller's function that makes no call on its context. *)
Definition returns (f : list Val -> Val) : Handler :=
  HUser (fun args => ([], Return (f args))).
Definition throws (f : list Val -> Val) : Handler :=
  HUser (fun args => ([], Throw (f args))).

(** ** The store *)

(** One entry of [_pending] / [_unPending]: [[fallback, errback]] or
    [[fallback, errback, true]]. *)
Record Step : Type := mkStep {
  fallback : option Handler;   (* fns[0], when it is a function *)
  errback : option Handler;    (* fns[1], when it is a function *)
  noHijack : bool              (* fns[2] *)
}.

(** The fields of a [Chain]. [_error] absent and [_error] holding
    [undefined] are one state for the source ([typeof this._error]), and
    one here; likewise [_paused]. *)
Record Chain : Type := mkChain {
  _resolving : bool;
  _pending : list Step;
  _unPending : list Step;
  _errors : list Val;
  _immediate : bool;
  _paused : bool;
  _value : Val;
  _error : Val
}.

(** The variables one settlement's closures share ([self], [skip],
    [nextOnce] in [resolve]); the index of this record in the store stands
    for the object [obj]. *)
Record Ctx : Type := mkCtx {
  self : nat;
  skip : bool;
  nextOnce : bool
}.

(** The variables of one call of [all]; [done] holds the [done] flag of
    each index's closure. *)
Record Join : Type := mkJoin {
  len : nat;
  complete : nat;
  results : list Val;
  firstErr : Val;
  errResults : option (list Val);
  ctx : option nat;
  done : list bool
}.

Inductive Slot : Type := OnSuccess | OnFailure.

(** One call of a queued function by the engine ([fns[0].apply] or
    [fns[1].apply] in [resolve]). *)
Record Call : Type := mkCall {
  call_chain : nat;
  call_slot : Slot;
  call_handler : Handler;
  call_args : list Val
}.

(** [default_immediate] is the module's variable [_immediate]; [ticks] the
    queue of [nextTick], each entry the chain whose [resolve] was deferred;
    [registered] the functions handed to the [then] of foreign thenables.
    [trace] is not state of the program: it records every call the engine
    makes of a queued function, oldest first, so that theorems can say
    which functions ran, in which order and with which arguments. *)
Record World : Type := mkWorld {
  default_immediate : bool;
  chains : list Chain;
  ctxs : list Ctx;
  joins : list Join;
  ticks : list nat;
  registered : list (nat * Handler * Handler);
  trace : list Call
}.

Definition init_world (immediate : bool) : World :=
  mkWorld immediate [] [] [] [] [] [].

(** [setImmediate] *)
Definition setImmediate (immediate : Val) (w : World) : World :=
  mkWorld (truthy immediate) (chains w) (ctxs w) (joins w) (ticks w)
    (registered w) (trace w).

(** *** Field updates *)

Definition set_resolving (b : bool) (ch : Chain) : Chain :=
  mkChain b (_pending ch) (_unPending ch) (_errors ch) (_immediate ch)
    (_paused ch) (_value ch) (_error ch).
Definition set_pending (p : list Step) (ch : Chain) : Chain :=
  mkChain (_resolving ch) p (_unPending ch) (_errors ch) (_immediate ch)
    (_paused ch) (_value ch) (_error ch).
Definition set_unPending (p : list Step) (ch : Chain) : Chain :=
  mkChain (_resolving ch) (_pending ch) p (_errors ch) (_immediate ch)
    (_paused ch) (_value ch) (_error ch).
Definition set_errors (l : list Val) (ch : Chain) : Chain :=
  mkChain (_resolving ch) (_pending ch) (_unPending ch) l (_immediate ch)
    (_paused ch) (_value ch) (_error ch).
Definition set_immediate (b : bool) (ch : Chain) : Chain :=
  mkChain (_resolving ch) (_pending ch) (_unPending ch) (_errors ch) b
    (_paused ch) (_value ch) (_error ch).
Definition set_paused (b : bool) (ch : Chain) : Chain :=
  mkChain (_resolving ch) (_pending ch) (_unPending ch) (_errors ch)
    (_immediate ch) b (_value ch) (_error ch).
Definition set_value (v : Val) (ch : Chain) : Chain :=
  mkChain (_resolving ch) (_pending ch) (_unPending ch) (_errors ch)
    (_immediate ch) (_paused ch) v (_error ch).
Definition set_error (e : Val) (ch : Chain) : Chain :=
  mkChain (_resolving ch) (_pending ch) (_unPending ch) (_errors ch)
    (_immediate ch) (_paused ch) (_value ch) e.

Definition set_chains (l : list Chain) (w : World) : World :=
  mkWorld (default_immediate w) l (ctxs w) (joins w) (ticks w)
    (registered w) (trace w).
Definition set_ctxs (l : list Ctx) (w : World) : World :=
  mkWorld (default_immediate w) (chains w) l (joins w) (ticks w)
    (registered w) (trace w).
Definition set_joins (l : list Join) (w : World) : World :=
  mkWorld (default_immediate w) (chains w) (ctxs w) l (ticks w)
    (registered w) (trace w).
Definition set_ticks (l : list nat) (w : World) : World :=
  mkWorld (default_immediate w) (chains w) (ctxs w) (joins w) l
    (registered w) (trace w).
Definition set_registered (l : list (nat * Handler * Handler)) (w : World) : World :=
  mkWorld (default_immediate w) (chains w) (ctxs w) (joins w) (ticks w)
    l (trace w).
Definition set_trace (l : list Call) (w : World) : World :=
  mkWorld (default_immediate w) (chains w) (ctxs w) (joins w) (ticks w)
    (registered w) l.

(** Update in place of the chain, context or join stored at an index. *)
Definition upd_chain (c : nat) (f : Chain -> Chain) (w : World) : World :=
  set_chains (alter f c (chains w)) w.
Definition upd_ctx (k : nat) (f : Ctx -> Ctx) (w : World) : World :=
  set_ctxs (alter f k (ctxs w)) w.
Definition upd_join (j : nat) (f : Join -> Join) (w : World) : World :=
  set_joins (alter f j (joins w)) w.

Definition set_skip (b : bool) (cx : Ctx) : Ctx := mkCtx (self cx) b (nextOnce cx).
Definition set_nextOnce (b : bool) (cx : Ctx) : Ctx := mkCtx (self cx) (skip cx) b.

(** [typeof h === 'function'] for an entry of a step. *)
Definition is_function (h : option Handler) : bool :=
  match h with Some _ => true | None => false end.

(** The [TypeError] of reading an attribute of [undefined] or [null], or
    of calling a method on an undefined [this]. *)
Definition TypeError : Val := VError "TypeError".

(** [undefined] or [null]: the values an attribute cannot be read of. *)
Definition is_nullish (v : Val) : bool :=
  match v with VUndef | VNull => true | _ => false end.

(** ** Calls and their results

    A call of a function of the library returns, leaving a store, or
    raises an exception that none of its [try] blocks caught, leaving a
    store as well. *)
Inductive Res : Type :=
| Ok (w : World)
| Raise (w : World) (e : Val).

Definition store (r : Res) : World :=
  match r with Ok w | Raise w _ => w end.

(** One call after another: when the first raises, so does the caller.
    [None] is a call that did not return within the bound on the depth of
    calls (or that read a chain, context or join the store does not hold). *)
Definition and_then (m : option Res) (k : World → option Res) : option Res :=
  match m with
  | Some (Ok w) => k w
  | Some (Raise w e) => Some (Raise w e)
  | None => None
  end.

Notation "w <- m ;; k" := (and_then m (fun w => k))
  (at level 100, m at next level, right associativity).

(** ** The engine

    Every cycle of calls in the source passes through the inner function
    [resolve] of [Chain.prototype.resolve]: the context's [next], a nested
    chain's [chain], the closures of [all].  The functions of this section
    are written over [resolve_rec], the [resolve] they call; [resolve]
    below ties the knot with a bound on the depth of the calls.
    Diagnostic logging is off ([exports._report] is false, as the module
    sets it). *)
Section Engine.

Variable resolve_rec : World -> nat -> list Val -> option Res.

(** [_chain(ctx, fallback, errback, noHijack, prepend)], for [fallback]
    and [errback] that are functions or absent. (A chainable given as
    [fallback] is outside this embedding.) *)
Definition _chain (w : World) (c : nat) (fb eb : option Handler)
    (nh prepend : bool) : World :=
  if is_function fb || is_function eb then
    upd_chain c (fun ch =>
      if prepend then set_unPending (_unPending ch ++ [mkStep fb eb nh]) ch
      else set_pending (_pending ch ++ [mkStep fb eb nh]) ch) w
  else w.

(** *** The closures of one settlement (the methods of [obj]) *)

(** [delay], also [pause] *)
Definition ctx_delay (w : World) (k : nat) : option Res :=
  cx ← ctxs w !! k;
  if skip cx then Some (Ok w)
  else Some (Ok (upd_ctx k (set_skip true)
                   (upd_chain (self cx) (set_paused true) w))).

(** [next], also [resume] *)
Definition ctx_next (w : World) (k : nat) (args : list Val) : option Res :=
  cx ← ctxs w !! k;
  if nextOnce cx then Some (Ok w)
  else
    let w := upd_chain (self cx) (set_paused false) w in
    let w := upd_ctx k (fun cx => set_nextOnce true (set_skip true cx)) w in
    resolve_rec w (self cx) args.

(** [chain(fallback, errback, noHijack)] of the context; [fail] is the
    same with no [fallback]. *)
Definition ctx_chain (w : World) (k : nat) (fb eb : option Handler)
    (nh : bool) : option Res :=
  cx ← ctxs w !! k;
  Some (Ok (_chain w (self cx) fb eb nh true)).

(** [reject(reason)]: only the first argument is read. *)
Definition ctx_reject (w : World) (k : nat) (args : list Val) : option Res :=
  cx ← ctxs w !! k;
  let reason := hd VUndef args in
  let reason := if truthy reason then reason else VError "No reason given" in
  ctx_next (upd_chain (self cx) (set_error reason) w) k [].

Definition run_cmd (w : World) (k : nat) (cmd : Cmd) : option Res :=
  match cmd with
  | CDelay => ctx_delay w k
  | CNext args => ctx_next w k args
  | CReject args => ctx_reject w k args
  | CChain fb eb nh => ctx_chain w k fb eb nh
  end.

Fixpoint run_cmds (w : World) (k : nat) (cmds : list Cmd) : option Res :=
  match cmds with
  | [] => Some (Ok w)
  | cmd :: rest => w <- run_cmd w k cmd ;; run_cmds w k rest
  end.

(** *** [Chain.prototype.resolve] and [Chain.prototype.chain] *)

Definition Chain_resolve (w : World) (c : nat) : option Res :=
  ch ← chains w !! c;
  if (length (_pending ch) =? 0) || _resolving ch then Some (Ok w)
  else
    let w := upd_chain c (set_resolving true) w in
    if negb (_immediate ch) then
      (* nextTick(function() { resolve.call(self); }) *)
      Some (Ok (set_ticks (ticks w ++ [c]) w))
    else
      let w := upd_chain c (set_immediate (default_immediate w)) w in
      resolve_rec w c [].

Definition Chain_chain (w : World) (c : nat) (fb eb : option Handler)
    (nh : bool) : option Res :=
  Chain_resolve (_chain w c fb eb nh false) c.

(** *** [all]'s closures *)

(** [whenDone]. The context's [reject] is handed [firstErr] and
    [errResults]. ([ctx] is set by the time [whenDone] is called: [now]
    runs the function that sets it before it returns.) *)
Definition whenDone (w : World) (j : nat) : option Res :=
  jn ← joins w !! j;
  if (complete jn =? len jn) then
    match ctx jn with
    | None => Some (Raise w TypeError)
    | Some k =>
      match errResults jn with
      | Some errs => ctx_reject w k [firstErr jn; VArr errs]
      | None => ctx_next w k [VArr (results jn)]
      end
    end
  else Some (Ok w).

(** The writes of the closures of index [i] when entry [i] settles, with
    the result [r] or with the error [err]: [complete++; done = true],
    and [results[k] = r], or [if( !firstErr ) firstErr = err] and
    [(errResults = errResults || [])[k] = err]. *)
Definition settled (i : nat) (r : option Val) (err : option Val) (jn : Join) : Join :=
  mkJoin (len jn) (S (complete jn))
    (match r with Some v => <[i := v]> (results jn) | None => results jn end)
    (match err with
     | Some e => if truthy (firstErr jn) then firstErr jn else e
     | None => firstErr jn
     end)
    (match err with
     | Some e => Some (js_set i e (default [] (errResults jn)))
     | None => errResults jn
     end)
    (ctx jn)
    (<[i := true]> (done jn)).

Definition set_ctx (k : option nat) (jn : Join) : Join :=
  mkJoin (len jn) (complete jn) (results jn) (firstErr jn) (errResults jn) k (done jn).
Definition set_results (l : list Val) (jn : Join) : Join :=
  mkJoin (len jn) (complete jn) l (firstErr jn) (errResults jn) (ctx jn) (done jn).

(** *** Calling a queued function

    The call of a function, up to its return or to the exception that
    leaves it: an exception raised by a call the function makes is not
    caught by the function and ends it.  [this] is the context the
    function is applied to; a foreign thenable applies the functions it
    was given to no context. The library's own closures are never queued
    [noHijack], so for them [this] is the context whenever the engine
    calls them. *)
Definition ends (m : option Res) (out : Outcome) : option (World * Outcome) :=
  match m with
  | Some (Ok w) => Some (w, out)
  | Some (Raise w e) => Some (w, Throw e)
  | None => None
  end.

Definition run_handler (w : World) (this : option nat) (h : Handler)
    (args : list Val) : option (World * Outcome) :=
  match h with
  | HUser body =>
    let '(cmds, out) := body args in
    match this with
    | Some k => ends (run_cmds w k cmds) out
    | None => Some (w, match cmds with [] => out | _ => Throw TypeError end)
    end
  | HAllStart j =>
    match this with
    | Some k =>
      ends (w <- ctx_delay w k ;; Some (Ok (upd_join j (set_ctx (Some k)) w)))
        (Return VUndef)
    | None => Some (w, Throw TypeError)
    end
  | HAllOk j i isC =>
    jn ← joins w !! j;
    if default false (done jn !! i) then Some (w, Return VUndef)
    else
      (* arguments.length > 1 ? slice(arguments) : arguments[0] *)
      let r := if (1 <? length args) then VArr args else hd VUndef args in
      let w := upd_join j (settled i (Some r) None) w in
      match whenDone w j with
      | Some (Ok w) =>
        jn ← joins w !! j;
        Some (w, Return (if isC then default VUndef (results jn !! i) else VUndef))
      | Some (Raise w e) => Some (w, Throw e)
      | None => None
      end
  | HAllErr j i isC =>
    jn ← joins w !! j;
    if default false (done jn !! i) then Some (w, Return VUndef)
    else
      let err := hd VUndef args in
      let w := upd_join j (settled i None (Some err)) w in
      ends (w <- whenDone w j ;;
            if isC then
              match this with
              | Some k => ctx_reject w k [err]
              | None => Some (Raise w TypeError)
              end
            else Some (Ok w))
        (Return VUndef)
  | HSpread =>
    match args with
    | [a] =>
      if isArray a then
        match this with
        | Some k => ends (ctx_next w k (to_args a)) (Return VUndef)
        | None => Some (w, Throw TypeError)
        end
      else Some (w, Return a)
    | _ =>
      match this with
      | Some k => ends (ctx_next w k args) (Return VUndef)
      | None => Some (w, Throw TypeError)
      end
    end
  | HReject reason =>
    match this with
    | Some k => ends (ctx_reject w k [reason]) (Return VUndef)
    | None => Some (w, Throw TypeError)
    end
  | HNestedOk c =>
    ends (resolve_rec (upd_chain c (set_paused false) w) c args) (Return VUndef)
  | HNestedErr c isC =>
    let err := hd VUndef args in
    ends (w <- resolve_rec
                 (upd_chain c (fun ch => set_error err (set_paused false ch)) w) c [] ;;
          if isC then
            match this with
            | Some k => ctx_reject w k [err]
            | None => Some (Raise w TypeError)
            end
          else Some (Ok w))
      (Return VUndef)
  end.

(** The engine's call of a queued function: [fns[0].apply] or
    [fns[1].apply], inside its [try]. For a [noHijack] step the source
    applies the function to [undefined] and hands it the context as its
    first argument, in front of [args]. A context is no [Val]: here [args]
    are the arguments behind the context, a caller's function is a
    function of these, and the calls it makes on the context it makes
    through whichever of the two it was given. *)
Definition call (w : World) (c k : nat) (slot : Slot) (h : Handler)
    (args : list Val) : option (World * Outcome) :=
  run_handler (set_trace (trace w ++ [mkCall c slot h args]) w) (Some k) h args.

(** *** The inner [resolve] *)

(** From [if( skip || this._paused || ... )] to the end of [resolve]. *)
Definition settle (w : World) (c k : nat) (value : Val) : option Res :=
  cx ← ctxs w !! k;
  ch ← chains w !! c;
  if skip cx || _paused ch || negb (is_undefined (_error ch)) then
    resolve_rec w c []
  else
    w <- match value with
         | VChain d => (* isChainable(value) *)
           Chain_chain (upd_chain c (set_paused true) w) d
             (Some (HNestedOk c)) (Some (HNestedErr c true)) false
         | VThenable t => (* isThenable(value) *)
           let w := upd_chain c (set_paused true) w in
           Some (Ok (set_registered
                       (registered w ++ [(t, HNestedOk c, HNestedErr c false)]) w))
         | _ =>
           let w := if negb (is_undefined value)
                    then upd_chain c (set_value value) w else w in
           resolve_rec w c (to_args value)
         end ;;
    ch ← chains w !! c;
    Some (Ok (if (length (_pending ch) =? 0)
              then upd_chain c (set_resolving false) w else w)).

Definition resolve_body (w : World) (c : nat) (args0 : list Val) : option Res :=
  ch ← chains w !! c;
  let args := if (length args0 =? 0) then to_args (_value ch) else args0 in
  let w := if (length args0 =? 0) then w
           else upd_chain c (set_value (VArr args0)) w in
  if (length (_pending ch) =? 0) then
    Some (Ok (upd_chain c (set_resolving false) w))
  else if _paused ch then Some (Ok w)
  else
    (* this._pending.unshift.apply(this._pending, this._unPending);
       this._unPending.length = 0; var fns = this._pending.shift(); *)
    match _unPending ch ++ _pending ch with
    | [] => None (* not reached: [_pending] is not empty *)
    | fns :: rest =>
      let w := upd_chain c (fun ch => set_unPending [] (set_pending rest ch)) w in
      if negb (is_function (fallback fns) || is_function (errback fns)) then
        resolve_rec w c args
      else
        let k := length (ctxs w) in
        let w := set_ctxs (ctxs w ++ [mkCtx c false false]) w in
        if negb (is_undefined (_error ch)) then
          match errback fns with
          | None => resolve_rec w c args
          | Some h =>
            (* self._errors.push(self._error) *)
            let err := _error ch in
            let w := upd_chain c (fun ch => set_errors (_errors ch ++ [err]) ch) w in
            '(w, out) ← call w c k OnFailure h [err];
            match out with
            | Return val =>
              (* delete self._error; return val *)
              let w := upd_chain c (set_error VUndef) w in
              settle w c k (if is_undefined val then VArr [VUndef] else val)
            | Throw e =>
              (* self._error = e *)
              let w := upd_chain c (set_error e) w in
              settle w c k (VArr [e])
            end
          end
        else
          match fallback fns with
          | None => resolve_rec w c args
          | Some h =>
            '(w, out) ← call w c k OnSuccess h args;
            match out with
            | Return val =>
              settle w c k (if is_undefined val then VArr [] else val)
            | Throw e =>
              (* self._error = e;
                 console.log('err', e && e.stack || e.message || e) *)
              let w := upd_chain c (set_error e) w in
              if is_nullish e then Some (Raise w TypeError)
              else settle w c k (VArr [])
            end
          end
    end.

(** The callback given to [nextTick] that is first in its queue runs. *)
Definition run_tick (w : World) : option Res :=
  match ticks w with
  | [] => Some (Ok w)
  | c :: rest => resolve_rec (set_ticks rest w) c []
  end.

(** A foreign thenable calls the first ([ok]) or the second function of
    its [r]-th registration; what the function returns or throws is the
    thenable's business. *)
Definition thenable_calls (w : World) (r : nat) (ok : bool)
    (args : list Val) : option Res :=
  '(_, f, g) ← registered w !! r;
  '(w, _) ← run_handler w None (if ok then f else g) args;
  Some (Ok w).

(** *** Construction

    A call that creates a chain returns a reference to it: the new chain
    is stored behind the chains the store holds, so the chain created by
    a call on the store [w] is number [length (chains w)]. *)

(** [new Chain(value, fallback, errback, noHijack)]. [null] is an object
    without attributes: reading [value.tick] raises. *)
Definition new_Chain (w : World) (value : Val) (fb eb : option Handler)
    (nh : bool) : option Res :=
  let d := default_immediate w in
  let mk imm paused v := mkChain false [] [] [] imm paused v VUndef in
  match
    match value with
    | VSentinel NOW => Some (mk true false VUndef)
    | VSentinel TICK => Some (mk false false VUndef)
    | VSentinel PAUSE => Some (mk d true VUndef)
    | VNull => None
    | VOptions tick now pause v =>
      Some (mk (if now then true else if tick then false else d) pause
              (if tick || now || pause then v else value))
    | _ => Some (mk d false value)
    end
  with
  | None => Some (Raise w TypeError)
  | Some ch =>
    Chain_chain (set_chains (chains w ++ [ch]) w) (length (chains w)) fb eb nh
  end.

(** [start], [now], [chain], [fail] of the module. *)
Definition start (w : World) (value : Val) (fb eb : option Handler) :=
  new_Chain w value fb eb false.
Definition now (w : World) (value : Val) (fb eb : option Handler) :=
  start w (VOptions false true false value) fb eb.
Definition chain (w : World) (fb eb : option Handler) :=
  start w VUndef fb eb.
Definition fail (w : World) (err : Val) : option Res :=
  let ch := length (chains w) in
  w <- start w VUndef None None ;;
  Some (Ok (upd_chain ch (set_error (if truthy err then err else VError "")) w)).

(** [Chain.prototype.spread], [Chain.prototype.fail],
    [Chain.prototype.fin], [Chain.prototype.reject] *)
Definition Chain_spread (w : World) (c : nat) (fb eb : option Handler)
    (nh : bool) : option Res :=
  w <- Chain_chain w c (Some HSpread) None false ;;
  Chain_chain w c fb eb nh.
Definition Chain_fail (w : World) (c : nat) (eb : option Handler) (nh : bool) :=
  Chain_chain w c None eb nh.
Definition Chain_fin (w : World) (c : nat) (finback : option Handler) (nh : bool) :=
  Chain_chain w c finback finback nh.
Definition Chain_reject (w : World) (c : nat) (reason : Val) :=
  Chain_chain w c (Some (HReject reason)) None false.

(** *** [all] *)

(** The [for] loop of [all], from index [i] on. *)
Fixpoint all_loop (w : World) (j : nat) (values : list Val) (i : nat)
    : option Res :=
  match values with
  | [] => Some (Ok w)
  | v :: rest =>
    w <- match v with
         | VChain d => (* isThenable, isChainable: values[k].chain(...) *)
           Chain_chain w d (Some (HAllOk j i true)) (Some (HAllErr j i true)) false
         | VThenable t => (* isThenable only: values[k].then(...) *)
           Some (Ok (set_registered
                       (registered w ++ [(t, HAllOk j i false, HAllErr j i false)]) w))
         | _ => (* results[i] = values[i]; complete++ *)
           Some (Ok (upd_join j (fun jn =>
             mkJoin (len jn) (S (complete jn)) (<[i := v]> (results jn))
               (firstErr jn) (errResults jn) (ctx jn) (done jn)) w))
         end ;;
    all_loop w j rest (S i)
  end.

(** [all(values)], for an array [values]; the chain it returns is the
    first it creates. *)
Definition all (w : World) (values : list Val) : option Res :=
  let n := length values in
  if (n =? 0) then now w VUndef None None
  else
    let j := length (joins w) in
    let w := set_joins
               (joins w ++ [mkJoin n 0 [] VUndef None None (replicate n false)]) w in
    w <- now w VUndef (Some (HAllStart j)) None ;;
    (* results.length = len *)
    let w := upd_join j (set_results (replicate n VUndef)) w in
    w <- all_loop w j values 0 ;;
    jn ← joins w !! j;
    if (complete jn =? n) then whenDone w j else Some (Ok w).

End Engine.

(** [resolve fuel w c args]: the inner [resolve] applied to chain [c] with
    the arguments [args], calls nested at most [fuel] deep. *)
Fixpoint resolve (fuel : nat) : World -> nat -> list Val -> option Res :=
  match fuel with
  | O => fun _ _ _ => None
  | S n => resolve_body (resolve n)
  end.

(** ** Client programs

    What runs on top of the engine: the calls a client makes on the module
    and on its chains, and the events of the environment (a [nextTick]
    callback running, a foreign thenable calling back, a context saved by a
    suspended function being resumed or rejected from outside).  Each runs
    to completion before the next; an exception that leaves one of them
    ends the program.  Chains are numbered in the order of their creation,
    from 0; so are contexts, joins and registrations. *)
Inductive Op : Type :=
| OSetImmediate (immediate : Val)
| OStart (value : Val) (fb eb : option Handler)
| ONow (value : Val) (fb eb : option Handler)
| OFail (err : Val)
| OAll (values : list Val)
| OChain (c : nat) (fb eb : option Handler) (nh : bool)
| OSpread (c : nat) (fb eb : option Handler) (nh : bool)
| OReject (c : nat) (reason : Val)
| OResolve (c : nat)
| OTick
| OThenable (r : nat) (ok : bool) (args : list Val)
| OCtxNext (k : nat) (args : list Val)
| OCtxReject (k : nat) (args : list Val).

Definition run_op (fuel : nat) (w : World) (op : Op) : option Res :=
  match op with
  | OSetImmediate v => Some (Ok (setImmediate v w))
  | OStart v fb eb => start (resolve fuel) w v fb eb
  | ONow v fb eb => now (resolve fuel) w v fb eb
  | OFail err => fail (resolve fuel) w err
  | OAll values => all (resolve fuel) w values
  | OChain c fb eb nh => Chain_chain (resolve fuel) w c fb eb nh
  | OSpread c fb eb nh => Chain_spread (resolve fuel) w c fb eb nh
  | OReject c reason => Chain_reject (resolve fuel) w c reason
  | OResolve c => Chain_resolve (resolve fuel) w c
  | OTick => run_tick (resolve fuel) w
  | OThenable r ok args => thenable_calls (resolve fuel) w r ok args
  | OCtxNext k args => ctx_next (resolve fuel) w k args
  | OCtxReject k args => ctx_reject (resolve fuel) w k args
  end.

Fixpoint run_ops (fuel : nat) (w : World) (ops : list Op) : option Res :=
  match ops with
  | [] => Some (Ok w)
  | op :: rest => w <- run_op fuel w op ;; run_ops fuel w rest
  end.

(** The stores a client program can leave, started on the empty one. *)
Definition reachable (w : World) : Prop :=
  ∃ d ops fuel r, run_ops fuel (init_world d) ops = Some r ∧ store r = w.

(** ** What the theorems speak of *)

(** The errors that the failure functions of chain [c] were called with,
    in the order of the calls. *)
Definition handled (c : nat) (tr : list Call) : list Val :=
  omap (fun x =>
          match call_slot x with
          | OnFailure =>
            if decide (call_chain x = c) then Some (hd VUndef (call_args x))
            else None
          | OnSuccess => None
          end) tr.

(** The error history of every chain is the list of the errors its failure
    functions were called with (and the trace names existing chains only). *)
Definition history_ok (w : World) : Prop :=
  (∀ c ch, chains w !! c = Some ch → _errors ch = handled c (trace w)) ∧
  (∀ x, x ∈ trace w → call_chain x < length (chains w)).

(** [evolves w w']: what holds between a store and any later one. Calls
    are only added to the trace; a chain stays, its error history only
    grows at its end, and its [_immediate], once false, stays false; the
    relation of history and trace is kept. *)
Record evolves (w w' : World) : Prop := mkEvolves {
  ev_trace : trace w `prefix_of` trace w';
  ev_chain : ∀ c ch, chains w !! c = Some ch →
    ∃ ch', chains w' !! c = Some ch' ∧
           _errors ch `prefix_of` _errors ch' ∧
           (_immediate ch = false → _immediate ch' = false);
  ev_history : history_ok w → history_ok w'
}.

(** What a client can observe of chain [c] after a run that returned:
    the calls the engine made, and the chain's fields. *)
Definition outcome (c : nat) (r : option Res) : option (list Call * Chain) :=
  r ← r;
  match r with
  | Ok w => ch ← chains w !! c; Some (trace w, ch)
  | Raise _ _ => None
  end.


(** [function() { return Array.prototype.slice.call(arguments); }]: a
    caller's function that hands on the arguments it was called with. *)
Definition echo : Handler := returns VArr.

(** [start({tick: TICK, value: v})] or, for [imm], [start({now: NOW, value:
    v})]: a new chain with the value [v], in deferred or in immediate mode
    whatever the module's default. *)
Definition OFresh (imm : bool) (v : Val) : Op :=
  OStart (VOptions (negb imm) imm false v) None None.

(** *** Stores used as instances

    [after_next]: [start(5, f)] with [f] calling [this.next(1)], after the
    tick: context 0 is the one [f] ran on, its [next] has been honoured.
    [deferred_idle]: one chain created with [TICK], nothing queued, the
    module's default being immediate. [just_queued]: the same after
    [_chain] has queued [echo] on it, as [Chain.prototype.chain] calls
    [resolve]. [thrown]: a chain whose first step threw ["boom"];
    [recovered]: the same after a failure function has been attached and
    has returned. *)
Definition left_by (r : option Res) : World :=
  match r with Some r => store r | None => init_world false end.

Definition after_next : World :=
  Eval vm_compute in
    left_by (run_ops 4 (init_world false)
               [OStart (VNum 5)
                  (Some (HUser (λ _, ([CNext [VNum 1]], Return VUndef)))) None;
                OTick]).

Definition deferred_idle : World :=
  Eval vm_compute in
    left_by (run_ops 1 (init_world true) [OStart (VSentinel TICK) None None]).

Definition just_queued : World :=
  Eval vm_compute in _chain deferred_idle 0 (Some echo) None false false.

Definition thrown : World :=
  Eval vm_compute in
    left_by (run_ops 4 (init_world false)
               [OStart (VNum 1) (Some (throws (λ _, VStr "boom"))) None; OTick]).

Definition recovered : World :=
  Eval vm_compute in
    left_by (run_ops 4 thrown [OChain 0 None (Some echo) false; OTick]).


(** ** The adapters [cCall], [aCall] and [nCall]

    An adapter queues a call of a function of the caller's, [call] or
    [func]. Such a function is given by how its call ends, as a function of
    the parameters it is called with; [None] is a [call] that is not a
    function. [aCall] and [nCall] hand [call] a callback as its last
    argument: [call] keeps it and calls it later or never, as an
    asynchronous function does (a [call] that calls it before it returns
    is outside this embedding). *)
Definition Callee : Type := option (list Val -> Outcome).

(** [call.apply(context, args)] *)
Definition js_apply (call : Callee) (params : list Val) : Outcome :=
  match call with
  | Some f => f params
  | None => Throw TypeError
  end.

(** A call whose result is dropped. *)
Definition dropped (out : Outcome) : Outcome :=
  match out with
  | Return _ => Return VUndef
  | Throw e => Throw e
  end.

(** The closures [aCall] and [nCall] of a settlement queue, in front,
    [function() { this.delay(); call.apply(context, args); }] (in [nCall]:
    [self = this.delay()]); the closure [cCall] queues
    [function() { return func.apply(context, params); }]. *)
Definition aCall_step (call : Callee) (params : list Val) : Handler :=
  HUser (fun _ => ([CDelay], dropped (js_apply call params))).
Definition cCall_step (func : Callee) (params : list Val) : Handler :=
  HUser (fun _ => ([], js_apply func params)).

(** [this.aCall(call, context, params...)], [this.cCall(func, context,
    params...)] *)
Definition CaCall (call : Callee) (params : list Val) : Cmd :=
  CChain (Some (aCall_step call params)) None false.
Definition CcCall (func : Callee) (params : list Val) : Cmd :=
  CChain (Some (cCall_step func params)) None false.

(** The error the closure [nCall] throws when [call] is not a function. *)
Definition nCall_error : Val :=
  VError "`call` argument in nCall must be a function.".

(** The functions the adapters of [Chain.prototype] and of the module
    queue: [function() { this.aCall.apply(undefined, args); }], and the
    same with [nCall] and [cCall]. *)
Definition aCall_start (call : Callee) (params : list Val) : Handler :=
  HUser (fun _ => ([CaCall call params], Return VUndef)).
Definition nCall_start (call : Callee) (params : list Val) : Handler :=
  HUser (fun _ =>
    match call with
    | Some _ => ([CaCall call params], Return VUndef)
    | None => ([], Throw nCall_error)
    end).
Definition cCall_start (func : Callee) (params : list Val) : Handler :=
  HUser (fun _ => ([CcCall func params], Return VUndef)).

Section Adapters.

Variable resolve_rec : World -> nat -> list Val -> option Res.

(** The closures [aCall], [nCall] and [cCall] of the context [k]. *)
Definition ctx_aCall (w : World) (k : nat) (call : Callee) (params : list Val)
    : option Res :=
  ctx_chain w k (Some (aCall_step call params)) None false.
Definition ctx_nCall (w : World) (k : nat) (call : Callee) (params : list Val)
    : option Res :=
  match call with
  | Some _ => ctx_chain w k (Some (aCall_step call params)) None false
  | None => Some (Raise w nCall_error)
  end.
Definition ctx_cCall (w : World) (k : nat) (func : Callee) (params : list Val)
    : option Res :=
  ctx_chain w k (Some (cCall_step func params)) None false.

(** The callback [aCall] hands to [call], [aCall] having been called on
    the context [k]: [obj.resume.apply(undefined, arguments)]. *)
Definition aCall_callback (w : World) (k : nat) (args : list Val) : option Res :=
  ctx_next resolve_rec w k args.

(** The callback [nCall] hands to [call], [nCall] having been called on
    the context [k] and the function it queued having run on the context
    [k2]: [if( err ) return obj.reject(err);
    self.resume.apply(undefined, slice(arguments, 1))]. *)
Definition nCall_callback (w : World) (k k2 : nat) (args : list Val) : option Res :=
  let err := hd VUndef args in
  if truthy err then ctx_reject resolve_rec w k [err]
  else ctx_next resolve_rec w k2 (tl args).

(** [Chain.prototype.aCall], [Chain.prototype.nCall],
    [Chain.prototype.cCall] *)
Definition Chain_aCall (w : World) (c : nat) (call : Callee) (params : list Val)
    : option Res :=
  match call with
  | None => Some (Ok w)
  | Some _ => Chain_chain resolve_rec w c (Some (aCall_start call params)) None false
  end.
Definition Chain_nCall (w : World) (c : nat) (call : Callee) (params : list Val)
    : option Res :=
  match call with
  | None => Some (Ok w)
  | Some _ => Chain_chain resolve_rec w c (Some (nCall_start call params)) None false
  end.
Definition Chain_cCall (w : World) (c : nat) (func : Callee) (params : list Val)
    : option Res :=
  Chain_chain resolve_rec w c (Some (cCall_start func params)) None false.

(** [aCall] and [nCall] of the module. *)
Definition aCall (w : World) (call : Callee) (params : list Val) : option Res :=
  now resolve_rec w VUndef (Some (aCall_start call params)) None.
Definition nCall (w : World) (call : Callee) (params : list Val) : option Res :=
  match call with
  | None =>
    Some (Raise w (VError "The first parameter of nCall must be a function."))
  | Some _ => now resolve_rec w VUndef (Some (nCall_start call params)) None
  end.

(** *** [each]

    [worker] is a function of the caller's: it may do what a client does
    (create chains, among others), so it is a function of the store; it
    returns a value or throws. *)
Definition Worker : Type := World -> Val -> option (World * Outcome).

(** The [for] loop of [each]: [arr.push(worker(values[i]))]. *)
Fixpoint each_loop (worker : Worker) (w : World) (values arr : list Val)
    : option (World * (list Val + Val)) :=
  match values with
  | [] => Some (w, inl arr)
  | v :: rest =>
    '(w, out) ← worker w v;
    match out with
    | Return x => each_loop worker w rest (arr ++ [x])
    | Throw e => Some (w, inr e)
    end
  end.

(** [each(values, worker)], for an array [values]. *)
Definition each (w : World) (values : list Val) (worker : Worker) : option Res :=
  '(w, r) ← each_loop worker w values [];
  match r with
  | inl arr => all resolve_rec w arr
  | inr e => Some (Raise w e)
  end.

End Adapters.

(** The adapters as steps of a client program: [aCall] and [nCall] of the
    module (for a [call] that is a function) and [c.cCall]. The callbacks
    of [aCall] and [nCall] are events of the environment, as every call
    from outside on a context is: the callback of [aCall] called on the
    context [k] is [OCtxNext k], that of [nCall] is [OnCallback k k2]. *)
Definition OaCall (call : Callee) (params : list Val) : Op :=
  ONow VUndef (Some (aCall_start call params)) None.
Definition OnCall (call : Callee) (params : list Val) : Op :=
  ONow VUndef (Some (nCall_start call params)) None.
Definition OcCall (c : nat) (func : Callee) (params : list Val) : Op :=
  OChain c (Some (cCall_start func params)) None false.
Definition OnCallback (k k2 : nat) (args : list Val) : Op :=
  if truthy (hd VUndef args) then OCtxReject k [hd VUndef args]
  else OCtxNext k2 (tl args).

(** [c.fin(finback, noHijack)] *)
Definition OFin (c : nat) (finback : option Handler) (nh : bool) : Op :=
  OChain c finback finback nh.

(** What a success function's return value [v] hands to the next step as
    its arguments: [if( typeof value === 'undefined' ) value = []], then
    [Array.isArray(value) ? value : [value]]. *)
Definition passed_on (v : Val) : list Val :=
  to_args (if is_undefined v then VArr [] else v).

(** The same for a failure function: [value = [self._error]], the error
    just deleted. *)
Definition recovered_with (v : Val) : list Val :=
  to_args (if is_undefined v then VArr [VUndef] else v).

(** ** Steps of plain functions

    A plain function makes no call on the context it is applied to: it
    returns or throws, as a function of its arguments. A plain step has a
    success function, a failure function or both.  [settle_plain] and
    [run_plain] read the guarantees of the doc comment of [Chain] as a
    fold over the steps of a queue, on the value of the chain, its pending
    error ([undefined]: none) and its error history; they give the calls
    made, oldest first, and are undefined ([None]) where a function hands
    back a chain or a thenable, or where the logging line of [resolve]
    raises. The theorems on [run_plain] say that the engine computes this
    fold. *)
Inductive PStep : Type :=
| POk (f : list Val -> Outcome)
| PErr (g : list Val -> Outcome)
| PBoth (f g : list Val -> Outcome).

Definition plain (f : list Val -> Outcome) : Handler :=
  HUser (fun args => ([], f args)).

Definition p_ok (s : PStep) : option (list Val -> Outcome) :=
  match s with POk f | PBoth f _ => Some f | PErr _ => None end.
Definition p_err (s : PStep) : option (list Val -> Outcome) :=
  match s with PErr g | PBoth _ g => Some g | POk _ => None end.

(** The entry of [_pending] that [chain(f, g)] queues. *)
Definition to_step (s : PStep) : Step :=
  mkStep (plain <$> p_ok s) (plain <$> p_err s) false.

(** [_value], [_error], [_errors] *)
Definition PState : Type := Val * Val * list Val.

Definition settle_plain (c : nat) (s : PStep) (st : PState)
    : option (list Call * PState) :=
  let '(value, error, errors) := st in
  if negb (is_undefined error) then
    match p_err s with
    | None => Some ([], (VArr (to_args value), error, errors))
    | Some g =>
      let called := mkCall c OnFailure (plain g) [error] in
      match g [error] with
      | Return v =>
        if isThenable v then None
        else Some ([called], (VArr (recovered_with v), VUndef, errors ++ [error]))
      | Throw e =>
        Some ([called],
              (if is_undefined e then VArr [VUndef] else value, e,
               errors ++ [error]))
      end
    end
  else
    match p_ok s with
    | None => Some ([], (VArr (to_args value), error, errors))
    | Some f =>
      let called := mkCall c OnSuccess (plain f) (to_args value) in
      match f (to_args value) with
      | Return v =>
        if isThenable v then None
        else Some ([called], (VArr (passed_on v), VUndef, errors))
      | Throw e =>
        if is_nullish e then None else Some ([called], (value, e, errors))
      end
    end.

Fixpoint run_plain (c : nat) (steps : list PStep) (st : PState)
    : option (list Call * PState) :=
  match steps with
  | [] => Some ([], st)
  | s :: rest =>
    '(calls, st) ← settle_plain c s st;
    '(calls', st) ← run_plain c rest st;
    Some (calls ++ calls', st)
  end.

(** [c.chain(f, g)] for the functions of a plain step. *)
Definition OPlain (c : nat) (s : PStep) : Op :=
  OChain c (plain <$> p_ok s) (plain <$> p_err s) false.

(** The value of the chain once [resolve] has been applied to [args]. *)
Definition entry_value (ch : Chain) (args : list Val) : Val :=
  match args with [] => _value ch | _ => VArr args end.

(** What one drain leaves of chain [c], of the trace and of the other
    chains: the calls [calls] were made, the chain is settled with the
    value, the pending error and the history of [st], no other chain has
    changed. *)
Definition drained (w w' : World) (c : nat) (imm : bool)
    (calls : list Call) (st : PState) : Prop :=
  trace w' = trace w ++ calls ∧
  chains w' !! c = Some (mkChain false [] [] st.2 imm false st.1.1 st.1.2) ∧
  ∀ c', c' ≠ c → chains w' !! c' = chains w !! c'.

(** The store with the one chain [start({tick: TICK, value: v0})], the
    steps [ps] queued on it and its drain scheduled. *)
Definition queued (d : bool) (v0 : Val) (ps : list Step) : World :=
  mkWorld d [mkChain true ps [] [] false false v0 VUndef] [] [] [0] [] [].

(** [results[i] = v; results[i+1] = v'; ...]: the writes of the loop of
    [all] for entries that are no chains. *)
Fixpoint inserts (i : nat) (vs l : list Val) : list Val :=
  match vs with
  | [] => l
  | v :: vs => inserts (S i) vs (<[i := v]> l)
  end.

(** ** The writes of the engine

    [write w w']: [w'] is [w] after one of the writes the library makes
    to the objects of the store. A field of a chain is assigned; a chain,
    a context or a join is created (the store holds it under the next free
    index); a tick is queued, or the first tick of the queue is taken; a
    registration with a thenable or a call in the trace is added; the
    module's default mode is set; [skip], or [skip] and [nextOnce], are
    set on a context; a closure of [all] assigns [ctx] or [results], or
    counts an entry. *)
Inductive write : World -> World -> Prop :=
| write_chain w c f : write w (upd_chain c f w)
| write_new_chain w ch : write w (set_chains (chains w ++ [ch]) w)
| write_tick w c : write w (set_ticks (ticks w ++ [c]) w)
| write_ticked w c rest : ticks w = c :: rest -> write w (set_ticks rest w)
| write_registered w x : write w (set_registered (registered w ++ [x]) w)
| write_trace w x : write w (set_trace (trace w ++ [x]) w)
| write_default w immediate : write w (setImmediate immediate w)
| write_new_ctx w cx : write w (set_ctxs (ctxs w ++ [cx]) w)
| write_skip w k : write w (upd_ctx k (set_skip true) w)
| write_next w k :
    write w (upd_ctx k (fun cx => set_nextOnce true (set_skip true cx)) w)
| write_new_join w n :
    write w (set_joins
               (joins w ++ [mkJoin n 0 [] VUndef None None (replicate n false)]) w)
| write_join_ctx w j k : write w (upd_join j (set_ctx (Some k)) w)
| write_join_results w j l : write w (upd_join j (set_results l) w)
| write_join_settled w j i r err : write w (upd_join j (settled i r err) w)
| write_join_plain w j i v :
    write w (upd_join j (fun jn =>
               mkJoin (len jn) (S (complete jn)) (<[i := v]> (results jn))
                 (firstErr jn) (errResults jn) (ctx jn) (done jn)) w).

(** Any number of writes, one after the other. *)
Inductive writes : World -> World -> Prop :=
| writes_none w : writes w w
| writes_more w w1 w2 : writes w w1 -> write w1 w2 -> writes w w2.

(** What every write keeps of a context: the chain it belongs to, and
    [skip] and [nextOnce] once they are set. *)
Definition ctx_kept (w w' : World) : Prop :=
  ∀ k cx, ctxs w !! k = Some cx →
    ∃ cx', ctxs w' !! k = Some cx' ∧ self cx' = self cx ∧
           (skip cx = true → skip cx' = true) ∧
           (nextOnce cx = true → nextOnce cx' = true).

(** What every write keeps of a join: the number of entries [all] waits
    for, and the [done] flag of an entry once it is set; [complete] never
    goes down. *)
Definition join_kept (w w' : World) : Prop :=
  ∀ j jn, joins w !! j = Some jn →
    ∃ jn', joins w' !! j = Some jn' ∧ len jn' = len jn ∧
           complete jn ≤ complete jn' ∧
           (∀ i, done jn !! i = Some true → done jn' !! i = Some true).

(** ** A chain that nothing resumes

    [_paused] is set to false by the [next] of a context of the chain and
    by the two functions that [resolve] hands to a chain or a thenable the
    chain waits for ([HNestedOk], [HNestedErr]); all three are created in
    a settlement of the chain itself.  [foreign c h]: the function [h] is
    not one of the two for chain [c], and neither is a function it
    queues. Every function of a caller is foreign to every chain, unless
    the caller got hold of one of the two. *)
Inductive foreign (c : nat) : Handler -> Prop :=
| foreign_user body :
    (∀ args cmd, cmd ∈ (body args).1 → foreign_cmd c cmd) →
    foreign c (HUser body)
| foreign_all_start j : foreign c (HAllStart j)
| foreign_all_ok j k isC : foreign c (HAllOk j k isC)
| foreign_all_err j k isC : foreign c (HAllErr j k isC)
| foreign_spread : foreign c HSpread
| foreign_reject reason : foreign c (HReject reason)
| foreign_nested_ok d : d ≠ c → foreign c (HNestedOk d)
| foreign_nested_err d isC : d ≠ c → foreign c (HNestedErr d isC)
with foreign_cmd (c : nat) : Cmd -> Prop :=
| foreign_delay : foreign_cmd c CDelay
| foreign_next args : foreign_cmd c (CNext args)
| foreign_creject args : foreign_cmd c (CReject args)
| foreign_cchain fb eb nh :
    (∀ h, fb = Some h → foreign c h) → (∀ h, eb = Some h → foreign c h) →
    foreign_cmd c (CChain fb eb nh).

Definition foreign_opt (c : nat) (h : option Handler) : Prop :=
  ∀ h', h = Some h' → foreign c h'.

Definition foreign_step (c : nat) (s : Step) : Prop :=
  foreign_opt c (fallback s) ∧ foreign_opt c (errback s).

Definition foreign_op (c : nat) (op : Op) : Prop :=
  match op with
  | OStart _ fb eb | ONow _ fb eb | OChain _ fb eb _ | OSpread _ fb eb _ =>
    foreign_opt c fb ∧ foreign_opt c eb
  | _ => True
  end.

(** [dormant c w]: chain [c] is paused in the store [w] and nothing in
    [w] can resume it: it has no context, no function that is queued on a
    chain or registered with a thenable is one of its two, and none of its
    functions was ever called. *)
Record dormant (c : nat) (w : World) : Prop := mkDormant {
  d_paused : ∃ ch, chains w !! c = Some ch ∧ _paused ch = true;
  d_ctx : ∀ k cx, ctxs w !! k = Some cx → self cx ≠ c;
  d_trace : ∀ x, x ∈ trace w → call_chain x ≠ c;
  d_queues : ∀ d ch, chains w !! d = Some ch →
    Forall (foreign_step c) (_pending ch) ∧
    Forall (foreign_step c) (_unPending ch);
  d_registered : ∀ t f g, (t, f, g) ∈ registered w → foreign c f ∧ foreign c g
}.

(** The values that make the constructor create a paused chain:
    [PAUSE], and an object whose [pause] attribute is [PAUSE]. *)
Definition pauses (value : Val) : bool :=
  match value with
  | VSentinel PAUSE => true
  | VOptions _ _ pause _ => pause
  | _ => false
  end.

(** *** More stores used as instances

    [suspended]: [start(5, f)] with [f] calling [this.delay()], and [echo]
    attached, after the tick: the chain is suspended on context 0.
    [resumed]: the same after [next(1)] on context 0. [waiting_for_two]:
    the store [all([t0, t1])] leaves, for two thenables; [one_counted]:
    the same after [t0] has delivered 1. *)
Definition suspended : World :=
  Eval vm_compute in
    left_by (run_ops 4 (init_world false)
               [OStart (VNum 5) (Some (HUser (λ _, ([CDelay], Return VUndef)))) None;
                OChain 0 (Some echo) None false;
                OTick]).

Definition resumed : World :=
  Eval vm_compute in left_by (ctx_next (resolve 4) suspended 0 [VNum 1]).

Definition waiting_for_two : World :=
  Eval vm_compute in
    left_by (run_ops 4 (init_world false) [OAll [VThenable 0; VThenable 1]]).

Definition one_counted : World :=
  Eval vm_compute in
    left_by (thenable_calls (resolve 4) waiting_for_two 0 true [VNum 1]).

(** [never_run]: the store after [start(PAUSE, echo)], [chain(echo, echo)]
    on the chain, a tick, [resolve()] and another tick, the module's
    default being immediate. *)
Definition never_run : World :=
  Eval vm_compute in
    left_by (run_ops 4 (init_world true)
               [OStart (VSentinel PAUSE) (Some echo) None;
                OChain 0 (Some echo) (Some echo) false;
                OTick; OResolve 0; OTick]).

(** [stranded]: a chain with the value 5 whose only function queues
    [echo] through its context and returns 1, after the tick: [echo] is
    in [_unPending] and [_pending] is empty. *)
Definition stranded : World :=
  Eval vm_compute in
    left_by (run_ops 4 (init_world false)
               [OFresh false (VNum 5);
                OChain 0 (Some (HUser (λ _, ([CChain (Some echo) None false],
                                             Return (VNum 1))))) None false;
                OTick]).

(** [picky]: a worker for [each] that throws ["boom"] on 3 and returns
    every other element as it is. *)
Definition picky : Worker :=
  λ w v, Some (w, match v with
                  | VNum 3 => Throw (VStr "boom")
                  | _ => Return v
                  end).


(** * Properties *)

(** ** Stores only evolve *)

Lemma evolves_refl w : evolves w w.
Proof.
  split; [done | | done].
  intros c ch Hc. exists ch. done.
Qed.

Lemma evolves_trans w1 w2 w3 : evolves w1 w2 → evolves w2 w3 → evolves w1 w3.
Proof.
  intros [T1 C1 H1] [T2 C2 H2]. split.
  - by etrans.
  - intros c ch Hc. destruct (C1 c ch Hc) as (ch2 & Hc2 & E2 & I2).
    destruct (C2 c ch2 Hc2) as (ch3 & Hc3 & E3 & I3).
    exists ch3. split_and!; [done | by etrans | auto].
  - auto.
Qed.

(** A change that touches neither the chains nor the trace. *)
Lemma evolves_same w w' :
  chains w' = chains w → trace w' = trace w → evolves w w'.
Proof.
  intros C T. split.
  - by rewrite T.
  - intros c ch Hc. exists ch. by rewrite C.
  - unfold history_ok. by rewrite C, T.
Qed.

(** An update of one chain that keeps its history, and keeps [_immediate]
    false if it was. *)
Lemma evolves_upd_chain w c f :
  (∀ ch, chains w !! c = Some ch →
         _errors (f ch) = _errors ch ∧
         (_immediate ch = false → _immediate (f ch) = false)) →
  evolves w (upd_chain c f w).
Proof.
  intros Hf. split; simpl.
  - done.
  - intros c' ch Hc. destruct (decide (c' = c)) as [->|Hne].
    + exists (f ch). rewrite list_lookup_alter_eq, Hc.
      destruct (Hf ch Hc) as [E I]. simpl. by rewrite E.
    + exists ch. by rewrite list_lookup_alter_ne.
  - intros [H1 H2]. split; simpl.
    + intros c' ch'. destruct (decide (c' = c)) as [->|Hne].
      * rewrite list_lookup_alter_eq. destruct (chains w !! c) as [ch|] eqn:Hc; [|done].
        intros [= <-]. destruct (Hf ch eq_refl) as [E _]. rewrite E. by apply H1.
      * rewrite list_lookup_alter_ne by done. apply H1.
    + intros x Hx. rewrite length_alter. by apply H2.
Qed.

Lemma handled_app c tr1 tr2 : handled c (tr1 ++ tr2) = handled c tr1 ++ handled c tr2.
Proof. apply omap_app. Qed.

Lemma handled_cons c x tr :
  handled c (x :: tr) =
  match call_slot x with
  | OnFailure =>
    if decide (call_chain x = c) then hd VUndef (call_args x) :: handled c tr
    else handled c tr
  | OnSuccess => handled c tr
  end.
Proof.
  unfold handled. simpl. destruct (call_slot x); [done|].
  by destruct (decide (call_chain x = c)).
Qed.

Lemma handled_none c tr :
  (∀ x, x ∈ tr → call_chain x ≠ c) → handled c tr = [].
Proof.
  induction tr as [|x tr IH]; intros H; [done|].
  rewrite handled_cons, IH by (intros; apply H; by right).
  destruct (call_slot x); [done|].
  destruct (decide (call_chain x = c)) as [E|]; [|done].
  exfalso. by apply (H x); [left|].
Qed.

(** A new chain, with an empty history. *)
Lemma evolves_alloc w ch :
  _errors ch = [] → evolves w (set_chains (chains w ++ [ch]) w).
Proof.
  intros E. split; simpl.
  - done.
  - intros c ch0 Hc. exists ch0. by rewrite lookup_app_l by (by eapply lookup_lt_Some).
  - intros [H1 H2]. split; simpl.
    + intros c ch'. rewrite lookup_app_Some. intros [Hc|[Hlen Hc]]; [by apply H1|].
      apply list_lookup_singleton_Some in Hc as [Hc <-].
      rewrite E. symmetry. apply handled_none. intros x Hx Heq.
      apply H2 in Hx. lia.
    + intros x Hx. rewrite length_app. apply H2 in Hx. lia.
Qed.

(** The engine is about to call a failure function of [c]: the pending
    error is pushed on the history, the call enters the trace. *)
Lemma evolves_call_failure w c ch h e :
  chains w !! c = Some ch →
  evolves w (set_trace (trace w ++ [mkCall c OnFailure h [e]])
               (upd_chain c (fun ch => set_errors (_errors ch ++ [e]) ch) w)).
Proof.
  intros Hc. split; simpl.
  - by apply prefix_app_r.
  - intros c' ch' Hc'. destruct (decide (c' = c)) as [->|Hne].
    + rewrite list_lookup_alter_eq, Hc'. eexists. split; [done|]. simpl.
      split; [by apply prefix_app_r | done].
    + exists ch'. by rewrite list_lookup_alter_ne.
  - intros [H1 H2]. split; simpl.
    + intros c' ch'. rewrite handled_app, handled_cons. simpl.
      destruct (decide (c = c')) as [<-|Hne].
      * rewrite list_lookup_alter_eq, Hc. intros [= <-]. simpl.
        by rewrite (H1 c ch Hc).
      * rewrite list_lookup_alter_ne by done. rewrite app_nil_r. apply H1.
    + intros x. rewrite length_alter, elem_of_app, list_elem_of_singleton.
      intros [Hx | ->]; [by apply H2|]. simpl. by eapply lookup_lt_Some.
Qed.

(** The engine is about to call a success function of [c]. *)
Lemma evolves_call_success w c h args :
  c < length (chains w) →
  evolves w (set_trace (trace w ++ [mkCall c OnSuccess h args]) w).
Proof.
  intros Hc. split; simpl.
  - by apply prefix_app_r.
  - intros c' ch' Hc'. by exists ch'.
  - intros [H1 H2]. split; simpl.
    + intros c' ch' Hc'. rewrite handled_app, handled_cons. simpl.
      rewrite app_nil_r. by apply H1.
    + intros x. rewrite elem_of_app, list_elem_of_singleton.
      intros [Hx | ->]; [by apply H2|]. done.
Qed.

(** [evolves w w'] for a [w'] built from [w] by updates that keep the
    histories and the trace. *)
Ltac ev :=
  lazymatch goal with
  | |- evolves ?w ?w => apply evolves_refl
  | |- evolves ?w (store (Ok ?w1)) => change (evolves w w1); ev
  | |- evolves ?w (store (Raise ?w1 _)) => change (evolves w w1); ev
  | |- evolves ?w (upd_ctx _ _ ?w1) =>
    apply (evolves_trans w w1); [ev | apply evolves_same; reflexivity]
  | |- evolves ?w (upd_join _ _ ?w1) =>
    apply (evolves_trans w w1); [ev | apply evolves_same; reflexivity]
  | |- evolves ?w (set_ctxs _ ?w1) =>
    apply (evolves_trans w w1); [ev | apply evolves_same; reflexivity]
  | |- evolves ?w (set_joins _ ?w1) =>
    apply (evolves_trans w w1); [ev | apply evolves_same; reflexivity]
  | |- evolves ?w (set_ticks _ ?w1) =>
    apply (evolves_trans w w1); [ev | apply evolves_same; reflexivity]
  | |- evolves ?w (set_registered _ ?w1) =>
    apply (evolves_trans w w1); [ev | apply evolves_same; reflexivity]
  | |- evolves ?w (set_chains (chains ?w1 ++ [_]) ?w1) =>
    apply (evolves_trans w w1); [ev | apply evolves_alloc; reflexivity]
  | |- evolves ?w (upd_chain _ _ ?w1) =>
    apply (evolves_trans w w1);
    [ev | apply evolves_upd_chain; intros ? ?; split;
          [reflexivity | simpl; congruence]]
  | |- evolves ?w (if ?b then _ else _) => destruct b; ev
  | H : evolves ?w ?w1 |- evolves ?w ?w1 => exact H
  end.

(** The store a sequence of two calls leaves, from what each leaves. *)
Lemma and_then_evolves w m k r :
  and_then m k = Some r →
  (∀ r1, m = Some r1 → evolves w (store r1)) →
  (∀ w1 r2, k w1 = Some r2 → evolves w1 (store r2)) →
  evolves w (store r).
Proof.
  intros H Hm Hk. destruct m as [[w1|w1 e]|]; simpl in H; [| |done].
  - eapply evolves_trans; [exact (Hm _ eq_refl)|]. by apply Hk.
  - simplify_eq. exact (Hm _ eq_refl).
Qed.

Lemma ends_evolves w m out w' o :
  ends m out = Some (w', o) →
  (∀ r1, m = Some r1 → evolves w (store r1)) →
  evolves w w'.
Proof.
  intros H Hm. destruct m as [[w1|w1 e]|]; simpl in H; simplify_eq;
    exact (Hm _ eq_refl).
Qed.

Section Preservation.

Variable rec : World → nat → list Val → option Res.
Hypothesis rec_evolves :
  ∀ w c args r, rec w c args = Some r → evolves w (store r).

Lemma _chain_evolves w c fb eb nh prepend :
  evolves w (_chain w c fb eb nh prepend).
Proof.
  unfold _chain. destruct (_ || _); [|ev]. destruct prepend; ev.
Qed.

Lemma ctx_delay_evolves w k r : ctx_delay w k = Some r → evolves w (store r).
Proof.
  unfold ctx_delay. intros H.
  destruct (ctxs w !! k) as [cx|]; simpl in H; [|done].
  destruct (skip cx); simplify_eq; ev.
Qed.

Lemma ctx_next_evolves w k args r :
  ctx_next rec w k args = Some r → evolves w (store r).
Proof.
  unfold ctx_next. intros H.
  destruct (ctxs w !! k) as [cx|]; simpl in H; [|done].
  destruct (nextOnce cx); simplify_eq; [ev|].
  apply rec_evolves in H. eapply evolves_trans; [|exact H]. ev.
Qed.

Lemma ctx_chain_evolves w k fb eb nh r :
  ctx_chain w k fb eb nh = Some r → evolves w (store r).
Proof.
  unfold ctx_chain. intros H.
  destruct (ctxs w !! k) as [cx|]; simpl in H; [|done]. simplify_eq.
  apply _chain_evolves.
Qed.

Lemma ctx_reject_evolves w k args r :
  ctx_reject rec w k args = Some r → evolves w (store r).
Proof.
  unfold ctx_reject. intros H.
  destruct (ctxs w !! k) as [cx|]; simpl in H; [|done].
  apply ctx_next_evolves in H. eapply evolves_trans; [|exact H]. ev.
Qed.

Lemma run_cmd_evolves w k cmd r :
  run_cmd rec w k cmd = Some r → evolves w (store r).
Proof.
  destruct cmd; simpl;
    eauto using ctx_delay_evolves, ctx_next_evolves, ctx_reject_evolves,
      ctx_chain_evolves.
Qed.

Lemma run_cmds_evolves cmds : ∀ w k r,
  run_cmds rec w k cmds = Some r → evolves w (store r).
Proof.
  induction cmds as [|cmd cmds IH]; intros w k r H; simpl in H.
  - simplify_eq. ev.
  - eapply and_then_evolves;
      [exact H | intros r1; apply run_cmd_evolves | intros w1 r2; apply IH].
Qed.

Lemma Chain_resolve_evolves w c r :
  Chain_resolve rec w c = Some r → evolves w (store r).
Proof.
  unfold Chain_resolve. intros H.
  destruct (chains w !! c) as [ch|] eqn:Hc; simpl in H; [|done].
  destruct (_ || _); simplify_eq; [ev|].
  destruct (_immediate ch) eqn:Hi; simpl in H.
  - apply rec_evolves in H. eapply evolves_trans; [|exact H].
    eapply evolves_trans; [|apply evolves_upd_chain].
    + ev.
    + simpl. intros ch'. rewrite list_lookup_alter_eq, Hc. intros [= <-].
      simpl. split; [done | congruence].
  - simplify_eq. ev.
Qed.

Lemma Chain_chain_evolves w c fb eb nh r :
  Chain_chain rec w c fb eb nh = Some r → evolves w (store r).
Proof.
  unfold Chain_chain. intros H. apply Chain_resolve_evolves in H.
  eapply evolves_trans; [|exact H]. apply _chain_evolves.
Qed.

Lemma whenDone_evolves w j r : whenDone rec w j = Some r → evolves w (store r).
Proof.
  unfold whenDone. intros H.
  destruct (joins w !! j) as [jn|]; simpl in H; [|done].
  destruct (_ =? _); simplify_eq; [|ev].
  destruct (ctx jn) as [k|]; simplify_eq; [|ev].
  destruct (errResults jn); eauto using ctx_reject_evolves, ctx_next_evolves.
Qed.

(** The [this.reject(err)] that ends two of the closures. *)
Lemma reject_on_this_evolves (isC : bool) this err w r :
  (if isC then
     match this with
     | Some k => ctx_reject rec w k [err]
     | None => Some (Raise w TypeError)
     end
   else Some (Ok w)) = Some r →
  evolves w (store r).
Proof.
  destruct isC; [|intros; simplify_eq; ev].
  destruct this; [apply ctx_reject_evolves | intros; simplify_eq; ev].
Qed.

Lemma run_handler_evolves w this h args w' out :
  run_handler rec w this h args = Some (w', out) → evolves w w'.
Proof.
  intros H. destruct h; simpl in H.
  - destruct (body args) as [cmds o]. destruct this as [k|]; simplify_eq; [|ev].
    eapply ends_evolves; [exact H|]. apply run_cmds_evolves.
  - destruct this as [k0|]; simplify_eq; [|ev].
    eapply ends_evolves; [exact H|]. intros r1 H1.
    eapply and_then_evolves; [exact H1 | apply ctx_delay_evolves |].
    intros; cbv beta in *; simplify_eq; ev.
  - destruct (joins w !! j) as [jn|]; simpl in H; [|done].
    destruct (default false _); simplify_eq; [ev|].
    destruct (whenDone _ _ _) as [[w1|w1 e]|] eqn:H1; [| |done].
    + apply whenDone_evolves in H1.
      destruct (joins w1 !! j); simpl in H; [|done]. simplify_eq.
      eapply evolves_trans; [|exact H1]. ev.
    + apply whenDone_evolves in H1. simplify_eq.
      eapply evolves_trans; [|exact H1]. ev.
  - destruct (joins w !! j) as [jn|]; simpl in H; [|done].
    destruct (default false _); simplify_eq; [ev|].
    eapply (evolves_trans _ (upd_join j (settled k None (Some (hd VUndef args))) w));
      [ev|].
    eapply ends_evolves; [exact H|]. intros r1 H1.
    eapply and_then_evolves; [exact H1 | apply whenDone_evolves |].
    apply reject_on_this_evolves.
  - destruct args as [|a [|b args]].
    + destruct this as [k0|]; simplify_eq; [|ev].
      eapply ends_evolves; [exact H|]. apply ctx_next_evolves.
    + destruct (isArray a); simplify_eq; [|ev].
      destruct this as [k0|]; simplify_eq; [|ev].
      eapply ends_evolves; [exact H|]. apply ctx_next_evolves.
    + destruct this as [k0|]; simplify_eq; [|ev].
      eapply ends_evolves; [exact H|]. apply ctx_next_evolves.
  - destruct this as [k0|]; simplify_eq; [|ev].
    eapply ends_evolves; [exact H|]. apply ctx_reject_evolves.
  - eapply (evolves_trans _ (upd_chain c (set_paused false) w)); [ev|].
    eapply ends_evolves; [exact H|]. apply rec_evolves.
  - eapply (evolves_trans _
              (upd_chain c (λ ch, set_error (hd VUndef args) (set_paused false ch)) w));
      [ev|].
    eapply ends_evolves; [exact H|]. intros r1 H1.
    eapply and_then_evolves; [exact H1 | apply rec_evolves |].
    apply reject_on_this_evolves.
Qed.

Lemma settle_evolves w c k value r :
  settle rec w c k value = Some r → evolves w (store r).
Proof.
  unfold settle. intros H.
  destruct (ctxs w !! k) as [cx|]; simpl in H; [|done].
  destruct (chains w !! c) as [ch|]; simpl in H; [|done].
  destruct (_ || _); [by eapply rec_evolves|].
  eapply and_then_evolves; [exact H | |].
  - intros r1 H1.
    destruct value;
      try (apply rec_evolves in H1; eapply evolves_trans; [|exact H1]; ev).
    + apply Chain_chain_evolves in H1. eapply evolves_trans; [|exact H1]. ev.
    + simplify_eq. ev.
  - intros w1 r2 H2. cbv beta in H2.
    destruct (chains w1 !! c); simpl in H2; [|done]. simplify_eq. ev.
Qed.

Lemma resolve_body_evolves w c args r :
  resolve_body rec w c args = Some r → evolves w (store r).
Proof.
  unfold resolve_body. intros H.
  destruct (chains w !! c) as [ch|] eqn:Hc; simpl in H; [|done].
  set (w0 := if length args =? 0 then w else upd_chain c (set_value (VArr args)) w) in *.
  assert (evolves w w0) as Hw0 by (subst w0; ev).
  assert (chains w0 !! c = Some (if length args =? 0 then ch else set_value (VArr args) ch)) as Hc0.
  { subst w0. destruct (length args =? 0); [done|]. simpl.
    by rewrite list_lookup_alter_eq, Hc. }
  clearbody w0.
  destruct (length (_pending ch) =? 0); simplify_eq.
  { ev. }
  destruct (_paused ch); simplify_eq; [ev|].
  destruct (_unPending ch ++ _pending ch) as [|fns rest]; [done|].
  set (w1 := upd_chain c _ w0) in *.
  assert (evolves w w1) as Hw1 by (subst w1; ev).
  assert (∃ ch1, chains w1 !! c = Some ch1) as [ch1 Hc1].
  { subst w1. simpl. rewrite list_lookup_alter_eq, Hc0. by eexists. }
  clearbody w1.
  destruct (negb _); [apply rec_evolves in H; by eapply evolves_trans|].
  set (w2 := set_ctxs _ w1) in *.
  assert (evolves w w2) as Hw2 by (subst w2; ev).
  assert (chains w2 !! c = Some ch1) as Hc2 by (by subst w2).
  clearbody w2.
  destruct (negb (is_undefined (_error ch))).
  - destruct (errback fns) as [h|]; [|apply rec_evolves in H; by eapply evolves_trans].
    unfold call in H.
    match type of H with (?m ≫= _) = _ => destruct m as [[w3 out]|] eqn:H3 end;
      simpl in H; [|done].
    apply run_handler_evolves in H3.
    assert (evolves w w3) as Hw3.
    { eapply evolves_trans; [exact Hw2|]. eapply evolves_trans; [|exact H3].
      by apply (evolves_call_failure w2 c ch1 h (_error ch)). }
    destruct out as [val|e]; apply settle_evolves in H;
      (eapply evolves_trans; [|exact H]); ev.
  - destruct (fallback fns) as [h|]; [|apply rec_evolves in H; by eapply evolves_trans].
    unfold call in H.
    match type of H with (?m ≫= _) = _ => destruct m as [[w3 out]|] eqn:H3 end;
      simpl in H; [|done].
    apply run_handler_evolves in H3.
    assert (evolves w w3) as Hw3.
    { eapply evolves_trans; [exact Hw2|]. eapply evolves_trans; [|exact H3].
      apply evolves_call_success. by eapply lookup_lt_Some. }
    destruct out as [val|e].
    + apply settle_evolves in H. by eapply evolves_trans.
    + destruct (is_nullish e); simplify_eq; [ev|].
      apply settle_evolves in H. eapply evolves_trans; [|exact H]. ev.
Qed.

End Preservation.

Lemma resolve_evolves fuel : ∀ w c args r,
  resolve fuel w c args = Some r → evolves w (store r).
Proof.
  induction fuel as [|n IH]; intros w c args r H; simpl in H; [done|].
  by eapply resolve_body_evolves.
Qed.

Section Api.

Variable fuel : nat.
Let rec := resolve fuel.
Let Hr : ∀ w c args r, rec w c args = Some r → evolves w (store r) :=
  resolve_evolves fuel.

Lemma new_Chain_evolves w value fb eb nh r :
  new_Chain rec w value fb eb nh = Some r → evolves w (store r).
Proof.
  unfold new_Chain. intros H.
  match type of H with match ?m with _ => _ end = _ => destruct m as [ch|] eqn:E end.
  - apply (Chain_chain_evolves _ Hr) in H.
    eapply evolves_trans; [|exact H]. apply evolves_alloc.
    destruct value as [| | | | | | | |[]| | |]; by simplify_eq.
  - simplify_eq. ev.
Qed.

Lemma fail_evolves w err r : fail rec w err = Some r → evolves w (store r).
Proof.
  unfold fail, start. intros H.
  eapply and_then_evolves; [exact H | apply new_Chain_evolves |].
  intros; cbv beta in *; simplify_eq; ev.
Qed.

Lemma all_loop_evolves values : ∀ w j i r,
  all_loop rec w j values i = Some r → evolves w (store r).
Proof.
  induction values as [|v values IH]; intros w j i r H; simpl in H.
  - simplify_eq. ev.
  - eapply and_then_evolves; [exact H | | intros w1 r2; apply IH].
    intros r1 H1. destruct v; simplify_eq; try ev.
    by eapply (Chain_chain_evolves _ Hr).
Qed.

Lemma all_evolves w values r : all rec w values = Some r → evolves w (store r).
Proof.
  unfold all, now, start. intros H.
  destruct (length values =? 0); [by eapply new_Chain_evolves|].
  eapply evolves_trans; [|eapply and_then_evolves; [exact H | apply new_Chain_evolves |]];
    [ev|].
  intros w1 r2 H2. cbv beta in H2.
  eapply evolves_trans; [|eapply and_then_evolves; [exact H2 | apply all_loop_evolves |]];
    [ev|].
  intros w2 r3 H3. cbv beta in H3.
  destruct (joins w2 !! _) as [jn|]; simpl in H3; [|done].
  destruct (complete _ =? _); simplify_eq; [|ev].
  by eapply (whenDone_evolves _ Hr).
Qed.

Lemma run_op_evolves w op r : run_op fuel w op = Some r → evolves w (store r).
Proof.
  destruct op; intros H; unfold run_op in H.
  - simplify_eq. by apply evolves_same.
  - exact (new_Chain_evolves _ _ _ _ _ _ H).
  - exact (new_Chain_evolves _ _ _ _ _ _ H).
  - exact (fail_evolves _ _ _ H).
  - exact (all_evolves _ _ _ H).
  - by eapply (Chain_chain_evolves _ Hr).
  - unfold Chain_spread in H.
    eapply and_then_evolves; [exact H | |]; intros *;
      apply (Chain_chain_evolves _ Hr).
  - by eapply (Chain_chain_evolves _ Hr).
  - by eapply (Chain_resolve_evolves _ Hr).
  - unfold run_tick in H. destruct (ticks w) as [|c0 rest] eqn:Ht.
    + simplify_eq. ev.
    + apply Hr in H. eapply evolves_trans; [|exact H]. ev.
  - unfold thenable_calls in H.
    destruct (registered w !! r0) as [[[t f] g]|]; simpl in H; [|done].
    destruct (run_handler _ _ _ _ _) as [[w1 o]|] eqn:H1; simpl in H; [|done].
    simplify_eq. by eapply (run_handler_evolves _ Hr).
  - by eapply (ctx_next_evolves _ Hr).
  - by eapply (ctx_reject_evolves _ Hr).
Qed.

End Api.

Lemma run_ops_evolves fuel ops : ∀ w r,
  run_ops fuel w ops = Some r → evolves w (store r).
Proof.
  induction ops as [|op ops IH]; intros w r H; simpl in H.
  - simplify_eq. ev.
  - eapply and_then_evolves; [exact H | apply run_op_evolves | apply IH].
Qed.

Lemma history_ok_init d : history_ok (init_world d).
Proof. split; [done|]. intros x Hx. by apply elem_of_nil in Hx. Qed.

Lemma reachable_history_ok w : reachable w → history_ok w.
Proof.
  intros (d & ops & fuel & r & H & <-). apply run_ops_evolves in H.
  apply (ev_history _ _ H), history_ok_init.
Qed.

(** ** The bound on the depth of calls

    A call that returns within a bound returns the same within any larger
    one: [None] only ever says that the bound was too small. *)

Lemma and_then_mono m m' k k' r :
  and_then m k = Some r →
  (∀ r1, m = Some r1 → m' = Some r1) →
  (∀ w1 r2, k w1 = Some r2 → k' w1 = Some r2) →
  and_then m' k' = Some r.
Proof.
  intros H Hm Hk. destruct m as [[w1|w1 e]|]; simpl in H; [| |done].
  - rewrite (Hm _ eq_refl). simpl. by apply Hk.
  - by rewrite (Hm _ eq_refl).
Qed.

Lemma ends_mono m m' out x :
  ends m out = Some x →
  (∀ r1, m = Some r1 → m' = Some r1) →
  ends m' out = Some x.
Proof.
  intros H Hm. destruct m as [r1|]; [|done]. by rewrite (Hm _ eq_refl).
Qed.

Section Monotone.

Variables rec rec' : World → nat → list Val → option Res.
Hypothesis rec_le : ∀ w c args r, rec w c args = Some r → rec' w c args = Some r.

Lemma ctx_next_mono w k args r :
  ctx_next rec w k args = Some r → ctx_next rec' w k args = Some r.
Proof.
  unfold ctx_next. destruct (ctxs w !! k) as [cx|]; simpl; [|done].
  destruct (nextOnce cx); [done|]. apply rec_le.
Qed.

Lemma ctx_reject_mono w k args r :
  ctx_reject rec w k args = Some r → ctx_reject rec' w k args = Some r.
Proof.
  unfold ctx_reject. destruct (ctxs w !! k) as [cx|]; simpl; [|done].
  apply ctx_next_mono.
Qed.

Lemma run_cmd_mono w k cmd r :
  run_cmd rec w k cmd = Some r → run_cmd rec' w k cmd = Some r.
Proof.
  destruct cmd; simpl; auto using ctx_next_mono, ctx_reject_mono.
Qed.

Lemma run_cmds_mono cmds : ∀ w k r,
  run_cmds rec w k cmds = Some r → run_cmds rec' w k cmds = Some r.
Proof.
  induction cmds as [|cmd cmds IH]; intros w k r H; simpl in *; [done|].
  eapply and_then_mono;
    [exact H | intros r1; apply run_cmd_mono | intros w1 r2; apply IH].
Qed.

Lemma Chain_resolve_mono w c r :
  Chain_resolve rec w c = Some r → Chain_resolve rec' w c = Some r.
Proof.
  unfold Chain_resolve. destruct (chains w !! c) as [ch|]; simpl; [|done].
  destruct (_ || _); [done|]. destruct (negb _); [done|]. apply rec_le.
Qed.

Lemma Chain_chain_mono w c fb eb nh r :
  Chain_chain rec w c fb eb nh = Some r → Chain_chain rec' w c fb eb nh = Some r.
Proof. apply Chain_resolve_mono. Qed.

Lemma whenDone_mono w j r :
  whenDone rec w j = Some r → whenDone rec' w j = Some r.
Proof.
  unfold whenDone. destruct (joins w !! j) as [jn|]; simpl; [|done].
  destruct (_ =? _); [|done]. destruct (ctx jn); [|done].
  destruct (errResults jn); auto using ctx_reject_mono, ctx_next_mono.
Qed.

Lemma reject_on_this_mono (isC : bool) this err w r :
  (if isC then
     match this with
     | Some k => ctx_reject rec w k [err]
     | None => Some (Raise w TypeError)
     end
   else Some (Ok w)) = Some r →
  (if isC then
     match this with
     | Some k => ctx_reject rec' w k [err]
     | None => Some (Raise w TypeError)
     end
   else Some (Ok w)) = Some r.
Proof. destruct isC, this; auto using ctx_reject_mono. Qed.

Lemma run_handler_mono w this h args x :
  run_handler rec w this h args = Some x →
  run_handler rec' w this h args = Some x.
Proof.
  destruct h; simpl.
  - destruct (body args) as [cmds o]. destruct this; [|done].
    intros H. eapply ends_mono; [exact H|]. intros r1. apply run_cmds_mono.
  - done.
  - destruct (joins w !! j) as [jn|]; simpl; [|done].
    destruct (default false _); [done|].
    destruct (whenDone rec _ _) as [r1|] eqn:H1; [|done].
    by rewrite (whenDone_mono _ _ _ H1).
  - destruct (joins w !! j) as [jn|]; simpl; [|done].
    destruct (default false _); [done|].
    intros H. eapply ends_mono; [exact H|]. intros r1 H1.
    eapply and_then_mono; [exact H1 | intros r2; apply whenDone_mono |].
    intros w1 r2. apply reject_on_this_mono.
  - destruct args as [|a [|b args]]; destruct this; try done.
    + intros H. eapply ends_mono; [exact H|]. intros r1. apply ctx_next_mono.
    + destruct (isArray a); [|done].
      intros H. eapply ends_mono; [exact H|]. intros r1. apply ctx_next_mono.
    + intros H. eapply ends_mono; [exact H|]. intros r1. apply ctx_next_mono.
  - destruct this; [|done].
    intros H. eapply ends_mono; [exact H|]. intros r1. apply ctx_reject_mono.
  - intros H. eapply ends_mono; [exact H|]. intros r1. apply rec_le.
  - intros H. eapply ends_mono; [exact H|]. intros r1 H1.
    eapply and_then_mono; [exact H1 | intros r2; apply rec_le |].
    intros w1 r2. apply reject_on_this_mono.
Qed.

Lemma settle_mono w c k value r :
  settle rec w c k value = Some r → settle rec' w c k value = Some r.
Proof.
  unfold settle. destruct (ctxs w !! k) as [cx|]; simpl; [|done].
  destruct (chains w !! c) as [ch|]; simpl; [|done].
  destruct (_ || _); [apply rec_le|].
  intros H. eapply and_then_mono; [exact H | | done].
  intros r1. destruct value; auto using Chain_chain_mono.
Qed.

Lemma resolve_body_mono w c args r :
  resolve_body rec w c args = Some r → resolve_body rec' w c args = Some r.
Proof.
  unfold resolve_body, call. destruct (chains w !! c) as [ch|]; simpl; [|done].
  destruct (length (_pending ch) =? 0); [done|].
  destruct (_paused ch); [done|].
  destruct (_unPending ch ++ _pending ch) as [|fns rest]; [done|].
  destruct (negb (_ || _)); [apply rec_le|].
  destruct (negb (is_undefined _)).
  - destruct (errback fns) as [h|]; [|apply rec_le].
    destruct (run_handler rec _ _ _ _) as [[w1 out]|] eqn:H1; simpl; [|done].
    rewrite (run_handler_mono _ _ _ _ _ H1). simpl.
    destruct out; apply settle_mono.
  - destruct (fallback fns) as [h|]; [|apply rec_le].
    destruct (run_handler rec _ _ _ _) as [[w1 out]|] eqn:H1; simpl; [|done].
    rewrite (run_handler_mono _ _ _ _ _ H1). simpl.
    destruct out; [apply settle_mono|].
    destruct (is_nullish e); [done | apply settle_mono].
Qed.

End Monotone.

Lemma resolve_mono n : ∀ m w c args r,
  n ≤ m → resolve n w c args = Some r → resolve m w c args = Some r.
Proof.
  induction n as [|n IH]; intros m w c args r Hle H; [done|].
  destruct m as [|m]; [lia|]. simpl in *.
  eapply resolve_body_mono; [|exact H].
  intros. eapply IH; [|done]. lia.
Qed.

Section MonotoneApi.

Variables n m : nat.
Hypothesis n_le_m : n ≤ m.

Let rec_le : ∀ w c args r,
  resolve n w c args = Some r → resolve m w c args = Some r :=
  λ w c args r, resolve_mono n m w c args r n_le_m.

Lemma new_Chain_mono w value fb eb nh r :
  new_Chain (resolve n) w value fb eb nh = Some r →
  new_Chain (resolve m) w value fb eb nh = Some r.
Proof.
  unfold new_Chain.
  match goal with |- match ?x with _ => _ end = _ → _ => destruct x end;
    [|done].
  apply (Chain_chain_mono _ _ rec_le).
Qed.

Lemma all_loop_mono values : ∀ w j i r,
  all_loop (resolve n) w j values i = Some r →
  all_loop (resolve m) w j values i = Some r.
Proof.
  induction values as [|v values IH]; intros w j i r H; simpl in *; [done|].
  eapply and_then_mono; [exact H | | intros w1 r2; apply IH].
  intros r1. destruct v; try done. apply (Chain_chain_mono _ _ rec_le).
Qed.

Lemma run_op_mono w op r :
  run_op n w op = Some r → run_op m w op = Some r.
Proof.
  destruct op; unfold run_op.
  - done.
  - apply new_Chain_mono.
  - apply new_Chain_mono.
  - unfold fail, start. intros H.
    eapply and_then_mono; [exact H | intros r1; apply new_Chain_mono | done].
  - unfold all, now, start. destruct (_ =? _); [apply new_Chain_mono|].
    intros H.
    eapply and_then_mono; [exact H | intros r1; apply new_Chain_mono |].
    intros w1 r2 H2. cbv beta in *.
    eapply and_then_mono; [exact H2 | intros r1; apply all_loop_mono |].
    intros w2 r3. cbv beta. destruct (joins w2 !! _) as [jn|]; simpl; [|done].
    destruct (_ =? _); [|done]. apply (whenDone_mono _ _ rec_le).
  - apply (Chain_chain_mono _ _ rec_le).
  - unfold Chain_spread. intros H.
    eapply and_then_mono; [exact H | |]; intros *;
      apply (Chain_chain_mono _ _ rec_le).
  - apply (Chain_chain_mono _ _ rec_le).
  - apply (Chain_resolve_mono _ _ rec_le).
  - unfold run_tick. destruct (ticks w); [done | apply rec_le].
  - unfold thenable_calls.
    destruct (registered w !! r0) as [[[t f] g]|]; simpl; [|done].
    destruct (run_handler (resolve n) _ _ _ _) as [x|] eqn:H1; [|done].
    by rewrite (run_handler_mono _ _ rec_le _ _ _ _ _ H1).
  - apply (ctx_next_mono _ _ rec_le).
  - apply (ctx_reject_mono _ _ rec_le).
Qed.

Lemma run_ops_mono ops : ∀ w r,
  run_ops n w ops = Some r → run_ops m w ops = Some r.
Proof.
  induction ops as [|op ops IH]; intros w r H; simpl in *; [done|].
  eapply and_then_mono;
    [exact H | intros r1; apply run_op_mono | intros w1 r2; apply IH].
Qed.

End MonotoneApi.

(** * The claims *)

(** Case analysis on a value, an array being empty or not. *)
Ltac cases_val v := destruct v as [ | | | | | [ | ? ? ] | | | | | | ].

(** A truthy value, case by case. *)
Ltac cases_truthy v H :=
  destruct v as [ | | [|] | [|?|?] | [|? ?] | | | | | | | ];
  try discriminate H; clear H.

(** ** Error propagation (C1) *)

(** C1 fails on the code when the failure function throws [undefined]. A
    chain (deferred or immediate, any initial value [v0], any default
    mode) with the steps [s1] (success only, throws [e], neither
    [undefined] nor [null]), [s2] (failure only, throws [undefined]) and
    [s3] (success only): [s2] is called with [e]; the [catch] around it
    stores what it threw as [_error], but [resolve] tells a pending error
    by [typeof this._error !== 'undefined'], so no error is pending
    afterwards: the search for a failure function ends and the success
    function of [s3] is called, with [undefined]. *)
Theorem thrown_undefined_is_no_error (imm d : bool) (v0 e : Val) (fuel : nat) :
  is_nullish e = false →
  let s1 := throws (λ _, e) in
  let s2 := throws (λ _, VUndef) in
  outcome 0 (run_ops (6 + fuel) (init_world d)
      [OFresh imm v0;
       OChain 0 (Some s1) None false;
       OChain 0 None (Some s2) false;
       OChain 0 (Some echo) None false;
       OTick]) =
  Some ([mkCall 0 OnSuccess s1 (to_args v0);
         mkCall 0 OnFailure s2 [e];
         mkCall 0 OnSuccess echo [VUndef]],
        mkChain false [] [] [e] (imm && d) false (VArr [VUndef]) VUndef).
Proof.
  intros He s1 s2. subst s1 s2.
  destruct imm, d; destruct e; try discriminate He; cases_val v0;
    vm_compute; reflexivity.
Qed.

(** Where the code does what C1 says: a chain (deferred or immediate, any
    initial value [v0], any default mode) with the queued steps [s1]
    (success only), [s2] (failure only), [s3] (success only), where [s1]
    throws [e], [e] neither [undefined] nor [null].
    - If [s2] returns [v], neither a chain nor a thenable: the calls are
      [s1], then [s2] once with [e], then [s3] with [v] (its elements, when
      [v] is an array); no error is pending at the end and [e] is in the
      history.
    - If [s2] throws [e2], not [undefined]: [s3] is not called and [e2] is
      pending; with a fourth step [s4] (failure only), [s4] is called
      with [e2]. *)
Theorem error_skips_to_failure_handler (imm d : bool) (v0 e : Val) (fuel : nat) :
  is_nullish e = false →
  let s1 := throws (λ _, e) in
  (∀ v, isThenable v = false →
     let s2 := returns (λ _, v) in
     outcome 0 (run_ops (6 + fuel) (init_world d)
       [OFresh imm v0;
        OChain 0 (Some s1) None false;
        OChain 0 None (Some s2) false;
        OChain 0 (Some echo) None false;
        OTick]) =
     Some ([mkCall 0 OnSuccess s1 (to_args v0);
            mkCall 0 OnFailure s2 [e];
            mkCall 0 OnSuccess echo (to_args v)],
           mkChain false [] [] [e] (imm && d) false (VArr (to_args v)) VUndef)) ∧
  (∀ e2, is_undefined e2 = false →
     let s2 := throws (λ _, e2) in
     outcome 0 (run_ops (6 + fuel) (init_world d)
       [OFresh imm v0;
        OChain 0 (Some s1) None false;
        OChain 0 None (Some s2) false;
        OChain 0 (Some echo) None false;
        OTick]) =
     Some ([mkCall 0 OnSuccess s1 (to_args v0);
            mkCall 0 OnFailure s2 [e]],
           mkChain false [] [] [e] (imm && d) false (VArr (to_args v0)) e2) ∧
     outcome 0 (run_ops (6 + fuel) (init_world d)
       [OFresh imm v0;
        OChain 0 (Some s1) None false;
        OChain 0 None (Some s2) false;
        OChain 0 (Some echo) None false;
        OChain 0 None (Some echo) false;
        OTick]) =
     Some ([mkCall 0 OnSuccess s1 (to_args v0);
            mkCall 0 OnFailure s2 [e];
            mkCall 0 OnFailure echo [e2]],
           mkChain false [] [] [e; e2] (imm && d) false (VArr [e2]) VUndef)).
Proof.
  intros He s1. subst s1. split.
  - intros v Hv s2. subst s2.
    destruct imm, d; destruct e; try discriminate He;
      cases_val v; try discriminate Hv; vm_compute; reflexivity.
  - intros e2 He2 s2. subst s2.
    destruct imm, d; destruct e; try discriminate He;
      destruct e2; try discriminate He2; cases_val v0;
      (split; vm_compute; reflexivity).
Qed.

(** ** The error history (C5) *)

(** C5, as stated, fails: [start(1, s1)] where [s1] throws ["boom"]. After
    the tick ["boom"] is the pending error of the chain and its history is
    empty: an error enters [_errors] when a failure function is called
    with it, and none was. *)
Lemma pending_error_not_in_history :
  outcome 0 (run_ops 3 (init_world false)
      [OStart (VNum 1) (Some (throws (λ _, VStr "boom"))) None; OTick]) =
  Some ([mkCall 0 OnSuccess (throws (λ _, VStr "boom")) [VNum 1]],
        mkChain false [] [] [] false false (VNum 1) (VStr "boom")).
Proof. vm_compute. reflexivity. Qed.

(** C5 (amended): after any client program, the error history of every
    chain is the list of the errors its failure functions were called
    with, in the order of those calls; and whatever runs afterwards, the
    history of then is a prefix of the later one: no entry is removed or
    changed, by recovery or otherwise. *)
Theorem error_history_is_failure_calls (d : bool) (fuel1 fuel2 : nat)
    (ops1 ops2 : list Op) (r1 r2 : Res) (c : nat) (ch1 : Chain) :
  run_ops fuel1 (init_world d) ops1 = Some r1 →
  run_ops fuel2 (store r1) ops2 = Some r2 →
  chains (store r1) !! c = Some ch1 →
  _errors ch1 = handled c (trace (store r1)) ∧
  ∃ ch2, chains (store r2) !! c = Some ch2 ∧
         _errors ch1 `prefix_of` _errors ch2 ∧
         _errors ch2 = handled c (trace (store r2)).
Proof.
  intros H1 H2 Hc.
  apply run_ops_evolves in H1, H2.
  pose proof (ev_history _ _ H1 (history_ok_init d)) as Hh1.
  pose proof (ev_history _ _ H2 Hh1) as Hh2.
  split; [by apply Hh1|].
  destruct (ev_chain _ _ H2 c ch1 Hc) as (ch2 & Hc2 & Hp & _).
  exists ch2. split_and!; [done | done | by apply Hh2].
Qed.

(** ** Scheduling (C3, C8) *)

(** C3, as stated, fails: with the module's default set to immediate, a
    chain created with [TICK] and one step. Its first drain is deferred;
    after the tick has run it the chain's [_immediate] is still false, not
    the default. *)
Lemma deferred_chain_is_not_reset :
  (r ← run_ops 3 (init_world true)
         [OStart (VSentinel TICK) None None;
          OChain 0 (Some echo) None false;
          OTick];
   ch ← chains (store r) !! 0;
   Some (trace (store r), default_immediate (store r), _immediate ch)) =
  Some ([mkCall 0 OnSuccess echo [VUndef]], true, false).
Proof. vm_compute. reflexivity. Qed.

(** C3 (amended): [resolve] on a chain with a non-empty queue and no
    resolution in progress.
    - [_immediate] false: the call only marks the chain as resolving and
      queues the drain for the next tick; it calls no function and leaves
      [_immediate] false, and [_immediate] stays false whatever runs later,
      the deferred drain included: it is not reset to the default.
    - [_immediate] true: [_immediate] is set to the module's default and
      the drain runs within the call. *)
Theorem resolve_defers_or_resets (fuel : nat) (w : World) (c : nat) (ch : Chain) :
  chains w !! c = Some ch → _pending ch ≠ [] → _resolving ch = false →
  if _immediate ch then
    Chain_resolve (resolve fuel) w c =
    resolve fuel
      (upd_chain c (set_immediate (default_immediate w))
         (upd_chain c (set_resolving true) w)) c []
  else
    let w1 := set_ticks (ticks w ++ [c]) (upd_chain c (set_resolving true) w) in
    Chain_resolve (resolve fuel) w c = Some (Ok w1) ∧
    trace w1 = trace w ∧
    ∀ fuel' ops r2, run_ops fuel' w1 ops = Some r2 →
      ∃ ch2, chains (store r2) !! c = Some ch2 ∧ _immediate ch2 = false.
Proof.
  intros Hc Hp Hr. unfold Chain_resolve. rewrite Hc. simpl.
  destruct (_pending ch) as [|s p] eqn:Hq; [done|]. simpl. rewrite Hr. simpl.
  destruct (_immediate ch) eqn:Hi; simpl; [done|].
  split_and!; [done | done |].
  intros fuel' ops r2 H2. apply run_ops_evolves in H2.
  destruct (ev_chain _ _ H2 c (set_resolving true ch)) as (ch2 & Hc2 & _ & Hi2).
  { simpl. by rewrite list_lookup_alter_eq, Hc. }
  exists ch2. split; [done|]. by apply Hi2.
Qed.

(** C8: attaching a step with [chain] to a chain whose [_immediate] is
    false calls no function within the call, whatever the state of the
    chain and of the store; on a chain in immediate mode the attached
    function may be called within the call: on a new immediate chain of
    value [v], [chain(echo)] calls [echo] with [v] before it returns. *)
Theorem deferred_chain_calls_nothing (fuel : nat) (w : World) (c : nat)
    (ch : Chain) (fb eb : option Handler) (nh : bool) :
  chains w !! c = Some ch → _immediate ch = false →
  (∃ w', Chain_chain (resolve fuel) w c fb eb nh = Some (Ok w') ∧
         trace w' = trace w) ∧
  (∀ d v n,
     outcome 0 (run_ops (2 + n) (init_world d)
                  [OFresh true v; OChain 0 (Some echo) None false]) =
     Some ([mkCall 0 OnSuccess echo (to_args v)],
           mkChain false [] [] [] d false (VArr (to_args v)) VUndef)).
Proof.
  intros Hc Hi. split.
  - unfold Chain_chain, Chain_resolve, _chain.
    destruct (is_function fb || is_function eb); simpl.
    + rewrite list_lookup_alter_eq, Hc. simpl.
      destruct (_ || _); [by eexists|]. rewrite Hi. simpl. by eexists.
    + rewrite Hc. simpl.
      destruct (_ || _); [by eexists|]. rewrite Hi. simpl. by eexists.
  - intros d v n. destruct d; cases_val v; vm_compute; reflexivity.
Qed.

(** ** The context's [next] and [reject] (C4, C10) *)

(** C4: a call of [next] (or [resume]) on a context whose [next] has been
    honoured returns at once and changes nothing: no chain, no queue, no
    value, and no function is called. And the first call is the one
    honoured: a function that calls [next] with [x, a1...] and then [next]
    with [a2...] carries [x, a1...] to the step after it, which is called
    with these arguments; they are the value of the chain. *)
Theorem next_is_honoured_once (fuel : nat) (w : World) (k : nat) (cx : Ctx)
    (args : list Val) :
  ctxs w !! k = Some cx → nextOnce cx = true →
  ctx_next (resolve fuel) w k args = Some (Ok w) ∧
  (∀ imm d v0 x a1 a2 n,
     let twice := HUser (λ _, ([CNext (x :: a1); CNext a2], Return VUndef)) in
     outcome 0 (run_ops (4 + n) (init_world d)
       [OFresh imm v0;
        OChain 0 (Some twice) None false;
        OChain 0 (Some echo) None false;
        OTick]) =
     Some ([mkCall 0 OnSuccess twice (to_args v0);
            mkCall 0 OnSuccess echo (x :: a1)],
           mkChain false [] [] [] (imm && d) false (VArr (x :: a1)) VUndef)).
Proof.
  intros Hk Ho. split.
  - unfold ctx_next. rewrite Hk. simpl. by rewrite Ho.
  - intros imm d v0 x a1 a2 n twice. subst twice.
    destruct imm, d; vm_compute; reflexivity.
Qed.


(** ** The value handed to the next step (C7, C9) *)

(** C7: [spread] on a chain that carries the arguments [x, y, l...] (two or
    more), the single array [[x, l...]], or the single value [v] that is
    not an array ([v] neither [undefined] nor a chain or a thenable): the
    step queued by [spread] after its own is called with [x, y, l...],
    with [x, l...], and with [v]. For 1, 2, 3 and 5 these are the cases
    of the claim. *)
Theorem spread_forwards_arguments (imm d : bool) (n : nat) :
  (∀ x y l,
     outcome 0 (run_ops (4 + n) (init_world d)
       [OFresh imm (VArr (x :: y :: l));
        OSpread 0 (Some echo) None false; OTick]) =
     Some ([mkCall 0 OnSuccess HSpread (x :: y :: l);
            mkCall 0 OnSuccess echo (x :: y :: l)],
           mkChain false [] [] [] (imm && d) false (VArr (x :: y :: l)) VUndef)) ∧
  (∀ x l,
     outcome 0 (run_ops (4 + n) (init_world d)
       [OFresh imm (VArr [VArr (x :: l)]);
        OSpread 0 (Some echo) None false; OTick]) =
     Some ([mkCall 0 OnSuccess HSpread [VArr (x :: l)];
            mkCall 0 OnSuccess echo (x :: l)],
           mkChain false [] [] [] (imm && d) false (VArr (x :: l)) VUndef)) ∧
  (∀ v,
     isArray v = false → is_undefined v = false → isThenable v = false →
     outcome 0 (run_ops (4 + n) (init_world d)
       [OFresh imm v;
        OSpread 0 (Some echo) None false; OTick]) =
     Some ([mkCall 0 OnSuccess HSpread [v];
            mkCall 0 OnSuccess echo [v]],
           mkChain false [] [] [] (imm && d) false (VArr [v]) VUndef)).
Proof.
  split_and!.
  - intros x y l. destruct imm, d; vm_compute; reflexivity.
  - intros x l. destruct imm, d; vm_compute; reflexivity.
  - intros v Ha Hu Ht.
    destruct imm, d; destruct v; try discriminate; vm_compute; reflexivity.
Qed.

(** C9 fails on the code: a chain of value [v0] with the steps [s1], which
    returns [undefined], and [echo]. [echo] is called with no argument, not
    with [v0]: the [undefined] returned is turned into [[]], which is stored
    as the value of the chain before the next step takes its arguments
    from it. *)
Lemma undefined_return_drops_value (imm d : bool) (v0 : Val) (n : nat) :
  let s1 := returns (λ _, VUndef) in
  outcome 0 (run_ops (4 + n) (init_world d)
    [OFresh imm v0;
     OChain 0 (Some s1) None false;
     OChain 0 (Some echo) None false;
     OTick]) =
  Some ([mkCall 0 OnSuccess s1 (to_args v0);
         mkCall 0 OnSuccess echo []],
        mkChain false [] [] [] (imm && d) false (VArr []) VUndef).
Proof. intros s1. subst s1. destruct imm, d; vm_compute; reflexivity. Qed.

(** ** [all] (C2, C6) *)

(** C6, as stated, fails for the empty array: [all([])] is [now()], a
    chain whose value is [undefined], and a function attached to it is
    called with the one argument [undefined]. An empty result, as [all]
    hands on results, would be the one argument [[]]: [all([1])] hands on
    the one argument [[1]], the array of the results. *)
Lemma all_of_nothing_is_undefined :
  outcome 0 (run_ops 2 (init_world false) [OAll []]) =
    Some ([], mkChain false [] [] [] true false VUndef VUndef) ∧
  outcome 0 (run_ops 2 (init_world false)
               [OAll []; OChain 0 (Some echo) None false]) =
    Some ([mkCall 0 OnSuccess echo [VUndef]],
          mkChain false [] [] [] false false (VArr [VUndef]) VUndef) ∧
  outcome 0 (run_ops 3 (init_world false)
               [OAll [VNum 1]; OChain 0 (Some echo) None false; OTick]) =
    Some ([mkCall 0 OnSuccess (HAllStart 0) [VUndef];
           mkCall 0 OnSuccess echo [VArr [VNum 1]]],
          mkChain false [] [] [] false false (VArr [VArr [VNum 1]]) VUndef).
Proof. split_and!; vm_compute; reflexivity. Qed.

(** C6 (amended): [all([])] returns a new immediate chain that is settled:
    nothing queued, nothing pending, not paused, and its value is
    [undefined], not an empty array of results; a function attached to it
    is called at once, with the one argument [undefined].
    [all([1, 2, Chain.now(3)])] returns a chain whose value is the one
    argument [[1, 2, 3]]: a function attached to it is called with the
    array [[1, 2, 3]]. *)
Theorem all_of_no_and_of_settled_values (d : bool) (n : nat) :
  outcome 0 (run_ops (2 + n) (init_world d) [OAll []]) =
    Some ([], mkChain false [] [] [] true false VUndef VUndef) ∧
  outcome 0 (run_ops (2 + n) (init_world d)
               [OAll []; OChain 0 (Some echo) None false]) =
    Some ([mkCall 0 OnSuccess echo [VUndef]],
          mkChain false [] [] [] d false (VArr [VUndef]) VUndef) ∧
  outcome 1 (run_ops (3 + n) (init_world d)
               [ONow (VNum 3) None None;
                OAll [VNum 1; VNum 2; VChain 0]]) =
    Some ([mkCall 1 OnSuccess (HAllStart 0) [VUndef];
           mkCall 0 OnSuccess (HAllOk 0 2 true) [VNum 3]],
          mkChain false [] [] [] d false
            (VArr [VArr [VNum 1; VNum 2; VNum 3]]) VUndef) ∧
  outcome 1 (run_ops (3 + n) (init_world d)
               [ONow (VNum 3) None None;
                OAll [VNum 1; VNum 2; VChain 0];
                OChain 1 (Some echo) None false;
                OTick]) =
    Some ([mkCall 1 OnSuccess (HAllStart 0) [VUndef];
           mkCall 0 OnSuccess (HAllOk 0 2 true) [VNum 3];
           mkCall 1 OnSuccess echo [VArr [VNum 1; VNum 2; VNum 3]]],
          mkChain false [] [] [] d false
            (VArr [VArr [VNum 1; VNum 2; VNum 3]]) VUndef).
Proof. destruct d; split_and!; vm_compute; reflexivity. Qed.

(** C2 fails on the code: [all([Chain.now(1), fail("boom")])], and a
    failure function attached to the chain it returns. When both entries
    have settled the closure of [all] holds the first error ["boom"] and
    the error array [[undefined, "boom"]], and hands both to the
    context's [reject]; [reject(reason)] reads the first only. The failure
    function is called with ["boom"] alone, and no field of the chain
    holds the array. *)
Lemma all_rejects_without_error_list (d : bool) (n : nat) :
  let r := run_ops (4 + n) (init_world d)
             [ONow (VNum 1) None None;
              OFail (VStr "boom");
              OAll [VChain 0; VChain 1];
              OTick;
              OChain 2 None (Some echo) false;
              OTick] in
  outcome 2 r =
    Some ([mkCall 2 OnSuccess (HAllStart 0) [VUndef];
           mkCall 0 OnSuccess (HAllOk 0 0 true) [VNum 1];
           mkCall 1 OnFailure (HAllErr 0 1 true) [VStr "boom"];
           mkCall 2 OnFailure echo [VStr "boom"]],
          mkChain false [] [] [VStr "boom"] d false (VArr [VStr "boom"]) VUndef) ∧
  (r ← r; jn ← joins (store r) !! 0;
   Some (firstErr jn, errResults jn, complete jn)) =
    Some (VStr "boom", Some [VUndef; VStr "boom"], 2).
Proof. intros r. subst r. destruct d; split; vm_compute; reflexivity. Qed.

(** ** More on [all] and on thrown values *)

(** [all([t0, 7, t1])] for two foreign thenables, with a step attached to
    the chain it returns. While one of the thenables has not called back
    the chain is paused and the step has not run, whichever called back
    first; once both have, the step is called with the one argument
    [[a, 7, b]], [a] and [b] being what [t0] and [t1] delivered: the
    results stand in the order of the entries, not of the callbacks. *)
Theorem all_waits_and_keeps_index_order (d t0_first : bool) (a b : Val) (n : nat) :
  let attach := [OAll [VThenable 0; VNum 7; VThenable 1];
                 OChain 0 (Some echo) None false; OTick] in
  let call0 := OThenable 0 true [a] in
  let call1 := OThenable 1 true [b] in
  outcome 0 (run_ops (4 + n) (init_world d)
               (attach ++ [if t0_first then call0 else call1; OTick])) =
    Some ([mkCall 0 OnSuccess (HAllStart 0) [VUndef]],
          mkChain true [mkStep (Some echo) None false] [] [] d true
            VUndef VUndef) ∧
  outcome 0 (run_ops (4 + n) (init_world d)
               (attach ++ (if t0_first then [call0; call1] else [call1; call0]))) =
    Some ([mkCall 0 OnSuccess (HAllStart 0) [VUndef];
           mkCall 0 OnSuccess echo [VArr [a; VNum 7; b]]],
          mkChain false [] [] [] d false (VArr [VArr [a; VNum 7; b]]) VUndef).
Proof.
  intros attach call0 call1. subst attach call0 call1.
  destruct d, t0_first; split; vm_compute; reflexivity.
Qed.

(** [all([t0, 7, t1])] when [t1] fails with [y] and then [t0] fails with
    [x], [y] truthy: the chain rejects once both have called back, with
    the error that came first in time, [y]. *)
Theorem all_rejects_with_first_error (d : bool) (x y : Val) (n : nat) :
  truthy y = true →
  let attach := [OAll [VThenable 0; VNum 7; VThenable 1];
                 OChain 0 None (Some echo) false; OTick] in
  outcome 0 (run_ops (4 + n) (init_world d)
               (attach ++ [OThenable 1 false [y]; OTick])) =
    Some ([mkCall 0 OnSuccess (HAllStart 0) [VUndef]],
          mkChain true [mkStep None (Some echo) false] [] [] d true
            VUndef VUndef) ∧
  outcome 0 (run_ops (4 + n) (init_world d)
               (attach ++ [OThenable 1 false [y]; OThenable 0 false [x]])) =
    Some ([mkCall 0 OnSuccess (HAllStart 0) [VUndef];
           mkCall 0 OnFailure echo [y]],
          mkChain false [] [] [y] d false (VArr [y]) VUndef).
Proof.
  intros Hy attach. subst attach.
  destruct d; cases_truthy y Hy; split; vm_compute; reflexivity.
Qed.


(** * Beyond the claims *)

(** The last element of a list, the one a creation has just added. *)
Lemma lookup_snoc {A} (l : list A) (x : A) : (l ++ [x]) !! length l = Some x.
Proof. by apply list_lookup_middle. Qed.

Lemma alter_snoc {A} (f : A → A) (l : list A) (x : A) :
  alter f (length l) (l ++ [x]) = l ++ [f x].
Proof. induction l as [|y l IH]; [done|]. cbn. by f_equal. Qed.

(** ** [fin], [reject] and the steps a function queues *)

(** [fin(f)] queues [f] as success and as failure function. On a chain
    with the error [e] pending ([s1] threw it), [f] is called with [e] and,
    when it returns, the error is gone: the step behind runs its success
    function, with what [f] returned (with [undefined] when it returned
    nothing). With no error pending [f] is called with the value of the
    chain and what it returns is handed on, as for any success function. *)
Theorem fin_clears_the_error (imm d : bool) (v0 e v : Val) (n : nat) :
  is_nullish e = false → isThenable v = false →
  let s1 := throws (λ _, e) in
  let f := returns (λ _, v) in
  outcome 0 (run_ops (5 + n) (init_world d)
    [OFresh imm v0;
     OChain 0 (Some s1) None false;
     OFin 0 (Some f) false;
     OChain 0 (Some echo) (Some echo) false;
     OTick]) =
  Some ([mkCall 0 OnSuccess s1 (to_args v0);
         mkCall 0 OnFailure f [e];
         mkCall 0 OnSuccess echo (recovered_with v)],
        mkChain false [] [] [e] (imm && d) false (VArr (recovered_with v)) VUndef) ∧
  outcome 0 (run_ops (5 + n) (init_world d)
    [OFresh imm v0;
     OFin 0 (Some f) false;
     OChain 0 (Some echo) (Some echo) false;
     OTick]) =
  Some ([mkCall 0 OnSuccess f (to_args v0);
         mkCall 0 OnSuccess echo (passed_on v)],
        mkChain false [] [] [] (imm && d) false (VArr (passed_on v)) VUndef).
Proof.
  intros He Hv s1 f. subst s1 f.
  destruct imm, d; destruct e; try discriminate He;
    cases_val v; try discriminate Hv; split; vm_compute; reflexivity.
Qed.

(** [Chain.prototype.reject(reason)] queues a step that rejects when it
    is reached, as a success function. On a chain with no error pending
    the failure function of the step behind is called with [reason] (with
    a new [Error] when [reason] is falsy). On a chain with an error
    pending the step is skipped as every success function is: the error
    stays what it was, and [reason] is never seen. *)
Theorem reject_is_a_queued_step (imm d : bool) (v0 reason e : Val) (n : nat) :
  truthy e = true →
  let err := if truthy reason then reason else VError "No reason given" in
  outcome 0 (run_ops (5 + n) (init_world d)
    [OFresh imm v0;
     OReject 0 reason;
     OChain 0 (Some echo) (Some echo) false;
     OTick]) =
  Some ([mkCall 0 OnSuccess (HReject reason) (to_args v0);
         mkCall 0 OnFailure echo [err]],
        mkChain false [] [] [err] (imm && d) false (VArr [err]) VUndef) ∧
  outcome 0 (run_ops (5 + n) (init_world d)
    [OFail e;
     OReject 0 reason;
     OChain 0 (Some echo) (Some echo) false;
     OTick]) =
  Some ([mkCall 0 OnFailure echo [e]],
        mkChain false [] [] [e] d false (VArr [e]) VUndef).
Proof.
  intros He err. subst err.
  destruct imm, d; cases_truthy e He;
    destruct reason as [ | | [|] | [|?|?] | [|? ?] | | | | | | | ];
    split; vm_compute; reflexivity.
Qed.

(** A function that queues steps through its context ([this.chain],
    [this.fail]) puts them in front of the steps already queued on the
    chain, in the order of its calls: here [s1] queues [sa], then [sb],
    and [echo] was queued on the chain before [s1] ran. The calls are
    [s1], [sa], [sb], [echo]; each is handed what the one before
    returned. *)
Theorem context_steps_run_first (d : bool) (v0 v a b : Val) (n : nat) :
  isThenable v = false → isThenable a = false → isThenable b = false →
  let sa := returns (λ _, a) in
  let sb := returns (λ _, b) in
  let s1 := HUser (λ _, ([CChain (Some sa) None false;
                          CChain (Some sb) None false], Return v)) in
  outcome 0 (run_ops (6 + n) (init_world d)
    [OFresh false v0;
     OChain 0 (Some s1) None false;
     OChain 0 (Some echo) None false;
     OTick]) =
  Some ([mkCall 0 OnSuccess s1 (to_args v0);
         mkCall 0 OnSuccess sa (passed_on v);
         mkCall 0 OnSuccess sb (passed_on a);
         mkCall 0 OnSuccess echo (passed_on b)],
        mkChain false [] [] [] false false (VArr (passed_on b)) VUndef).
Proof.
  intros Hv Ha Hb sa sb s1. subst sa sb s1.
  destruct d; cases_val v; try discriminate Hv;
    cases_val a; try discriminate Ha;
    cases_val b; try discriminate Hb; vm_compute; reflexivity.
Qed.
(** [spread] on a chain that carries nothing to spread. A chain whose
    value is the one argument [[]] (an empty array): the function of
    [spread] is called with the empty array as its one argument, not with
    no argument. A chain whose value is [undefined], and one that carries
    no argument: the function is called with no argument. *)
Theorem spread_of_nothing (imm d : bool) (n : nat) :
  outcome 0 (run_ops (4 + n) (init_world d)
    [OFresh imm (VArr [VArr []]); OSpread 0 (Some echo) None false; OTick]) =
    Some ([mkCall 0 OnSuccess HSpread [VArr []];
           mkCall 0 OnSuccess echo [VArr []]],
          mkChain false [] [] [] (imm && d) false (VArr [VArr []]) VUndef) ∧
  outcome 0 (run_ops (4 + n) (init_world d)
    [OFresh imm VUndef; OSpread 0 (Some echo) None false; OTick]) =
    Some ([mkCall 0 OnSuccess HSpread [VUndef];
           mkCall 0 OnSuccess echo []],
          mkChain false [] [] [] (imm && d) false (VArr []) VUndef) ∧
  outcome 0 (run_ops (4 + n) (init_world d)
    [OFresh imm (VArr []); OSpread 0 (Some echo) None false; OTick]) =
    Some ([mkCall 0 OnSuccess HSpread [];
           mkCall 0 OnSuccess echo []],
          mkChain false [] [] [] (imm && d) false (VArr []) VUndef).
Proof. destruct imm, d; split_and!; vm_compute; reflexivity. Qed.

(** ** Suspended chains *)

(** A falsy value, case by case. *)
Ltac cases_falsy v H :=
  destruct v as [ | | [|] | [|?|?] | [|? ?] | | | | | | | ];
  try discriminate H; clear H.

(** A function that calls [this.delay()] (or [pause]) suspends its chain:
    what it returns is dropped, and the steps behind it are not run by any
    later tick. They run when the context's [next] is called: with the
    arguments of that call, or, when it is called with none, with the
    value the chain had before the function ran. *)
Theorem delay_suspends_until_next (imm d : bool) (v0 v x : Val) (l : list Val)
    (n : nat) :
  let s1 := HUser (λ _, ([CDelay], Return v)) in
  let attach := [OFresh imm v0;
                 OChain 0 (Some s1) None false;
                 OChain 0 (Some echo) None false;
                 OTick; OTick] in
  outcome 0 (run_ops (4 + n) (init_world d) attach) =
    Some ([mkCall 0 OnSuccess s1 (to_args v0)],
          mkChain true [mkStep (Some echo) None false] [] [] (imm && d) true
            v0 VUndef) ∧
  outcome 0 (run_ops (4 + n) (init_world d) (attach ++ [OCtxNext 0 (x :: l)])) =
    Some ([mkCall 0 OnSuccess s1 (to_args v0);
           mkCall 0 OnSuccess echo (x :: l)],
          mkChain false [] [] [] (imm && d) false (VArr (x :: l)) VUndef) ∧
  outcome 0 (run_ops (4 + n) (init_world d) (attach ++ [OCtxNext 0 []])) =
    Some ([mkCall 0 OnSuccess s1 (to_args v0);
           mkCall 0 OnSuccess echo (to_args v0)],
          mkChain false [] [] [] (imm && d) false (VArr (to_args v0)) VUndef).
Proof.
  intros s1 attach. subst s1 attach.
  destruct imm, d; cases_val v0; split_and!; vm_compute; reflexivity.
Qed.

(** A function of chain 1 that returns chain 0 suspends chain 1 until
    chain 0 has come to the steps that [resolve] attached to it: here
    chain 0 is itself suspended by its first function, and no tick makes
    chain 1 go on. When chain 0 is resumed with the arguments [x, l...],
    the next step of chain 1 is called with them; when chain 0 is rejected
    with [e], it is the failure function of that step that is called, with
    [e]. *)
Theorem returned_chain_is_awaited (d : bool) (v0 v1 x e : Val) (l : list Val)
    (n : nat) :
  truthy e = true →
  let wait := HUser (λ _, ([CDelay], Return VUndef)) in
  let s1 := returns (λ _, VChain 0) in
  let attach := [OFresh false v0;
                 OChain 0 (Some wait) None false;
                 OFresh false v1;
                 OChain 1 (Some s1) None false;
                 OChain 1 (Some echo) (Some echo) false;
                 OTick; OTick; OTick; OTick] in
  outcome 1 (run_ops (6 + n) (init_world d) attach) =
    Some ([mkCall 0 OnSuccess wait (to_args v0);
           mkCall 1 OnSuccess s1 (to_args v1)],
          mkChain true [mkStep (Some echo) (Some echo) false] [] [] false true
            v1 VUndef) ∧
  outcome 1 (run_ops (6 + n) (init_world d) (attach ++ [OCtxNext 0 (x :: l)])) =
    Some ([mkCall 0 OnSuccess wait (to_args v0);
           mkCall 1 OnSuccess s1 (to_args v1);
           mkCall 0 OnSuccess (HNestedOk 1) (x :: l);
           mkCall 1 OnSuccess echo (x :: l)],
          mkChain false [] [] [] false false (VArr (x :: l)) VUndef) ∧
  outcome 1 (run_ops (6 + n) (init_world d) (attach ++ [OCtxReject 0 [e]])) =
    Some ([mkCall 0 OnSuccess wait (to_args v0);
           mkCall 1 OnSuccess s1 (to_args v1);
           mkCall 0 OnFailure (HNestedErr 1 true) [e];
           mkCall 1 OnFailure echo [e]],
          mkChain false [] [] [e] false false (VArr [e]) VUndef).
Proof.
  intros He wait s1 attach. subst wait s1 attach.
  destruct d; cases_truthy e He; split_and!; vm_compute; reflexivity.
Qed.

(** The chain that was waited for does not stay as it was. In the program
    of [returned_chain_is_awaited], chain 0 resumed with [x, l...] ends
    with the value [[]]: a step attached to it afterwards is called with no
    argument, not with [x, l...]. Chain 0 rejected with [e] ends with no
    error pending: a step attached to it afterwards runs its success
    function, with the value the chain had before, and [e] is only in its
    history. *)
Theorem awaited_chain_is_changed (d : bool) (v0 v1 x e : Val) (l : list Val)
    (n : nat) :
  truthy e = true →
  let wait := HUser (λ _, ([CDelay], Return VUndef)) in
  let s1 := returns (λ _, VChain 0) in
  let attach := [OFresh false v0;
                 OChain 0 (Some wait) None false;
                 OFresh false v1;
                 OChain 1 (Some s1) None false;
                 OChain 1 (Some echo) (Some echo) false;
                 OTick; OTick; OTick; OTick] in
  let later := [OChain 0 (Some echo) (Some echo) false; OTick] in
  outcome 0 (run_ops (6 + n) (init_world d)
               (attach ++ [OCtxNext 0 (x :: l)] ++ later)) =
    Some ([mkCall 0 OnSuccess wait (to_args v0);
           mkCall 1 OnSuccess s1 (to_args v1);
           mkCall 0 OnSuccess (HNestedOk 1) (x :: l);
           mkCall 1 OnSuccess echo (x :: l);
           mkCall 0 OnSuccess echo []],
          mkChain false [] [] [] false false (VArr []) VUndef) ∧
  outcome 0 (run_ops (6 + n) (init_world d)
               (attach ++ [OCtxReject 0 [e]] ++ later)) =
    Some ([mkCall 0 OnSuccess wait (to_args v0);
           mkCall 1 OnSuccess s1 (to_args v1);
           mkCall 0 OnFailure (HNestedErr 1 true) [e];
           mkCall 1 OnFailure echo [e];
           mkCall 0 OnSuccess echo (to_args v0)],
          mkChain false [] [] [e] false false (VArr (to_args v0)) VUndef).
Proof.
  intros He wait s1 attach later. subst wait s1 attach later.
  destruct d; cases_truthy e He; cases_val v0; split_and!; vm_compute;
    reflexivity.
Qed.

(** A function that returns a thenable (an object with a [then] method
    that is no chain) suspends the chain: the functions of [resolve] are
    handed to its [then], and no tick makes the chain go on. When the
    thenable calls the first with [x, l...], the next step is called with
    these arguments; when it calls the second with an error [e] that is
    not [undefined], the failure function of the next step is called with
    [e]; when it calls the second with [undefined] or with nothing, no
    error is pending and the success function of the next step is called,
    with the value the chain had. *)
Theorem returned_thenable_is_awaited (imm d : bool) (t : nat) (v0 x e : Val)
    (l rest : list Val) (n : nat) :
  is_undefined e = false →
  let s1 := returns (λ _, VThenable t) in
  let attach := [OFresh imm v0;
                 OChain 0 (Some s1) None false;
                 OChain 0 (Some echo) (Some echo) false;
                 OTick; OTick] in
  (r ← run_ops (4 + n) (init_world d) attach;
   ch ← chains (store r) !! 0;
   Some (trace (store r), ch, registered (store r))) =
    Some ([mkCall 0 OnSuccess s1 (to_args v0)],
          mkChain true [mkStep (Some echo) (Some echo) false] [] [] (imm && d)
            true v0 VUndef,
          [(t, HNestedOk 0, HNestedErr 0 false)]) ∧
  outcome 0 (run_ops (4 + n) (init_world d)
               (attach ++ [OThenable 0 true (x :: l)])) =
    Some ([mkCall 0 OnSuccess s1 (to_args v0);
           mkCall 0 OnSuccess echo (x :: l)],
          mkChain false [] [] [] (imm && d) false (VArr (x :: l)) VUndef) ∧
  outcome 0 (run_ops (4 + n) (init_world d)
               (attach ++ [OThenable 0 false (e :: rest)])) =
    Some ([mkCall 0 OnSuccess s1 (to_args v0);
           mkCall 0 OnFailure echo [e]],
          mkChain false [] [] [e] (imm && d) false (VArr [e]) VUndef) ∧
  (∀ none, none = [] ∨ none = VUndef :: rest →
     outcome 0 (run_ops (4 + n) (init_world d)
                  (attach ++ [OThenable 0 false none])) =
       Some ([mkCall 0 OnSuccess s1 (to_args v0);
              mkCall 0 OnSuccess echo (to_args v0)],
             mkChain false [] [] [] (imm && d) false (VArr (to_args v0)) VUndef)).
Proof.
  intros He s1 attach. subst s1 attach.
  destruct imm, d; destruct e; try discriminate He; cases_val v0;
    (split_and!; [| | |intros none [-> | ->]]); vm_compute; reflexivity.
Qed.

(** ** Steps queued through a context, and the adapters *)

(** [resolve] looks at [_pending] before it takes over the steps that
    were queued through a context ([_unPending]): on a chain with nothing
    in [_pending], [Chain.prototype.resolve] returns at once and the inner
    [resolve] only marks the chain as not resolving; no function is
    called, whatever [_unPending] holds. So a function that is the last
    of its chain and queues a step [sa] through its context leaves [sa]
    waiting: no tick and no call of [resolve] runs it. It runs when a step
    is attached to the chain, before that step. *)
Theorem context_steps_wait_for_a_step (fuel : nat) (w : World) (c : nat)
    (ch : Chain) (args : list Val) :
  chains w !! c = Some ch → _pending ch = [] →
  Chain_resolve (resolve fuel) w c = Some (Ok w) ∧
  (∃ w', resolve (S fuel) w c args = Some (Ok w') ∧ trace w' = trace w ∧
         ∃ ch', chains w' !! c = Some ch' ∧ _unPending ch' = _unPending ch ∧
                _pending ch' = []) ∧
  (∀ d v0 v a n,
     isThenable v = false → isThenable a = false →
     let sa := returns (λ _, a) in
     let s1 := HUser (λ _, ([CChain (Some sa) None false], Return v)) in
     let start := [OFresh false v0; OChain 0 (Some s1) None false;
                   OTick; OTick; OResolve 0; OTick] in
     outcome 0 (run_ops (5 + n) (init_world d) start) =
       Some ([mkCall 0 OnSuccess s1 (to_args v0)],
             mkChain false [] [mkStep (Some sa) None false] [] false false
               (VArr (passed_on v)) VUndef) ∧
     outcome 0 (run_ops (5 + n) (init_world d)
                  (start ++ [OChain 0 (Some echo) None false; OTick])) =
       Some ([mkCall 0 OnSuccess s1 (to_args v0);
              mkCall 0 OnSuccess sa (passed_on v);
              mkCall 0 OnSuccess echo (passed_on a)],
             mkChain false [] [] [] false false (VArr (passed_on a)) VUndef)).
Proof.
  intros Hc Hp. split_and!.
  - unfold Chain_resolve. rewrite Hc. simpl. by rewrite Hp.
  - simpl. unfold resolve_body. rewrite Hc. simpl. rewrite Hp. simpl.
    eexists. split; [done|]. split; [by destruct args|].
    exists (set_resolving false (if length args =? 0 then ch
                                 else set_value (VArr args) ch)).
    split_and!.
    + destruct args; simpl; by rewrite ?list_lookup_alter_eq, Hc.
    + by destruct args.
    + by destruct args.
  - intros d v0 v a n Hv Ha sa s1 start. subst sa s1 start.
    destruct d; cases_val v; try discriminate Hv;
      cases_val a; try discriminate Ha; split; vm_compute; reflexivity.
Qed.

(** [aCall(call, context, params...)] of the module does not call [call]:
    its chain is created in immediate mode and runs the function that
    queues the call through its context, and that step waits (see
    [context_steps_wait_for_a_step]) until a step is attached to the
    chain. Then [call] is called (at once when the module's default mode
    is immediate, at the next tick when it is not) and the chain is
    suspended. When [call]'s callback is called with [y, ys...], the step
    attached is called with these arguments; a second call of the
    callback is ignored. *)
Theorem aCall_calls_once_a_step_is_attached (d : bool) (params ys zs : list Val)
    (x y : Val) (n : nat) :
  let call : Callee := Some (λ _, Return x) in
  let attach := [OaCall call params; OTick;
                 OChain 0 (Some echo) None false; OTick] in
  outcome 0 (run_ops (5 + n) (init_world d) [OaCall call params; OTick]) =
    Some ([mkCall 0 OnSuccess (aCall_start call params) [VUndef]],
          mkChain false [] [mkStep (Some (aCall_step call params)) None false]
            [] d false (VArr []) VUndef) ∧
  outcome 0 (run_ops (5 + n) (init_world d) attach) =
    Some ([mkCall 0 OnSuccess (aCall_start call params) [VUndef];
           mkCall 0 OnSuccess (aCall_step call params) []],
          mkChain true [mkStep (Some echo) None false] [] [] d true
            (VArr []) VUndef) ∧
  outcome 0 (run_ops (5 + n) (init_world d)
               (attach ++ [OCtxNext 0 (y :: ys); OCtxNext 0 zs])) =
    Some ([mkCall 0 OnSuccess (aCall_start call params) [VUndef];
           mkCall 0 OnSuccess (aCall_step call params) [];
           mkCall 0 OnSuccess echo (y :: ys)],
          mkChain false [] [] [] d false (VArr (y :: ys)) VUndef).
Proof.
  intros call attach. subst call attach.
  destruct d; split_and!; vm_compute; reflexivity.
Qed.

(** A [call] that throws [e] when [aCall] calls it: the chain is suspended
    before the call, so the error [e] stays pending on a suspended chain.
    No failure function is called, at no tick; one is called, with [e],
    only if the callback is called all the same. *)
Theorem aCall_keeps_a_thrown_error_waiting (d : bool) (params ys : list Val)
    (e : Val) (n : nat) :
  is_nullish e = false →
  let call : Callee := Some (λ _, Throw e) in
  let attach := [OaCall call params;
                 OChain 0 (Some echo) (Some echo) false; OTick; OTick] in
  outcome 0 (run_ops (5 + n) (init_world d) attach) =
    Some ([mkCall 0 OnSuccess (aCall_start call params) [VUndef];
           mkCall 0 OnSuccess (aCall_step call params) []],
          mkChain true [mkStep (Some echo) (Some echo) false] [] [] d true
            (VArr []) e) ∧
  outcome 0 (run_ops (5 + n) (init_world d) (attach ++ [OCtxNext 0 ys])) =
    Some ([mkCall 0 OnSuccess (aCall_start call params) [VUndef];
           mkCall 0 OnSuccess (aCall_step call params) [];
           mkCall 0 OnFailure echo [e]],
          mkChain false [] [] [e] d false (VArr [e]) VUndef).
Proof.
  intros He call attach. subst call attach.
  destruct d; destruct e; try discriminate He; destruct ys;
    split_and!; vm_compute; reflexivity.
Qed.

(** [nCall]: the callback handed to [call] takes an error first. Called
    with a truthy [err], it rejects the chain: the failure function of the
    step behind is called with [err]. Called with a falsy first argument
    and [y, ys...], it resumes the chain: the success function of the step
    behind is called with [y, ys...]. The two go through different
    contexts, so a rejection does not use up the callback: called with
    [err] and later with a falsy first argument and [y, ys...], it is
    honoured both times, and a step attached afterwards is called with
    [y, ys...]. *)
Theorem nCall_callback_takes_the_error_first (d : bool) (params ys : list Val)
    (x err none y : Val) (n : nat) :
  truthy err = true → truthy none = false →
  let call : Callee := Some (λ _, Return x) in
  let attach := [OnCall call params;
                 OChain 0 (Some echo) (Some echo) false; OTick] in
  outcome 0 (run_ops (5 + n) (init_world d)
               (attach ++ [OnCallback 0 1 (err :: y :: ys)])) =
    Some ([mkCall 0 OnSuccess (nCall_start call params) [VUndef];
           mkCall 0 OnSuccess (aCall_step call params) [];
           mkCall 0 OnFailure echo [err]],
          mkChain false [] [] [err] d false (VArr [err]) VUndef) ∧
  outcome 0 (run_ops (5 + n) (init_world d)
               (attach ++ [OnCallback 0 1 (none :: y :: ys)])) =
    Some ([mkCall 0 OnSuccess (nCall_start call params) [VUndef];
           mkCall 0 OnSuccess (aCall_step call params) [];
           mkCall 0 OnSuccess echo (y :: ys)],
          mkChain false [] [] [] d false (VArr (y :: ys)) VUndef) ∧
  outcome 0 (run_ops (5 + n) (init_world d)
               (attach ++ [OnCallback 0 1 [err];
                           OnCallback 0 1 (none :: y :: ys);
                           OChain 0 (Some echo) (Some echo) false; OTick])) =
    Some ([mkCall 0 OnSuccess (nCall_start call params) [VUndef];
           mkCall 0 OnSuccess (aCall_step call params) [];
           mkCall 0 OnFailure echo [err];
           mkCall 0 OnSuccess echo (y :: ys)],
          mkChain false [] [] [err] d false (VArr (y :: ys)) VUndef).
Proof.
  intros He Hn call attach. subst call attach.
  destruct d; cases_truthy err He; cases_falsy none Hn;
    split_and!; vm_compute; reflexivity.
Qed.

(** [cCall(func, context, params...)] on a chain: when the chain comes to
    the step, [func] is called with [params] and what it returns is the
    value handed to the next step, whatever the value of the chain was
    (with no argument when [func] returns [undefined]); when [func] throws
    [e], the failure function of the next step is called with [e]. *)
Theorem cCall_hands_on_the_result (imm d : bool) (params : list Val)
    (v0 x e : Val) (n : nat) :
  isThenable x = false → is_nullish e = false →
  (let func : Callee := Some (λ _, Return x) in
   outcome 0 (run_ops (6 + n) (init_world d)
     [OFresh imm v0;
      OcCall 0 func params;
      OChain 0 (Some echo) (Some echo) false;
      OTick]) =
   Some ([mkCall 0 OnSuccess (cCall_start func params) (to_args v0);
          mkCall 0 OnSuccess (cCall_step func params) [];
          mkCall 0 OnSuccess echo (passed_on x)],
         mkChain false [] [] [] (imm && d) false (VArr (passed_on x)) VUndef)) ∧
  (let func : Callee := Some (λ _, Throw e) in
   outcome 0 (run_ops (6 + n) (init_world d)
     [OFresh imm v0;
      OcCall 0 func params;
      OChain 0 (Some echo) (Some echo) false;
      OTick]) =
   Some ([mkCall 0 OnSuccess (cCall_start func params) (to_args v0);
          mkCall 0 OnSuccess (cCall_step func params) [];
          mkCall 0 OnFailure echo [e]],
         mkChain false [] [] [e] (imm && d) false (VArr [e]) VUndef)).
Proof.
  intros Hx He. split.
  - intros func. subst func.
    destruct imm, d; cases_val x; try discriminate Hx; vm_compute; reflexivity.
  - intros func. subst func.
    destruct imm, d; destruct e; try discriminate He; vm_compute; reflexivity.
Qed.

(** The steps of a client program that stand for the adapters and for
    [fin] run the functions of the same name. *)
Lemma run_OaCall fuel w call params :
  run_op fuel w (OaCall call params) = aCall (resolve fuel) w call params.
Proof. reflexivity. Qed.

Lemma run_OnCall fuel w f params :
  run_op fuel w (OnCall (Some f) params) = nCall (resolve fuel) w (Some f) params.
Proof. reflexivity. Qed.

Lemma run_OnCallback fuel w k k2 args :
  run_op fuel w (OnCallback k k2 args) = nCall_callback (resolve fuel) w k k2 args.
Proof. unfold OnCallback, nCall_callback. by destruct (truthy _). Qed.

Lemma run_OcCall fuel w c func params :
  run_op fuel w (OcCall c func params) = Chain_cCall (resolve fuel) w c func params.
Proof. reflexivity. Qed.

Lemma run_OFin fuel w c finback nh :
  run_op fuel w (OFin c finback nh) = Chain_fin (resolve fuel) w c finback nh.
Proof. reflexivity. Qed.

Lemma run_CaCall rr w k call params :
  run_cmd rr w k (CaCall call params) = ctx_aCall w k call params.
Proof. reflexivity. Qed.

Lemma run_CcCall rr w k func params :
  run_cmd rr w k (CcCall func params) = ctx_cCall w k func params.
Proof. reflexivity. Qed.

(** ** [all] and [each] on values that are no chains *)

(** Evaluation in a store whose last chain, context and join are the ones
    at work. *)
Local Ltac norm :=
  repeat first [rewrite alter_snoc | rewrite lookup_snoc | progress simpl].
Local Ltac flat :=
  cbv [upd_chain upd_ctx upd_join set_chains set_ctxs set_joins set_ticks
       set_registered set_trace chains ctxs joins ticks registered trace
       default_immediate];
  rewrite ?alter_snoc.

Lemma inserts_take (vs : list Val) : ∀ i l,
  length l = i + length vs → inserts i vs l = take i l ++ vs.
Proof.
  induction vs as [|v vs IH]; intros i l Hl; simpl in *.
  - rewrite take_ge by lia. by rewrite app_nil_r.
  - rewrite IH by (rewrite length_insert; lia).
    rewrite (take_S_r _ _ v) by (apply list_lookup_insert_eq; lia).
    rewrite take_insert_ge by lia. by rewrite <- app_assoc.
Qed.

Lemma all_start (f : nat) (w : World) (jn : Join) :
  now (resolve (2 + f)) (set_joins (joins w ++ [jn]) w) VUndef
      (Some (HAllStart (length (joins w)))) None =
  Some (Ok (mkWorld (default_immediate w)
              (chains w ++ [mkChain false [] [] [] (default_immediate w) true VUndef VUndef])
              (ctxs w ++ [mkCtx (length (chains w)) true false])
              (joins w ++ [set_ctx (Some (length (ctxs w))) jn])
              (ticks w) (registered w)
              (trace w ++ [mkCall (length (chains w)) OnSuccess
                             (HAllStart (length (joins w))) [VUndef]]))).
Proof.
  destruct w as [d cs ks js ts rg tr].
  unfold now, start, new_Chain, Chain_chain, _chain, Chain_resolve. simpl.
  norm. unfold resolve_body at 1. norm. unfold call, ctx_delay. norm.
  unfold upd_join. norm. unfold settle. norm. unfold resolve_body. norm.
  flat. done.
Qed.

Lemma all_loop_plain rr (values : list Val) : ∀ d cs ks js ts rg tr jn i,
  Forall (λ v, isThenable v = false) values →
  all_loop rr (mkWorld d cs ks (js ++ [jn]) ts rg tr) (length js) values i =
  Some (Ok (mkWorld d cs ks
              (js ++ [mkJoin (len jn) (length values + complete jn)
                        (inserts i values (results jn)) (firstErr jn)
                        (errResults jn) (ctx jn) (done jn)])
              ts rg tr)).
Proof.
  induction values as [|v values IH]; intros d cs ks js ts rg tr jn i Hv.
  - simpl. by destruct jn.
  - apply Forall_cons in Hv as [Hv Hvs].
    assert (all_loop rr (mkWorld d cs ks (js ++ [jn]) ts rg tr) (length js)
              (v :: values) i =
            all_loop rr (mkWorld d cs ks
                           (js ++ [mkJoin (len jn) (S (complete jn))
                                     (<[i := v]> (results jn)) (firstErr jn)
                                     (errResults jn) (ctx jn) (done jn)])
                           ts rg tr) (length js) values (S i)) as ->.
    { destruct v; try discriminate Hv; simpl; unfold upd_join; simpl;
        by rewrite alter_snoc. }
    rewrite IH by done. simpl. by rewrite Nat.add_succ_r.
Qed.

(** The store that [all] leaves, for values that are no chains. *)
Lemma all_plain_store (fuel : nat) d cs ks js ts rg tr (values : list Val) :
  values ≠ [] → Forall (λ v, isThenable v = false) values →
  let n := length values in
  all (resolve (2 + fuel)) (mkWorld d cs ks js ts rg tr) values =
  Some (Ok (mkWorld d
              (cs ++ [mkChain false [] [] [] d false (VArr [VArr values]) VUndef])
              (ks ++ [mkCtx (length cs) true true])
              (js ++ [mkJoin n n values VUndef None (Some (length ks))
                        (replicate n false)])
              ts rg
              (tr ++ [mkCall (length cs) OnSuccess (HAllStart (length js)) [VUndef]]))).
Proof.
  intros Hne Hv n. unfold all. fold n.
  destruct (n =? 0) eqn:Hn.
  { apply Nat.eqb_eq in Hn. by destruct values. }
  cbv zeta. rewrite all_start. simpl and_then.
  unfold upd_join. simpl. rewrite alter_snoc. simpl.
  cbv [set_joins default_immediate chains ctxs ticks registered trace].
  rewrite all_loop_plain by done. simpl and_then. cbv beta.
  simpl. rewrite lookup_snoc. simpl.
  rewrite inserts_take by (by rewrite length_replicate).
  simpl. fold n. rewrite Nat.add_0_r, Nat.eqb_refl.
  unfold whenDone. simpl. rewrite lookup_snoc. simpl. rewrite Nat.eqb_refl.
  unfold ctx_next. simpl. rewrite lookup_snoc. simpl.
  unfold resolve_body at 1. norm.
  flat. done.
Qed.

(** [all] on a non-empty array that holds no chain and no thenable, in any
    store: the call returns a new chain, the last of the store, that is
    settled (not paused, nothing queued, no error) and whose value is the
    one argument [values], the array of the entries in their order; the
    one function called is the first step of that chain, [all]'s own, and
    no other chain, no queue of ticks and no registration is touched. *)
Theorem all_of_plain_values (fuel : nat) (w : World) (values : list Val) :
  values ≠ [] → Forall (λ v, isThenable v = false) values →
  let n := length values in
  let c := length (chains w) in
  all (resolve (2 + fuel)) w values =
  Some (Ok (mkWorld (default_immediate w)
              (chains w ++
               [mkChain false [] [] [] (default_immediate w) false
                  (VArr [VArr values]) VUndef])
              (ctxs w ++ [mkCtx c true true])
              (joins w ++
               [mkJoin n n values VUndef None (Some (length (ctxs w)))
                  (replicate n false)])
              (ticks w) (registered w)
              (trace w ++ [mkCall c OnSuccess (HAllStart (length (joins w))) [VUndef]]))).
Proof. intros Hne Hv. destruct w. by apply all_plain_store. Qed.

Lemma each_loop_returns (worker : Worker) (g : Val → Val) (w : World)
    (values : list Val) : ∀ arr,
  (∀ v, v ∈ values → worker w v = Some (w, Return (g v))) →
  each_loop worker w values arr = Some (w, inl (arr ++ map g values)).
Proof.
  induction values as [|v values IH]; intros arr Hw; simpl.
  - by rewrite app_nil_r.
  - rewrite Hw by (by left). simpl.
    rewrite IH by (intros x Hx; apply Hw; by right).
    by rewrite <- app_assoc.
Qed.

(** [each(values, worker)] for a [worker] that, in the store [w], does
    nothing but return [g v] on each element [v] of [values], no result
    being a chain or a thenable: what [all] gives on the array of the
    results in the order of the elements, a new settled chain whose value
    is the one argument [[g v0, g v1, ...]]. For a [worker] that throws [e]
    on an element, having returned on those before it: [each] ends with
    the exception [e]; [all] is not called and the store is as it was, no
    chain is created. *)
Theorem each_hands_the_results_to_all (fuel : nat) (w : World)
    (worker : Worker) (g : Val → Val) (values : list Val) :
  (∀ v, v ∈ values → worker w v = Some (w, Return (g v))) →
  (values ≠ [] → Forall (λ v, isThenable (g v) = false) values →
   ∃ w', each (resolve (2 + fuel)) w values worker = Some (Ok w') ∧
         chains w' = chains w ++
           [mkChain false [] [] [] (default_immediate w) false
              (VArr [VArr (map g values)]) VUndef] ∧
         trace w' = trace w ++
           [mkCall (length (chains w)) OnSuccess
              (HAllStart (length (joins w))) [VUndef]]) ∧
  (∀ v e rest, worker w v = Some (w, Throw e) →
     each (resolve fuel) w (values ++ v :: rest) worker = Some (Raise w e)).
Proof.
  intros Hw. split.
  - intros Hne Hv. unfold each. rewrite (each_loop_returns worker g) by done.
    cbv [mbind option_bind]. cbv beta iota. rewrite app_nil_l.
    destruct w as [d cs ks js ts rg tr]. rewrite all_plain_store.
    + eexists. split; [done|]. by split.
    + by destruct values.
    + by apply Forall_map.
  - intros v e rest He. unfold each.
    assert (∀ arr, each_loop worker w (values ++ v :: rest) arr = Some (w, inr e))
      as ->; [|done].
    induction values as [|x values IH]; intros arr; simpl.
    + by rewrite He.
    + rewrite Hw by (by left). simpl. apply IH. intros y Hy. apply Hw. by right.
Qed.

(** ** A queue of plain steps *)

(** [resolve] applied to arguments stores them as the value of the chain
    and goes on as [resolve] applied to none. *)
Lemma resolve_body_args rr (w : World) (c : nat) (ch : Chain) (args : list Val) :
  chains w !! c = Some ch → args ≠ [] →
  resolve_body rr w c args =
  resolve_body rr (upd_chain c (set_value (VArr args)) w) c [].
Proof.
  intros Hc Ha. unfold resolve_body. simpl.
  rewrite list_lookup_alter_eq, Hc. simpl.
  destruct args as [|a args]; [done|]. reflexivity.
Qed.

Lemma drained_trans (w w1 w' : World) c imm calls calls' st :
  trace w1 = trace w ++ calls →
  (∀ c', c' ≠ c → chains w1 !! c' = chains w !! c') →
  drained w1 w' c imm calls' st →
  drained w w' c imm (calls ++ calls') st.
Proof.
  intros Ht Ho (Ht' & Hc' & Ho'). split_and!.
  - by rewrite Ht', Ht, app_assoc.
  - done.
  - intros c' Hne. rewrite Ho' by done. by apply Ho.
Qed.

Lemma drained_resolving (w w' : World) c imm calls st :
  drained w w' c imm calls st →
  drained w (upd_chain c (set_resolving false) w') c imm calls st.
Proof.
  intros (Ht & Hc & Ho). split_and!.
  - done.
  - simpl. by rewrite list_lookup_alter_eq, Hc.
  - intros c' Hne. simpl. rewrite list_lookup_alter_ne by done. by apply Ho.
Qed.

Lemma entry_value_to_args (ch : Chain) (v : Val) :
  _value ch = v → entry_value ch (to_args v) = VArr (to_args v).
Proof. intros Hv. destruct v as [ | | | | | [|? ?] | | | | | | ]; done. Qed.

Lemma call_plain rr (w : World) (c k : nat) (slot : Slot)
    (f : list Val → Outcome) (args : list Val) :
  call rr w c k slot (plain f) args =
  Some (set_trace (trace w ++ [mkCall c slot (plain f) args]) w, f args).
Proof. reflexivity. Qed.

(** The end of [resolve] after a call that left an error pending, and
    after a call that gave a value. *)
Lemma settle_pending rr (w : World) (c k : nat) (cx : Ctx) (ch : Chain)
    (value : Val) :
  ctxs w !! k = Some cx → chains w !! c = Some ch →
  is_undefined (_error ch) = false →
  settle rr w c k value = rr w c [].
Proof.
  intros Hk Hc He. unfold settle. rewrite Hk. simpl. rewrite Hc. simpl.
  rewrite He. simpl. by rewrite !orb_true_r.
Qed.

Lemma settle_value rr (w : World) (c k : nat) (cx : Ctx) (ch : Chain)
    (value : Val) :
  ctxs w !! k = Some cx → skip cx = false →
  chains w !! c = Some ch → _paused ch = false →
  is_undefined (_error ch) = true →
  isThenable value = false → is_undefined value = false →
  settle rr w c k value =
  (w <- rr (upd_chain c (set_value value) w) c (to_args value) ;;
   ch ← chains w !! c;
   Some (Ok (if (length (_pending ch) =? 0)
             then upd_chain c (set_resolving false) w else w))).
Proof.
  intros Hk Hs Hc Hp He Ht Hu. unfold settle. rewrite Hk. simpl.
  rewrite Hc. simpl. rewrite Hs, Hp, He. simpl.
  destruct value; try discriminate; reflexivity.
Qed.

Local Ltac side :=
  solve [ done
        | simpl; apply lookup_snoc
        | simpl; by rewrite app_nil_r
        | simpl; rewrite ?list_lookup_alter_eq;
          match goal with H : chains _ !! _ = Some _ |- _ => rewrite H end; done
        | intros; simpl; by rewrite ?list_lookup_alter_ne ].

(** Rewrite the [settle] of the goal with [lem], the chain being [ch]
    with its queue taken over. *)
Local Ltac settles lem ch :=
  match goal with
  | |- context [settle ?rr ?W ?c ?k ?val] =>
    erewrite (lem rr W c k (mkCtx c false false))
  end.

(** Apply [Hnext] to the call of [resolve] in the goal. *)
Local Ltac continue rr Hnext calls0 calls1 st1 :=
  match goal with
  | |- context [rr ?W1 ?c ?args] =>
    let Hc1 := fresh "Hc1" in
    eassert (chains W1 !! c = Some _) as Hc1
      by (simpl; rewrite ?list_lookup_alter_eq;
          match goal with H : chains _ !! _ = Some _ |- _ => rewrite H end;
          reflexivity);
    let Hn := fresh "Hn" in
    unshelve epose proof (Hnext W1 _ args calls0 calls1 st1 Hc1 _ _ _ _ _ _ _) as Hn;
    [side | side | side | side | side | side | | clear Hc1; revert Hn]
  end.

Lemma drain_plain (steps : list PStep) : ∀ (fuel : nat) (w : World) (c : nat)
    (ch : Chain) (args : list Val) (calls : list Call) (st : PState),
  chains w !! c = Some ch →
  _paused ch = false →
  _unPending ch ++ _pending ch = map to_step steps →
  (_pending ch = [] → _unPending ch = []) →
  run_plain c steps (entry_value ch args, _error ch, _errors ch) = Some (calls, st) →
  ∃ w', resolve (S (length steps) + fuel) w c args = Some (Ok w') ∧
        drained w w' c (_immediate ch) calls st.
Proof.
  induction steps as [|s steps IH]; intros fuel w c ch args calls st Hc Hp Hq Hn Hr.
  - simpl in Hr. simplify_eq. apply app_eq_nil in Hq as [Hu Hq].
    simpl. unfold resolve_body. rewrite Hc. simpl. rewrite Hq.
    destruct args as [|a args]; simpl.
    + eexists. split; [reflexivity|]. split_and!.
      * simpl. by rewrite app_nil_r.
      * simpl. rewrite list_lookup_alter_eq, Hc. simpl.
        destruct ch; simpl in *. by simplify_eq.
      * intros c' Hc'. simpl. by rewrite list_lookup_alter_ne.
    + eexists. split; [reflexivity|]. split_and!.
      * simpl. by rewrite app_nil_r.
      * simpl. rewrite !list_lookup_alter_eq, Hc. simpl.
        destruct ch; simpl in *. by simplify_eq.
      * intros c' Hc'. simpl. by rewrite !list_lookup_alter_ne.
  - (* the arguments are stored first *)
    assert (∀ w ch calls, chains w !! c = Some ch → _paused ch = false →
              _unPending ch ++ _pending ch = map to_step (s :: steps) →
              (_pending ch = [] → _unPending ch = []) →
              run_plain c (s :: steps) (_value ch, _error ch, _errors ch) =
                Some (calls, st) →
              ∃ w', resolve (S (length (s :: steps)) + fuel) w c [] = Some (Ok w') ∧
                    drained w w' c (_immediate ch) calls st) as Hnil.
    2:{ destruct args as [|a args]; [by eapply Hnil|].
        simpl. erewrite resolve_body_args by done.
        destruct (Hnil (upd_chain c (set_value (VArr (a :: args))) w)
                    (set_value (VArr (a :: args)) ch) calls)
          as (w' & Hw' & Ht & Hc' & Ho); try done.
        { simpl. by rewrite list_lookup_alter_eq, Hc. }
        exists w'. split; [done|]. split_and!; [done | done |].
        intros c' Hne. rewrite Ho by done. simpl.
        by rewrite list_lookup_alter_ne. }
    clear w ch calls Hc Hp Hq Hn Hr. intros w ch calls Hc Hp Hq Hn Hr.
    assert ((length (_pending ch) =? 0) = false) as Hlen.
    { destruct (_pending ch); [|done]. by rewrite Hn in Hq. }
    (* what is left to do once the step has settled *)
    clear args.
    assert (∀ w1 ch1 args calls0 calls1 st1,
              chains w1 !! c = Some ch1 → _paused ch1 = false →
              _unPending ch1 = [] → _pending ch1 = map to_step steps →
              _immediate ch1 = _immediate ch →
              trace w1 = trace w ++ calls0 →
              (∀ c', c' ≠ c → chains w1 !! c' = chains w !! c') →
              run_plain c steps (entry_value ch1 args, _error ch1, _errors ch1) =
                Some (calls1, st1) →
              ∃ w', resolve (S (length steps) + fuel) w1 c args = Some (Ok w') ∧
                    drained w w' c (_immediate ch) (calls0 ++ calls1) st1) as Hnext.
    { intros w1 ch1 args calls0 calls1 st1 Hc1 Hp1 Hu1 Hq1 Hi1 Ht1 Ho1 Hr1.
      destruct (IH fuel w1 c ch1 args calls1 st1) as (w' & Hw' & Hd); try done.
      { by rewrite Hu1, Hq1. }
      exists w'. split; [done|]. rewrite <- Hi1. by eapply drained_trans. }
    change (resolve (S (length (s :: steps)) + fuel))
      with (resolve_body (resolve (S (length steps) + fuel))).
    set (rr := resolve (S (length steps) + fuel)) in *.
    unfold resolve_body at 1. rewrite Hc. simpl. rewrite Hlen, Hp, Hq.
    cbn [map]. cbv beta iota.
    clearbody rr. clear IH.
    assert (∀ e, is_nullish e = false → is_undefined e = false) as Hnu
      by (by intros []).
    assert (∀ v, isThenable v = false →
              isThenable (if is_undefined v then VArr [] else v) = false ∧
              is_undefined (if is_undefined v then VArr [] else v) = false)
      as Hok by (by intros []).
    assert (∀ v, isThenable v = false →
              isThenable (if is_undefined v then VArr [VUndef] else v) = false ∧
              is_undefined (if is_undefined v then VArr [VUndef] else v) = false)
      as Hrec by (by intros []).
    simpl in Hr.
    destruct s as [f|g|f g]; simpl in *;
      destruct (is_undefined (_error ch)) eqn:He; simpl in *.
    + (* a success function, no error pending *)
      assert (_error ch = VUndef) as He' by (by destruct (_error ch)).
      destruct (f (to_args (_value ch))) as [v|e] eqn:Hf.
      * destruct (isThenable v) eqn:Hv; [done|]. simpl in Hr.
        destruct (run_plain c steps _) as [[calls1 st1]|] eqn:Hr1; [|done].
        simpl in Hr. simplify_eq.
        destruct (Hok v Hv) as [Hv1 Hv2].
        settles settle_value ch; [|side..].
        continue rr Hnext [mkCall c OnSuccess (plain f) (to_args (_value ch))] calls1 st.
        { rewrite entry_value_to_args by done. simpl. by rewrite He'. }
        intros (w' & Hw' & Hd).
        rewrite Hw'. simpl. destruct (Hd) as (Ht & Hc' & Ho). rewrite Hc'. simpl.
        eexists. split; [done|]. by apply drained_resolving.
      * destruct (is_nullish e) eqn:Hne; [done|]. simpl in Hr.
        destruct (run_plain c steps _) as [[calls1 st1]|] eqn:Hr1; [|done].
        simpl in Hr. simplify_eq.
        settles settle_pending ch; [|side|side|simpl; by apply Hnu].
        continue rr Hnext [mkCall c OnSuccess (plain f) (to_args (_value ch))] calls1 st.
        { exact Hr1. }
        intros H. exact H.
    + (* a success function, an error pending: skipped *)
      destruct (run_plain c steps _) as [[calls1 st1]|] eqn:Hr1; [|done].
      simpl in Hr. simplify_eq.
      continue rr Hnext (@nil Call) calls st.
      { rewrite entry_value_to_args by done. exact Hr1. }
      intros H. exact H.
    + (* a failure function, no error pending: skipped *)
      destruct (run_plain c steps _) as [[calls1 st1]|] eqn:Hr1; [|done].
      simpl in Hr. simplify_eq.
      continue rr Hnext (@nil Call) calls st.
      { rewrite entry_value_to_args by done. exact Hr1. }
      intros H. exact H.
    + (* a failure function, an error pending *)
      destruct (g [_error ch]) as [v|e] eqn:Hg.
      * destruct (isThenable v) eqn:Hv; [done|]. simpl in Hr.
        destruct (run_plain c steps _) as [[calls1 st1]|] eqn:Hr1; [|done].
        simpl in Hr. simplify_eq.
        destruct (Hrec v Hv) as [Hv1 Hv2].
        settles settle_value ch; [|side..].
        continue rr Hnext [mkCall c OnFailure (plain g) [_error ch]] calls1 st.
        { rewrite entry_value_to_args by done. exact Hr1. }
        intros (w' & Hw' & Hd).
        rewrite Hw'. simpl. destruct (Hd) as (Ht & Hc' & Ho). rewrite Hc'. simpl.
        eexists. split; [done|]. by apply drained_resolving.
      * simpl in Hr.
        destruct (run_plain c steps _) as [[calls1 st1]|] eqn:Hr1; [|done].
        simpl in Hr. simplify_eq.
        destruct (is_undefined e) eqn:Hue.
        -- assert (e = VUndef) as -> by (by destruct e).
           settles settle_value ch; [|side..].
           continue rr Hnext [mkCall c OnFailure (plain g) [_error ch]] calls1 st.
           { exact Hr1. }
           intros (w' & Hw' & Hd).
           rewrite Hw'. simpl. destruct (Hd) as (Ht & Hc' & Ho). rewrite Hc'. simpl.
           eexists. split; [done|]. by apply drained_resolving.
        -- settles settle_pending ch; [|side..].
           continue rr Hnext [mkCall c OnFailure (plain g) [_error ch]] calls1 st.
           { exact Hr1. }
           intros H. exact H.
    + (* both, no error pending *)
      assert (_error ch = VUndef) as He' by (by destruct (_error ch)).
      destruct (f (to_args (_value ch))) as [v|e] eqn:Hf.
      * destruct (isThenable v) eqn:Hv; [done|]. simpl in Hr.
        destruct (run_plain c steps _) as [[calls1 st1]|] eqn:Hr1; [|done].
        simpl in Hr. simplify_eq.
        destruct (Hok v Hv) as [Hv1 Hv2].
        settles settle_value ch; [|side..].
        continue rr Hnext [mkCall c OnSuccess (plain f) (to_args (_value ch))] calls1 st.
        { rewrite entry_value_to_args by done. simpl. by rewrite He'. }
        intros (w' & Hw' & Hd).
        rewrite Hw'. simpl. destruct (Hd) as (Ht & Hc' & Ho). rewrite Hc'. simpl.
        eexists. split; [done|]. by apply drained_resolving.
      * destruct (is_nullish e) eqn:Hne; [done|]. simpl in Hr.
        destruct (run_plain c steps _) as [[calls1 st1]|] eqn:Hr1; [|done].
        simpl in Hr. simplify_eq.
        settles settle_pending ch; [|side|side|simpl; by apply Hnu].
        continue rr Hnext [mkCall c OnSuccess (plain f) (to_args (_value ch))] calls1 st.
        { exact Hr1. }
        intros H. exact H.
    + (* both, an error pending *)
      destruct (g [_error ch]) as [v|e] eqn:Hg.
      * destruct (isThenable v) eqn:Hv; [done|]. simpl in Hr.
        destruct (run_plain c steps _) as [[calls1 st1]|] eqn:Hr1; [|done].
        simpl in Hr. simplify_eq.
        destruct (Hrec v Hv) as [Hv1 Hv2].
        settles settle_value ch; [|side..].
        continue rr Hnext [mkCall c OnFailure (plain g) [_error ch]] calls1 st.
        { rewrite entry_value_to_args by done. exact Hr1. }
        intros (w' & Hw' & Hd).
        rewrite Hw'. simpl. destruct (Hd) as (Ht & Hc' & Ho). rewrite Hc'. simpl.
        eexists. split; [done|]. by apply drained_resolving.
      * simpl in Hr.
        destruct (run_plain c steps _) as [[calls1 st1]|] eqn:Hr1; [|done].
        simpl in Hr. simplify_eq.
        destruct (is_undefined e) eqn:Hue.
        -- assert (e = VUndef) as -> by (by destruct e).
           settles settle_value ch; [|side..].
           continue rr Hnext [mkCall c OnFailure (plain g) [_error ch]] calls1 st.
           { exact Hr1. }
           intros (w' & Hw' & Hd).
           rewrite Hw'. simpl. destruct (Hd) as (Ht & Hc' & Ho). rewrite Hc'. simpl.
           eexists. split; [done|]. by apply drained_resolving.
        -- settles settle_pending ch; [|side..].
           continue rr Hnext [mkCall c OnFailure (plain g) [_error ch]] calls1 st.
           { exact Hr1. }
           intros H. exact H.
Qed.

Lemma run_ops_app (fuel : nat) (ops1 ops2 : list Op) : ∀ w,
  run_ops fuel w (ops1 ++ ops2) =
  (w1 <- run_ops fuel w ops1 ;; run_ops fuel w1 ops2).
Proof.
  induction ops1 as [|op ops1 IH]; intros w; simpl; [done|].
  destruct (run_op fuel w op) as [[w1|w1 e]|]; simpl; [apply IH | done | done].
Qed.

Lemma attach_plain (fuel : nat) (d : bool) (v0 : Val) (steps : list PStep) :
  ∀ ps, ps ≠ [] →
  run_ops fuel (queued d v0 ps) (map (OPlain 0) steps) =
  Some (Ok (queued d v0 (ps ++ map to_step steps))).
Proof.
  induction steps as [|s steps IH]; intros ps Hps; cbn [map run_ops].
  - by rewrite app_nil_r.
  - assert (run_op fuel (queued d v0 ps) (OPlain 0 s) =
            Some (Ok (queued d v0 (ps ++ [to_step s])))) as ->.
    { unfold OPlain, run_op, Chain_chain, _chain, Chain_resolve.
      destruct s; simpl; by rewrite orb_true_r. }
    simpl. rewrite IH by (by destruct ps). by rewrite <- app_assoc.
Qed.

(** A chain in deferred mode with the value [v0], the plain steps [steps]
    attached to it one after the other, and a tick: the functions called,
    with their arguments and in their order, and the value, the pending
    error and the error history the chain is left with are those of
    [run_plain]. At most one function of a step is called, once: the
    failure function with the pending error when there is one, else the
    success function with the value; a step that lacks the function is
    passed over, for good. *)
Theorem plain_chain_runs_as_fold (d : bool) (v0 : Val) (steps : list PStep)
    (calls : list Call) (value error : Val) (errors : list Val) (n : nat) :
  run_plain 0 steps (v0, VUndef, []) = Some (calls, (value, error, errors)) →
  outcome 0 (run_ops (S (length steps) + n) (init_world d)
               (OFresh false v0 :: map (OPlain 0) steps ++ [OTick])) =
  Some (calls, mkChain false [] [] errors false false value error).
Proof.
  intros Hr. destruct steps as [|s steps].
  - simpl in Hr. by simplify_eq.
  - change (OFresh false v0 :: map (OPlain 0) (s :: steps) ++ [OTick])
      with ([OFresh false v0; OPlain 0 s] ++ map (OPlain 0) steps ++ [OTick]).
    rewrite run_ops_app.
    assert (run_ops (S (length (s :: steps)) + n) (init_world d)
              [OFresh false v0; OPlain 0 s] =
            Some (Ok (queued d v0 [to_step s]))) as ->.
    { destruct s; reflexivity. }
    simpl and_then. rewrite run_ops_app, attach_plain by done.
    simpl and_then.
    destruct (drain_plain (s :: steps) n
                (set_ticks [] (queued d v0 ([to_step s] ++ map to_step steps))) 0
                (mkChain true ([to_step s] ++ map to_step steps) [] [] false false
                   v0 VUndef) [] calls (value, error, errors))
      as (w' & Hw' & Ht & Hc & _); try done.
    change (outcome 0
              (w <- resolve (S (length (s :: steps)) + n)
                      (set_ticks [] (queued d v0 ([to_step s] ++ map to_step steps)))
                      0 [] ;;
               Some (Ok w)) =
            Some (calls, mkChain false [] [] errors false false value error)).
    rewrite Hw'. simpl. rewrite Hc. simpl. by rewrite Ht.
Qed.

(** ** What the engine writes *)

Lemma writes_trans w1 w2 w3 : writes w1 w2 → writes w2 w3 → writes w1 w3.
Proof.
  intros H1 H2. induction H2 as [|w2 w3 w4 _ IH Hw]; [done|].
  eapply writes_more; [by apply IH | done].
Qed.

(** [writes w w'] for a [w'] built from [w] by the writes of the engine. *)
Ltac wr :=
  lazymatch goal with
  | |- writes ?w ?w => apply writes_none
  | |- writes ?w (store (Ok ?w1)) => change (writes w w1); wr
  | |- writes ?w (store (Raise ?w1 _)) => change (writes w w1); wr
  | |- writes ?w (upd_chain _ _ ?w1) =>
    apply (writes_more w w1); [wr | apply write_chain]
  | |- writes ?w (set_chains _ ?w1) =>
    apply (writes_more w w1); [wr | exact (write_new_chain w1 _)]
  | |- writes ?w (set_ticks _ ?w1) =>
    apply (writes_more w w1); [wr | exact (write_tick w1 _)]
  | |- writes ?w (set_registered _ ?w1) =>
    apply (writes_more w w1); [wr | exact (write_registered w1 _)]
  | |- writes ?w (set_trace _ ?w1) =>
    apply (writes_more w w1); [wr | exact (write_trace w1 _)]
  | |- writes ?w (set_ctxs _ ?w1) =>
    apply (writes_more w w1); [wr | exact (write_new_ctx w1 _)]
  | |- writes ?w (upd_ctx _ (set_skip true) ?w1) =>
    apply (writes_more w w1); [wr | apply write_skip]
  | |- writes ?w (upd_ctx _ _ ?w1) =>
    apply (writes_more w w1); [wr | apply write_next]
  | |- writes ?w (set_joins _ ?w1) =>
    apply (writes_more w w1); [wr | exact (write_new_join w1 _)]
  | |- writes ?w (upd_join _ (set_ctx _) ?w1) =>
    apply (writes_more w w1); [wr | apply write_join_ctx]
  | |- writes ?w (upd_join _ (set_results _) ?w1) =>
    apply (writes_more w w1); [wr | apply write_join_results]
  | |- writes ?w (upd_join _ (settled _ _ _) ?w1) =>
    apply (writes_more w w1); [wr | apply write_join_settled]
  | |- writes ?w (upd_join _ _ ?w1) =>
    apply (writes_more w w1); [wr | apply write_join_plain]
  | |- writes ?w (if ?b then _ else _) => destruct b; wr
  | H : writes ?w ?w1 |- writes ?w ?w1 => exact H
  end.

Lemma and_then_writes w m k r :
  and_then m k = Some r →
  (∀ r1, m = Some r1 → writes w (store r1)) →
  (∀ w1 r2, k w1 = Some r2 → writes w1 (store r2)) →
  writes w (store r).
Proof.
  intros H Hm Hk. destruct m as [[w1|w1 e]|]; simpl in H; [| |done].
  - eapply writes_trans; [exact (Hm _ eq_refl)|]. by apply Hk.
  - simplify_eq. exact (Hm _ eq_refl).
Qed.

Lemma ends_writes w m out w' o :
  ends m out = Some (w', o) →
  (∀ r1, m = Some r1 → writes w (store r1)) →
  writes w w'.
Proof.
  intros H Hm. destruct m as [[w1|w1 e]|]; simpl in H; simplify_eq;
    exact (Hm _ eq_refl).
Qed.

Section Writes.

Variable rec : World → nat → list Val → option Res.
Hypothesis rec_writes :
  ∀ w c args r, rec w c args = Some r → writes w (store r).

Lemma _chain_writes w c fb eb nh prepend :
  writes w (_chain w c fb eb nh prepend).
Proof.
  unfold _chain. destruct (_ || _); [|wr]. destruct prepend; wr.
Qed.

Lemma ctx_delay_writes w k r : ctx_delay w k = Some r → writes w (store r).
Proof.
  unfold ctx_delay. intros H.
  destruct (ctxs w !! k) as [cx|]; simpl in H; [|done].
  destruct (skip cx); simplify_eq; wr.
Qed.

Lemma ctx_next_writes w k args r :
  ctx_next rec w k args = Some r → writes w (store r).
Proof.
  unfold ctx_next. intros H.
  destruct (ctxs w !! k) as [cx|]; simpl in H; [|done].
  destruct (nextOnce cx); simplify_eq; [wr|].
  apply rec_writes in H. eapply writes_trans; [|exact H]. wr.
Qed.

Lemma ctx_chain_writes w k fb eb nh r :
  ctx_chain w k fb eb nh = Some r → writes w (store r).
Proof.
  unfold ctx_chain. intros H.
  destruct (ctxs w !! k) as [cx|]; simpl in H; [|done]. simplify_eq.
  apply _chain_writes.
Qed.

Lemma ctx_reject_writes w k args r :
  ctx_reject rec w k args = Some r → writes w (store r).
Proof.
  unfold ctx_reject. intros H.
  destruct (ctxs w !! k) as [cx|]; simpl in H; [|done].
  apply ctx_next_writes in H. eapply writes_trans; [|exact H]. wr.
Qed.

Lemma run_cmd_writes w k cmd r :
  run_cmd rec w k cmd = Some r → writes w (store r).
Proof.
  destruct cmd; simpl;
    eauto using ctx_delay_writes, ctx_next_writes, ctx_reject_writes,
      ctx_chain_writes.
Qed.

Lemma run_cmds_writes cmds : ∀ w k r,
  run_cmds rec w k cmds = Some r → writes w (store r).
Proof.
  induction cmds as [|cmd cmds IH]; intros w k r H; simpl in H.
  - simplify_eq. wr.
  - eapply and_then_writes;
      [exact H | intros r1; apply run_cmd_writes | intros w1 r2; apply IH].
Qed.

Lemma Chain_resolve_writes w c r :
  Chain_resolve rec w c = Some r → writes w (store r).
Proof.
  unfold Chain_resolve. intros H.
  destruct (chains w !! c) as [ch|] eqn:Hc; simpl in H; [|done].
  destruct (_ || _); simplify_eq; [wr|].
  destruct (_immediate ch) eqn:Hi; simpl in H.
  - apply rec_writes in H. eapply writes_trans; [|exact H]. wr.
  - simplify_eq. wr.
Qed.

Lemma Chain_chain_writes w c fb eb nh r :
  Chain_chain rec w c fb eb nh = Some r → writes w (store r).
Proof.
  unfold Chain_chain. intros H. apply Chain_resolve_writes in H.
  eapply writes_trans; [|exact H]. apply _chain_writes.
Qed.

Lemma whenDone_writes w j r : whenDone rec w j = Some r → writes w (store r).
Proof.
  unfold whenDone. intros H.
  destruct (joins w !! j) as [jn|]; simpl in H; [|done].
  destruct (_ =? _); simplify_eq; [|wr].
  destruct (ctx jn) as [k|]; simplify_eq; [|wr].
  destruct (errResults jn); eauto using ctx_reject_writes, ctx_next_writes.
Qed.

Lemma reject_on_this_writes (isC : bool) this err w r :
  (if isC then
     match this with
     | Some k => ctx_reject rec w k [err]
     | None => Some (Raise w TypeError)
     end
   else Some (Ok w)) = Some r →
  writes w (store r).
Proof.
  destruct isC; [|intros; simplify_eq; wr].
  destruct this; [apply ctx_reject_writes | intros; simplify_eq; wr].
Qed.

Lemma run_handler_writes w this h args w' out :
  run_handler rec w this h args = Some (w', out) → writes w w'.
Proof.
  intros H. destruct h; simpl in H.
  - destruct (body args) as [cmds o]. destruct this as [k|]; simplify_eq; [|wr].
    eapply ends_writes; [exact H|]. apply run_cmds_writes.
  - destruct this as [k0|]; simplify_eq; [|wr].
    eapply ends_writes; [exact H|]. intros r1 H1.
    eapply and_then_writes; [exact H1 | apply ctx_delay_writes |].
    intros; cbv beta in *; simplify_eq; wr.
  - destruct (joins w !! j) as [jn|]; simpl in H; [|done].
    destruct (default false _); simplify_eq; [wr|].
    destruct (whenDone _ _ _) as [[w1|w1 e]|] eqn:H1; [| |done].
    + apply whenDone_writes in H1.
      destruct (joins w1 !! j); simpl in H; [|done]. simplify_eq.
      eapply writes_trans; [|exact H1]. wr.
    + apply whenDone_writes in H1. simplify_eq.
      eapply writes_trans; [|exact H1]. wr.
  - destruct (joins w !! j) as [jn|]; simpl in H; [|done].
    destruct (default false _); simplify_eq; [wr|].
    eapply (writes_trans _ (upd_join j (settled k None (Some (hd VUndef args))) w));
      [wr|].
    eapply ends_writes; [exact H|]. intros r1 H1.
    eapply and_then_writes; [exact H1 | apply whenDone_writes |].
    apply reject_on_this_writes.
  - destruct args as [|a [|b args]].
    + destruct this as [k0|]; simplify_eq; [|wr].
      eapply ends_writes; [exact H|]. apply ctx_next_writes.
    + destruct (isArray a); simplify_eq; [|wr].
      destruct this as [k0|]; simplify_eq; [|wr].
      eapply ends_writes; [exact H|]. apply ctx_next_writes.
    + destruct this as [k0|]; simplify_eq; [|wr].
      eapply ends_writes; [exact H|]. apply ctx_next_writes.
  - destruct this as [k0|]; simplify_eq; [|wr].
    eapply ends_writes; [exact H|]. apply ctx_reject_writes.
  - eapply (writes_trans _ (upd_chain c (set_paused false) w)); [wr|].
    eapply ends_writes; [exact H|]. apply rec_writes.
  - eapply (writes_trans _
              (upd_chain c (λ ch, set_error (hd VUndef args) (set_paused false ch)) w));
      [wr|].
    eapply ends_writes; [exact H|]. intros r1 H1.
    eapply and_then_writes; [exact H1 | apply rec_writes |].
    apply reject_on_this_writes.
Qed.

Lemma settle_writes w c k value r :
  settle rec w c k value = Some r → writes w (store r).
Proof.
  unfold settle. intros H.
  destruct (ctxs w !! k) as [cx|]; simpl in H; [|done].
  destruct (chains w !! c) as [ch|]; simpl in H; [|done].
  destruct (_ || _); [by eapply rec_writes|].
  eapply and_then_writes; [exact H | |].
  - intros r1 H1.
    destruct value;
      try (apply rec_writes in H1; eapply writes_trans; [|exact H1]; wr).
    + apply Chain_chain_writes in H1. eapply writes_trans; [|exact H1]. wr.
    + simplify_eq. wr.
  - intros w1 r2 H2. cbv beta in H2.
    destruct (chains w1 !! c); simpl in H2; [|done]. simplify_eq. wr.
Qed.

Lemma resolve_body_writes w c args r :
  resolve_body rec w c args = Some r → writes w (store r).
Proof.
  unfold resolve_body. intros H.
  destruct (chains w !! c) as [ch|] eqn:Hc; simpl in H; [|done].
  set (w0 := if length args =? 0 then w else upd_chain c (set_value (VArr args)) w) in *.
  assert (writes w w0) as Hw0 by (subst w0; wr).
  clearbody w0.
  destruct (length (_pending ch) =? 0); simplify_eq.
  { wr. }
  destruct (_paused ch); simplify_eq; [wr|].
  destruct (_unPending ch ++ _pending ch) as [|fns rest]; [done|].
  set (w1 := upd_chain c _ w0) in *.
  assert (writes w w1) as Hw1 by (subst w1; wr).
  assert (ctxs w0 = ctxs w1) as Hk by done.
  clearbody w1. rewrite Hk in H. clear Hk.
  destruct (negb _); [apply rec_writes in H; by eapply writes_trans|].
  set (w2 := set_ctxs _ w1) in *.
  assert (writes w w2) as Hw2 by (subst w2; wr).
  clearbody w2.
  destruct (negb (is_undefined (_error ch))).
  - destruct (errback fns) as [h|]; [|apply rec_writes in H; by eapply writes_trans].
    unfold call in H.
    match type of H with (?m ≫= _) = _ => destruct m as [[w3 out]|] eqn:H3 end;
      simpl in H; [|done].
    apply run_handler_writes in H3.
    assert (writes w w3) as Hw3.
    { eapply writes_trans; [|exact H3]. wr. }
    destruct out as [val|e]; apply settle_writes in H;
      (eapply writes_trans; [|exact H]); wr.
  - destruct (fallback fns) as [h|]; [|apply rec_writes in H; by eapply writes_trans].
    unfold call in H.
    match type of H with (?m ≫= _) = _ => destruct m as [[w3 out]|] eqn:H3 end;
      simpl in H; [|done].
    apply run_handler_writes in H3.
    assert (writes w w3) as Hw3.
    { eapply writes_trans; [|exact H3]. wr. }
    destruct out as [val|e].
    + apply settle_writes in H. by eapply writes_trans.
    + destruct (is_nullish e); simplify_eq; [wr|].
      apply settle_writes in H. eapply writes_trans; [|exact H]. wr.
Qed.

End Writes.

Lemma resolve_writes fuel : ∀ w c args r,
  resolve fuel w c args = Some r → writes w (store r).
Proof.
  induction fuel as [|n IH]; intros w c args r H; simpl in H; [done|].
  by eapply resolve_body_writes.
Qed.

Section WritesApi.

Variable fuel : nat.
Let rec := resolve fuel.
Let Hr : ∀ w c args r, rec w c args = Some r → writes w (store r) :=
  resolve_writes fuel.

Lemma new_Chain_writes w value fb eb nh r :
  new_Chain rec w value fb eb nh = Some r → writes w (store r).
Proof.
  unfold new_Chain. intros H.
  match type of H with match ?m with _ => _ end = _ => destruct m as [ch|] eqn:E end.
  - apply (Chain_chain_writes _ Hr) in H.
    eapply writes_trans; [|exact H]. wr.
  - simplify_eq. wr.
Qed.

Lemma fail_writes w err r : fail rec w err = Some r → writes w (store r).
Proof.
  unfold fail, start. intros H.
  eapply and_then_writes; [exact H | apply new_Chain_writes |].
  intros; cbv beta in *; simplify_eq; wr.
Qed.

Lemma all_loop_writes values : ∀ w j i r,
  all_loop rec w j values i = Some r → writes w (store r).
Proof.
  induction values as [|v values IH]; intros w j i r H; simpl in H.
  - simplify_eq. wr.
  - eapply and_then_writes; [exact H | | intros w1 r2; apply IH].
    intros r1 H1. destruct v; simplify_eq; try wr.
    by eapply (Chain_chain_writes _ Hr).
Qed.

Lemma all_writes w values r : all rec w values = Some r → writes w (store r).
Proof.
  unfold all, now, start. intros H.
  destruct (length values =? 0); [by eapply new_Chain_writes|].
  eapply writes_trans; [|eapply and_then_writes; [exact H | apply new_Chain_writes |]];
    [wr|].
  intros w1 r2 H2. cbv beta in H2.
  eapply writes_trans; [|eapply and_then_writes; [exact H2 | apply all_loop_writes |]];
    [wr|].
  intros w2 r3 H3. cbv beta in H3.
  destruct (joins w2 !! _) as [jn|]; simpl in H3; [|done].
  destruct (complete _ =? _); simplify_eq; [|wr].
  by eapply (whenDone_writes _ Hr).
Qed.

Lemma run_op_writes w op r : run_op fuel w op = Some r → writes w (store r).
Proof.
  destruct op; intros H; unfold run_op in H.
  - simplify_eq. apply (writes_more _ w); [wr | apply write_default].
  - exact (new_Chain_writes _ _ _ _ _ _ H).
  - exact (new_Chain_writes _ _ _ _ _ _ H).
  - exact (fail_writes _ _ _ H).
  - exact (all_writes _ _ _ H).
  - by eapply (Chain_chain_writes _ Hr).
  - unfold Chain_spread in H.
    eapply and_then_writes; [exact H | |]; intros *;
      apply (Chain_chain_writes _ Hr).
  - by eapply (Chain_chain_writes _ Hr).
  - by eapply (Chain_resolve_writes _ Hr).
  - unfold run_tick in H. destruct (ticks w) as [|c0 rest] eqn:Ht.
    + simplify_eq. wr.
    + apply Hr in H. eapply writes_trans; [|exact H].
      apply (writes_more _ w); [wr | by eapply write_ticked].
  - unfold thenable_calls in H.
    destruct (registered w !! r0) as [[[t f] g]|]; simpl in H; [|done].
    destruct (run_handler _ _ _ _ _) as [[w1 o]|] eqn:H1; simpl in H; [|done].
    simplify_eq. by eapply (run_handler_writes _ Hr).
  - by eapply (ctx_next_writes _ Hr).
  - by eapply (ctx_reject_writes _ Hr).
Qed.

End WritesApi.

Lemma run_ops_writes fuel ops : ∀ w r,
  run_ops fuel w ops = Some r → writes w (store r).
Proof.
  induction ops as [|op ops IH]; intros w r H; simpl in H.
  - simplify_eq. wr.
  - eapply and_then_writes; [exact H | apply run_op_writes | apply IH].
Qed.

Lemma ctx_kept_refl w : ctx_kept w w.
Proof. intros k cx Hk. by exists cx. Qed.

Lemma ctx_kept_trans w1 w2 w3 : ctx_kept w1 w2 → ctx_kept w2 w3 → ctx_kept w1 w3.
Proof.
  intros H1 H2 k cx Hk.
  destruct (H1 k cx Hk) as (cx2 & Hk2 & Hs2 & Hsk2 & Hn2).
  destruct (H2 k cx2 Hk2) as (cx3 & Hk3 & Hs3 & Hsk3 & Hn3).
  exists cx3. split_and!; [done | congruence | auto | auto].
Qed.

Lemma ctx_kept_upd w k0 f :
  (∀ cx, self (f cx) = self cx ∧ (skip cx = true → skip (f cx) = true) ∧
         (nextOnce cx = true → nextOnce (f cx) = true)) →
  ctx_kept w (upd_ctx k0 f w).
Proof.
  intros Hf k cx Hk. simpl. destruct (decide (k = k0)) as [->|Hne].
  - exists (f cx). rewrite list_lookup_alter_eq, Hk. split; [done|]. apply Hf.
  - exists cx. by rewrite list_lookup_alter_ne.
Qed.

Lemma ctx_kept_same w w' : ctxs w' = ctxs w → ctx_kept w w'.
Proof. intros E k cx Hk. exists cx. by rewrite E. Qed.

Lemma write_ctx_kept w w' : write w w' → ctx_kept w w'.
Proof.
  intros []; try (apply ctx_kept_same; reflexivity).
  - intros k cx0 Hk. exists cx0. simpl.
    by rewrite lookup_app_l by (by eapply lookup_lt_Some).
  - by apply ctx_kept_upd.
  - by apply ctx_kept_upd.
Qed.

Lemma writes_ctx_kept w w' : writes w w' → ctx_kept w w'.
Proof.
  induction 1 as [|w w1 w2 _ IH Hw]; [apply ctx_kept_refl|].
  eapply ctx_kept_trans; [exact IH | by apply write_ctx_kept].
Qed.

Lemma join_kept_refl w : join_kept w w.
Proof. intros j jn Hj. by exists jn. Qed.

Lemma join_kept_trans w1 w2 w3 :
  join_kept w1 w2 → join_kept w2 w3 → join_kept w1 w3.
Proof.
  intros H1 H2 j jn Hj.
  destruct (H1 j jn Hj) as (jn2 & Hj2 & Hl2 & Hc2 & Hd2).
  destruct (H2 j jn2 Hj2) as (jn3 & Hj3 & Hl3 & Hc3 & Hd3).
  exists jn3. split_and!; [done | congruence | lia | auto].
Qed.

Lemma join_kept_upd w j0 f :
  (∀ jn, len (f jn) = len jn ∧ complete jn ≤ complete (f jn) ∧
         (∀ i, done jn !! i = Some true → done (f jn) !! i = Some true)) →
  join_kept w (upd_join j0 f w).
Proof.
  intros Hf j jn Hj. simpl. destruct (decide (j = j0)) as [->|Hne].
  - exists (f jn). rewrite list_lookup_alter_eq, Hj. split; [done|]. apply Hf.
  - exists jn. by rewrite list_lookup_alter_ne.
Qed.

Lemma join_kept_same w w' : joins w' = joins w → join_kept w w'.
Proof. intros E j jn Hj. exists jn. by rewrite E. Qed.

Lemma write_join_kept w w' : write w w' → join_kept w w'.
Proof.
  intros []; try (apply join_kept_same; reflexivity).
  - intros j jn Hj. exists jn. simpl.
    by rewrite lookup_app_l by (by eapply lookup_lt_Some).
  - by apply join_kept_upd.
  - by apply join_kept_upd.
  - apply join_kept_upd. intros jn. simpl. split_and!; [done | lia |].
    intros i0 Hi. destruct (decide (i0 = i)) as [->|Hne].
    + apply list_lookup_insert_eq. by eapply lookup_lt_Some.
    + by rewrite list_lookup_insert_ne.
  - apply join_kept_upd. intros jn. simpl. split_and!; [done | lia | done].
Qed.

Lemma writes_join_kept w w' : writes w w' → join_kept w w'.
Proof.
  induction 1 as [|w w1 w2 _ IH Hw]; [apply join_kept_refl|].
  eapply join_kept_trans; [exact IH | by apply write_join_kept].
Qed.

(** ** Once and for all *)

(** Once a context's [next] (or [resume]) has been honoured, it is never
    honoured again, and [delay] (or [pause]) on it never suspends the
    chain again: whatever client program runs in between, a later call of
    [next] or of [delay] on the context returns at once and changes
    nothing. *)
Theorem next_is_honoured_once_for_good (fuel fuel' fuel'' : nat) (w : World)
    (k : nat) (cx : Ctx) (args args' : list Val) (r1 r2 : Res) (ops : list Op) :
  ctxs w !! k = Some cx → nextOnce cx = false →
  ctx_next (resolve fuel) w k args = Some r1 →
  run_ops fuel' (store r1) ops = Some r2 →
  ctx_next (resolve fuel'') (store r2) k args' = Some (Ok (store r2)) ∧
  ctx_delay (store r2) k = Some (Ok (store r2)).
Proof.
  intros Hk Hn H1 H2.
  assert (∃ cx2, ctxs (store r2) !! k = Some cx2 ∧ skip cx2 = true ∧
                 nextOnce cx2 = true) as (cx2 & Hk2 & Hs2 & Hn2).
  { unfold ctx_next in H1. rewrite Hk in H1. simpl in H1. rewrite Hn in H1.
    apply resolve_writes, writes_ctx_kept in H1.
    apply run_ops_writes, writes_ctx_kept in H2.
    destruct (H1 k (set_nextOnce true (set_skip true cx)))
      as (cx1 & Hk1 & _ & Hs1 & Hn1).
    { simpl. by rewrite list_lookup_alter_eq, Hk. }
    destruct (H2 k cx1 Hk1) as (cx2 & Hk2 & _ & Hs2 & Hn2).
    exists cx2. split_and!; [done | by apply Hs2, Hs1 | by apply Hn2, Hn1]. }
  split.
  - unfold ctx_next. rewrite Hk2. simpl. by rewrite Hn2.
  - unfold ctx_delay. rewrite Hk2. simpl. by rewrite Hs2.
Qed.

(** An entry of [all] is counted once: when one of the two functions that
    [all] gave to the entry [i] has been called, then, whatever client
    program runs in between, a later call of either of them (by a chain or
    by a thenable, with any arguments) returns at once and changes
    nothing. *)
Theorem entry_of_all_counts_once (fuel fuel' fuel'' : nat) (w w1 : World)
    (j i : nat) (jn : Join) (failed isC isC' : bool) (this this' : option nat)
    (args args' : list Val) (out : Outcome) (ops : list Op) (r2 : Res) :
  joins w !! j = Some jn → i < length (done jn) →
  run_handler (resolve fuel) w this
    (if failed then HAllErr j i isC else HAllOk j i isC) args = Some (w1, out) →
  run_ops fuel' w1 ops = Some r2 →
  run_handler (resolve fuel'') (store r2) this' (HAllOk j i isC') args' =
    Some (store r2, Return VUndef) ∧
  run_handler (resolve fuel'') (store r2) this' (HAllErr j i isC') args' =
    Some (store r2, Return VUndef).
Proof.
  intros Hj Hi H1 H2.
  assert (∃ jn1, joins w1 !! j = Some jn1 ∧ done jn1 !! i = Some true)
    as (jn1 & Hj1 & Hd1).
  { destruct (default false (done jn !! i)) eqn:Hd.
    - assert (done jn !! i = Some true) as Hd'.
      { destruct (done jn !! i) as [[]|]; by simplify_eq. }
      destruct failed; simpl in H1; rewrite Hj in H1; simpl in H1;
        rewrite Hd in H1; simplify_eq; by exists jn.
    - assert (∀ r err,
                ∃ jn0, joins (upd_join j (settled i r err) w) !! j = Some jn0 ∧
                       done jn0 !! i = Some true) as Hset.
      { intros r err. eexists. simpl. rewrite list_lookup_alter_eq, Hj.
        split; [done|]. simpl. by apply list_lookup_insert_eq. }
      destruct failed; simpl in H1; rewrite Hj in H1; simpl in H1;
        rewrite Hd in H1.
      + destruct (Hset None (Some (hd VUndef args))) as (jn0 & Hj0 & Hd0).
        eapply ends_writes in H1; cycle 1.
        { intros r1 Hr1.
          eapply and_then_writes;
            [exact Hr1 | apply whenDone_writes, resolve_writes |].
          apply reject_on_this_writes, resolve_writes. }
        apply writes_join_kept in H1.
        destruct (H1 j jn0 Hj0) as (jn1 & Hj1 & _ & _ & Hd1).
        exists jn1. split; [done | by apply Hd1].
      + destruct (Hset (Some (if 1 <? length args then VArr args
                                else hd VUndef args)) None)
          as (jn0 & Hj0 & Hd0).
        destruct (whenDone _ _ _) as [[w2|w2 e]|] eqn:Hw; [| |done].
        * apply whenDone_writes, writes_join_kept in Hw;
            [|apply resolve_writes].
          destruct (Hw j jn0 Hj0) as (jn1 & Hj1 & _ & _ & Hd1).
          simpl in Hj1. rewrite Hj1 in H1. simpl in H1. simplify_eq.
          exists jn1. split; [done | by apply Hd1].
        * apply whenDone_writes, writes_join_kept in Hw;
            [|apply resolve_writes].
          destruct (Hw j jn0 Hj0) as (jn1 & Hj1 & _ & _ & Hd1).
          simplify_eq. exists jn1. split; [done | by apply Hd1]. }
  apply run_ops_writes, writes_join_kept in H2.
  destruct (H2 j jn1 Hj1) as (jn2 & Hj2 & _ & _ & Hd2).
  specialize (Hd2 i Hd1).
  split; simpl; rewrite Hj2; simpl; by rewrite Hd2.
Qed.

(** ** A paused chain stays paused *)

Section Dormant.

Variable c : nat.

(** A change of the store that touches nothing [dormant] speaks of. *)
Lemma dormant_same w w' :
  chains w' = chains w → ctxs w' = ctxs w → trace w' = trace w →
  registered w' = registered w → dormant c w → dormant c w'.
Proof.
  intros Hc Hk Ht Hr [H1 H2 H3 H4 H5].
  split; rewrite ?Hc, ?Hk, ?Ht, ?Hr; done.
Qed.

(** An update of a chain that keeps chain [c] paused and queues foreign
    functions only. *)
Lemma dormant_upd_chain w d f :
  dormant c w →
  (∀ ch, chains w !! d = Some ch →
         Forall (foreign_step c) (_pending ch) →
         Forall (foreign_step c) (_unPending ch) →
         (d = c → _paused ch = true → _paused (f ch) = true) ∧
         Forall (foreign_step c) (_pending (f ch)) ∧
         Forall (foreign_step c) (_unPending (f ch))) →
  dormant c (upd_chain d f w).
Proof.
  intros [(ch & Hc & Hp) H2 H3 H4 H5] Hf. split; simpl; try done.
  - destruct (decide (c = d)) as [<-|Hne].
    + exists (f ch). rewrite list_lookup_alter_eq, Hc. split; [done|].
      destruct (H4 c ch Hc) as [Hq Hu]. by apply (Hf ch Hc Hq Hu).
    + exists ch. by rewrite list_lookup_alter_ne.
  - intros d' ch'. destruct (decide (d' = d)) as [->|Hne].
    + rewrite list_lookup_alter_eq.
      destruct (chains w !! d) as [ch0|] eqn:Hd; [|done]. intros [= <-].
      destruct (H4 d ch0 Hd) as [Hq Hu]. by apply (Hf ch0 eq_refl Hq Hu).
    + rewrite list_lookup_alter_ne by done. intros Hd'. by eapply H4.
Qed.

Lemma dormant_new_chain w ch :
  dormant c w → _pending ch = [] → _unPending ch = [] →
  dormant c (set_chains (chains w ++ [ch]) w).
Proof.
  intros [(ch0 & Hc & Hp) H2 H3 H4 H5] Hq Hu. split; simpl; try done.
  - exists ch0. by rewrite lookup_app_l by (by eapply lookup_lt_Some).
  - intros d ch'. rewrite lookup_app_Some. intros [Hd|[_ Hd]]; [by eapply H4|].
    apply list_lookup_singleton_Some in Hd as [_ <-]. by rewrite Hq, Hu.
Qed.

Lemma dormant_new_ctx w d s n :
  dormant c w → d ≠ c →
  dormant c (set_ctxs (ctxs w ++ [mkCtx d s n]) w).
Proof.
  intros [H1 H2 H3 H4 H5] Hne. split; simpl; try done.
  intros k cx. rewrite lookup_app_Some. intros [Hk|[_ Hk]]; [by eapply H2|].
  apply list_lookup_singleton_Some in Hk as [_ <-]. done.
Qed.

Lemma dormant_upd_ctx w k f :
  dormant c w → (∀ cx, self (f cx) = self cx) → dormant c (upd_ctx k f w).
Proof.
  intros [H1 H2 H3 H4 H5] Hf. split; simpl; try done.
  intros k' cx'. destruct (decide (k' = k)) as [->|Hne].
  - rewrite list_lookup_alter_eq. destruct (ctxs w !! k) as [cx|] eqn:Hk; [|done].
    intros [= <-]. rewrite Hf. by eapply H2.
  - rewrite list_lookup_alter_ne by done. apply H2.
Qed.

Lemma dormant_call w d slot h args :
  dormant c w → d ≠ c →
  dormant c (set_trace (trace w ++ [mkCall d slot h args]) w).
Proof.
  intros [H1 H2 H3 H4 H5] Hne. split; simpl; try done.
  intros x. rewrite elem_of_app, list_elem_of_singleton.
  intros [Hx| ->]; [by apply H3 | done].
Qed.

Lemma dormant_registered w t f g :
  dormant c w → foreign c f → foreign c g →
  dormant c (set_registered (registered w ++ [(t, f, g)]) w).
Proof.
  intros [H1 H2 H3 H4 H5] Hf Hg. split; simpl; try done.
  intros t' f' g'. rewrite elem_of_app, list_elem_of_singleton.
  intros [Hx|Hx]; [by eapply H5|]. by simplify_eq.
Qed.

Lemma foreign_none : foreign_opt c None.
Proof. by intros h. Qed.

(** A closure of the library, or a function at hand, is foreign. *)
Ltac fo :=
  solve [ assumption | apply foreign_none
        | intros ? [= <-]; constructor; done ].

(** [dormant c w'] for a [w'] built by writes that queue nothing and
    resume nothing. *)
Ltac dm :=
  lazymatch goal with
  | H : dormant c ?w |- dormant c ?w => exact H
  | |- dormant c (store (Ok ?w1)) => change (dormant c w1); dm
  | |- dormant c (store (Raise ?w1 _)) => change (dormant c w1); dm
  | |- dormant c (upd_join _ _ ?w1) =>
    apply (dormant_same w1); [reflexivity.. | dm]
  | |- dormant c (set_joins _ ?w1) =>
    apply (dormant_same w1); [reflexivity.. | dm]
  | |- dormant c (set_ticks _ ?w1) =>
    apply (dormant_same w1); [reflexivity.. | dm]
  | |- dormant c (upd_ctx _ _ ?w1) =>
    apply dormant_upd_ctx; [dm | reflexivity]
  | |- dormant c (upd_chain _ _ ?w1) =>
    apply dormant_upd_chain;
    [dm | intros ? ? ? ?; split_and!; [simpl; try done; congruence | done | done]]
  | |- dormant c (if ?b then _ else _) => destruct b; dm
  end.

Lemma and_then_dormant m k r :
  and_then m k = Some r →
  (∀ r1, m = Some r1 → dormant c (store r1)) →
  (∀ w1 r2, dormant c w1 → k w1 = Some r2 → dormant c (store r2)) →
  dormant c (store r).
Proof.
  intros H Hm Hk. destruct m as [[w1|w1 e]|]; simpl in H; [| |done].
  - eapply Hk; [|exact H]. exact (Hm _ eq_refl).
  - simplify_eq. exact (Hm _ eq_refl).
Qed.

Lemma ends_dormant m out w' o :
  ends m out = Some (w', o) →
  (∀ r1, m = Some r1 → dormant c (store r1)) →
  dormant c w'.
Proof.
  intros H Hm. destruct m as [[w1|w1 e]|]; simpl in H; simplify_eq;
    exact (Hm _ eq_refl).
Qed.

Lemma _chain_dormant w d fb eb nh prepend :
  dormant c w → foreign_opt c fb → foreign_opt c eb →
  dormant c (_chain w d fb eb nh prepend).
Proof.
  intros Hw Hfb Heb. unfold _chain. destruct (_ || _); [|done].
  apply dormant_upd_chain; [done|]. intros ch Hd Hq Hu.
  destruct prepend; simpl; (split_and!; [done | |]); try done;
    apply Forall_app; (split; [done|]); by repeat constructor.
Qed.

Section DormantEngine.

Variable rec : World → nat → list Val → option Res.
Hypothesis rec_dormant :
  ∀ w d args r, dormant c w → rec w d args = Some r → dormant c (store r).

Lemma ctx_delay_dormant w k r :
  dormant c w → ctx_delay w k = Some r → dormant c (store r).
Proof.
  unfold ctx_delay. intros Hw H.
  destruct (ctxs w !! k) as [cx|]; simpl in H; [|done].
  destruct (skip cx); simplify_eq; dm.
Qed.

Lemma ctx_next_dormant w k args r :
  dormant c w → ctx_next rec w k args = Some r → dormant c (store r).
Proof.
  unfold ctx_next. intros Hw H.
  destruct (ctxs w !! k) as [cx|] eqn:Hk; simpl in H; [|done].
  destruct (nextOnce cx); simplify_eq; [dm|].
  pose proof (d_ctx _ _ Hw k cx Hk) as Hne.
  eapply rec_dormant; [|exact H]. dm.
Qed.

Lemma ctx_chain_dormant w k fb eb nh r :
  dormant c w → foreign_opt c fb → foreign_opt c eb →
  ctx_chain w k fb eb nh = Some r → dormant c (store r).
Proof.
  unfold ctx_chain. intros Hw Hfb Heb H.
  destruct (ctxs w !! k) as [cx|]; simpl in H; [|done]. simplify_eq.
  by apply _chain_dormant.
Qed.

Lemma ctx_reject_dormant w k args r :
  dormant c w → ctx_reject rec w k args = Some r → dormant c (store r).
Proof.
  unfold ctx_reject. intros Hw H.
  destruct (ctxs w !! k) as [cx|]; simpl in H; [|done].
  eapply ctx_next_dormant; [|exact H]. dm.
Qed.

Lemma run_cmd_dormant w k cmd r :
  dormant c w → foreign_cmd c cmd →
  run_cmd rec w k cmd = Some r → dormant c (store r).
Proof.
  intros Hw Hcmd. destruct Hcmd; simpl;
    eauto using ctx_delay_dormant, ctx_next_dormant, ctx_reject_dormant,
      ctx_chain_dormant.
Qed.

Lemma run_cmds_dormant cmds : ∀ w k r,
  dormant c w → (∀ cmd, cmd ∈ cmds → foreign_cmd c cmd) →
  run_cmds rec w k cmds = Some r → dormant c (store r).
Proof.
  induction cmds as [|cmd cmds IH]; intros w k r Hw Hcmds H; simpl in H.
  - by simplify_eq.
  - eapply and_then_dormant; [exact H | |].
    + intros r1. apply run_cmd_dormant; [done|]. apply Hcmds. by left.
    + intros w1 r2 Hw1. apply IH; [done|]. intros x Hx. apply Hcmds. by right.
Qed.

Lemma Chain_resolve_dormant w d r :
  dormant c w → Chain_resolve rec w d = Some r → dormant c (store r).
Proof.
  unfold Chain_resolve. intros Hw H.
  destruct (chains w !! d) as [ch|] eqn:Hc; simpl in H; [|done].
  destruct (_ || _); simplify_eq; [dm|].
  destruct (_immediate ch) eqn:Hi; simpl in H.
  - eapply rec_dormant; [|exact H]. dm.
  - simplify_eq. dm.
Qed.

Lemma Chain_chain_dormant w d fb eb nh r :
  dormant c w → foreign_opt c fb → foreign_opt c eb →
  Chain_chain rec w d fb eb nh = Some r → dormant c (store r).
Proof.
  unfold Chain_chain. intros Hw Hfb Heb H.
  eapply Chain_resolve_dormant; [|exact H]. by apply _chain_dormant.
Qed.

Lemma whenDone_dormant w j r :
  dormant c w → whenDone rec w j = Some r → dormant c (store r).
Proof.
  unfold whenDone. intros Hw H.
  destruct (joins w !! j) as [jn|]; simpl in H; [|done].
  destruct (_ =? _); simplify_eq; [|dm].
  destruct (ctx jn) as [k|]; simplify_eq; [|dm].
  destruct (errResults jn); eauto using ctx_reject_dormant, ctx_next_dormant.
Qed.

Lemma reject_on_this_dormant (isC : bool) this err w r :
  dormant c w →
  (if isC then
     match this with
     | Some k => ctx_reject rec w k [err]
     | None => Some (Raise w TypeError)
     end
   else Some (Ok w)) = Some r →
  dormant c (store r).
Proof.
  intros Hw. destruct isC; [|intros; simplify_eq; dm].
  destruct this; [by apply ctx_reject_dormant | intros; simplify_eq; dm].
Qed.

Lemma run_handler_dormant w this h args w' out :
  dormant c w → foreign c h →
  run_handler rec w this h args = Some (w', out) → dormant c w'.
Proof.
  intros Hw Hh H. destruct Hh as [body Hbody| | | | | |d Hd|d isC Hd]; simpl in H.
  - specialize (Hbody args). destruct (body args) as [cmds o].
    destruct this as [k|]; simplify_eq; [|dm].
    eapply ends_dormant; [exact H|]. intros r1. by apply run_cmds_dormant.
  - destruct this as [k0|]; simplify_eq; [|dm].
    eapply ends_dormant; [exact H|]. intros r1 H1.
    eapply and_then_dormant; [exact H1 | intros r2; by apply ctx_delay_dormant |].
    intros; cbv beta in *; simplify_eq; dm.
  - destruct (joins w !! j) as [jn|]; simpl in H; [|done].
    destruct (default false _); simplify_eq; [dm|].
    destruct (whenDone _ _ _) as [[w1|w1 e]|] eqn:H1; [| |done].
    + apply whenDone_dormant in H1; [|dm].
      destruct (joins w1 !! j); simpl in H; [|done]. by simplify_eq.
    + apply whenDone_dormant in H1; [|dm]. by simplify_eq.
  - destruct (joins w !! j) as [jn|]; simpl in H; [|done].
    destruct (default false _); simplify_eq; [dm|].
    eapply ends_dormant; [exact H|]. intros r1 H1.
    eapply and_then_dormant; [exact H1 | |].
    + intros r2. apply whenDone_dormant. dm.
    + intros w1 r2. apply reject_on_this_dormant.
  - destruct args as [|a [|b args]].
    + destruct this as [k0|]; simplify_eq; [|dm].
      eapply ends_dormant; [exact H|]. intros r1. by apply ctx_next_dormant.
    + destruct (isArray a); simplify_eq; [|dm].
      destruct this as [k0|]; simplify_eq; [|dm].
      eapply ends_dormant; [exact H|]. intros r1. by apply ctx_next_dormant.
    + destruct this as [k0|]; simplify_eq; [|dm].
      eapply ends_dormant; [exact H|]. intros r1. by apply ctx_next_dormant.
  - destruct this as [k0|]; simplify_eq; [|dm].
    eapply ends_dormant; [exact H|]. intros r1. by apply ctx_reject_dormant.
  - eapply ends_dormant; [exact H|]. intros r1. apply rec_dormant. dm.
  - eapply ends_dormant; [exact H|]. intros r1 H1.
    eapply and_then_dormant; [exact H1 | |].
    + intros r2. apply rec_dormant. dm.
    + intros w1 r2. apply reject_on_this_dormant.
Qed.

Lemma settle_dormant w d k value r :
  dormant c w → d ≠ c →
  settle rec w d k value = Some r → dormant c (store r).
Proof.
  unfold settle. intros Hw Hne H.
  destruct (ctxs w !! k) as [cx|]; simpl in H; [|done].
  destruct (chains w !! d) as [ch|]; simpl in H; [|done].
  destruct (_ || _); [by eapply rec_dormant|].
  eapply and_then_dormant; [exact H | |].
  - intros r1 H1.
    destruct value;
      try (eapply rec_dormant; [|exact H1]; dm).
    + eapply Chain_chain_dormant; [| | |exact H1]; [dm | fo | fo].
    + simplify_eq.
      apply (dormant_registered (upd_chain d (set_paused true) w));
        [dm | by constructor..].
  - intros w1 r2 Hw1 H2. cbv beta in H2.
    destruct (chains w1 !! d); simpl in H2; [|done]. simplify_eq. dm.
Qed.

Lemma resolve_body_dormant w d args r :
  dormant c w → resolve_body rec w d args = Some r → dormant c (store r).
Proof.
  unfold resolve_body. intros Hw H.
  destruct (chains w !! d) as [ch|] eqn:Hc; simpl in H; [|done].
  set (w0 := if length args =? 0 then w else upd_chain d (set_value (VArr args)) w) in *.
  assert (dormant c w0) as Hw0 by (subst w0; dm).
  clearbody w0.
  destruct (length (_pending ch) =? 0); simplify_eq.
  { dm. }
  destruct (_paused ch) eqn:Hp; simplify_eq; [dm|].
  assert (d ≠ c) as Hne.
  { intros ->. destruct (d_paused _ _ Hw) as (ch' & Hc' & Hp'). congruence. }
  destruct (d_queues _ _ Hw d ch Hc) as [Hq Hu].
  destruct (_unPending ch ++ _pending ch) as [|fns rest] eqn:Hfns; [done|].
  assert (Forall (foreign_step c) (fns :: rest)) as Hall.
  { rewrite <- Hfns. by apply Forall_app. }
  apply Forall_cons in Hall as [[Hfb Heb] Hrest].
  set (w1 := upd_chain d _ w0) in *.
  assert (dormant c w1) as Hw1.
  { subst w1. apply dormant_upd_chain; [done|]. intros; simpl.
    split_and!; [congruence | done | done]. }
  assert (ctxs w0 = ctxs w1) as Hk by done.
  clearbody w1. rewrite Hk in H. clear Hk.
  destruct (negb _); [by eapply rec_dormant|].
  set (w2 := set_ctxs _ w1) in *.
  assert (dormant c w2) as Hw2 by (subst w2; by apply dormant_new_ctx).
  clearbody w2.
  destruct (negb (is_undefined (_error ch))).
  - destruct (errback fns) as [h|]; [|by eapply rec_dormant].
    unfold call in H.
    match type of H with (?m ≫= _) = _ => destruct m as [[w3 out]|] eqn:H3 end;
      simpl in H; [|done].
    apply run_handler_dormant in H3; [| |by apply Heb].
    2:{ apply dormant_call; [dm | done]. }
    destruct out as [val|e]; (eapply settle_dormant; [| |exact H]); [dm|done|dm|done].
  - destruct (fallback fns) as [h|]; [|by eapply rec_dormant].
    unfold call in H.
    match type of H with (?m ≫= _) = _ => destruct m as [[w3 out]|] eqn:H3 end;
      simpl in H; [|done].
    apply run_handler_dormant in H3; [| |by apply Hfb].
    2:{ by apply dormant_call. }
    destruct out as [val|e].
    + eapply settle_dormant; [exact H3 | exact Hne | exact H].
    + destruct (is_nullish e); simplify_eq; [dm|].
      eapply settle_dormant; [| |exact H]; [dm|done].
Qed.

End DormantEngine.

Lemma resolve_dormant fuel : ∀ w d args r,
  dormant c w → resolve fuel w d args = Some r → dormant c (store r).
Proof.
  induction fuel as [|n IH]; intros w d args r Hw H; simpl in H; [done|].
  by eapply resolve_body_dormant.
Qed.

Section DormantApi.

Variable fuel : nat.
Let rec := resolve fuel.
Let Hr : ∀ w d args r, dormant c w → rec w d args = Some r → dormant c (store r) :=
  resolve_dormant fuel.

Lemma new_Chain_dormant w value fb eb nh r :
  dormant c w → foreign_opt c fb → foreign_opt c eb →
  new_Chain rec w value fb eb nh = Some r → dormant c (store r).
Proof.
  unfold new_Chain. intros Hw Hfb Heb H.
  match type of H with match ?m with _ => _ end = _ => destruct m as [ch|] eqn:E end.
  - eapply (Chain_chain_dormant _ Hr); [| | |exact H]; try done.
    apply dormant_new_chain; [done|..];
      destruct value as [| | | | | | | |[]| | |]; by simplify_eq.
  - by simplify_eq.
Qed.

Lemma fail_dormant w err r :
  dormant c w → fail rec w err = Some r → dormant c (store r).
Proof.
  unfold fail, start. intros Hw H.
  eapply and_then_dormant; [exact H | |].
  - intros r1. apply new_Chain_dormant; [done | fo | fo].
  - intros w1 r2 Hw1 H2. cbv beta in H2. simplify_eq.
    apply dormant_upd_chain; [done|]. intros; simpl. by split_and!.
Qed.

Lemma all_loop_dormant values : ∀ w j i r,
  dormant c w → all_loop rec w j values i = Some r → dormant c (store r).
Proof.
  induction values as [|v values IH]; intros w j i r Hw H; simpl in H.
  - by simplify_eq.
  - eapply and_then_dormant; [exact H | | intros w1 r2; apply IH].
    intros r1 H1. destruct v; simplify_eq; try dm.
    + eapply (Chain_chain_dormant _ Hr); [| | |exact H1]; [done | fo | fo].
    + apply dormant_registered; [done | constructor..].
Qed.

Lemma all_dormant w values r :
  dormant c w → all rec w values = Some r → dormant c (store r).
Proof.
  unfold all, now, start. intros Hw H.
  destruct (length values =? 0).
  { eapply new_Chain_dormant; [| | |exact H]; [exact Hw | fo | fo]. }
  eapply and_then_dormant; [exact H | |].
  - intros r1. apply new_Chain_dormant; [dm | fo | fo].
  - intros w1 r2 Hw1 H2. cbv beta in H2.
    eapply and_then_dormant; [exact H2 | |].
    + intros r1. apply all_loop_dormant. dm.
    + intros w2 r3 Hw2 H3. cbv beta in H3.
      destruct (joins w2 !! _) as [jn|]; simpl in H3; [|done].
      destruct (complete _ =? _); simplify_eq; [|dm].
      by eapply (whenDone_dormant _ Hr).
Qed.

Lemma run_op_dormant w op r :
  dormant c w → foreign_op c op → run_op fuel w op = Some r → dormant c (store r).
Proof.
  intros Hw Hop H. destruct op; unfold run_op in H; simpl in Hop.
  - simplify_eq. by apply (dormant_same w).
  - destruct Hop. eapply new_Chain_dormant; [| | |exact H]; [exact Hw | fo | fo].
  - destruct Hop. eapply new_Chain_dormant; [| | |exact H]; [exact Hw | fo | fo].
  - by eapply fail_dormant.
  - by eapply all_dormant.
  - destruct Hop. eapply (Chain_chain_dormant _ Hr); [| | |exact H]; [exact Hw | fo | fo].
  - destruct Hop. unfold Chain_spread in H.
    eapply and_then_dormant; [exact H | |].
    + intros r1. apply (Chain_chain_dormant _ Hr); [done | fo | fo].
    + intros w1 r2 Hw1. apply (Chain_chain_dormant _ Hr); [done | fo | fo].
  - eapply (Chain_chain_dormant _ Hr); [| | |exact H]; [exact Hw | fo | fo].
  - by eapply (Chain_resolve_dormant _ Hr).
  - unfold run_tick in H. destruct (ticks w) as [|c0 rest] eqn:Ht.
    + by simplify_eq.
    + eapply Hr; [|exact H]. dm.
  - unfold thenable_calls in H.
    destruct (registered w !! r0) as [[[t f] g]|] eqn:Hreg; simpl in H; [|done].
    destruct (run_handler _ _ _ _ _) as [[w1 o]|] eqn:H1; simpl in H; [|done].
    simplify_eq. eapply (run_handler_dormant _ Hr); [done | | exact H1].
    apply list_elem_of_lookup_2 in Hreg. apply (d_registered _ _ Hw) in Hreg.
    destruct ok; tauto.
  - by eapply (ctx_next_dormant _ Hr).
  - by eapply (ctx_reject_dormant _ Hr).
Qed.

End DormantApi.

Lemma run_ops_dormant fuel ops : ∀ w r,
  dormant c w → Forall (foreign_op c) ops →
  run_ops fuel w ops = Some r → dormant c (store r).
Proof.
  induction ops as [|op ops IH]; intros w r Hw Hops H; simpl in H.
  - by simplify_eq.
  - apply Forall_cons in Hops as [Hop Hops].
    eapply and_then_dormant; [exact H | |].
    + intros r1. by apply run_op_dormant.
    + intros w1 r2 Hw1. by apply IH.
Qed.

End Dormant.

(** A function that makes no call on its context is foreign to every
    chain. *)
Lemma foreign_plain (c : nat) (f : list Val → Outcome) : foreign c (plain f).
Proof. constructor. intros args cmd Hin. by apply elem_of_nil in Hin. Qed.

(** The store in which a paused chain has just been created as the first
    chain. *)
Lemma dormant_first (d : bool) (ch : Chain) :
  _paused ch = true → _pending ch = [] → _unPending ch = [] →
  dormant 0 (set_chains (chains (init_world d) ++ [ch]) (init_world d)).
Proof.
  intros Hp Hq Hu. split; simpl.
  - by exists ch.
  - intros k cx Hk. done.
  - intros x Hx. by apply elem_of_nil in Hx.
  - intros [|n] ch' Hc; [|done]. simpl in Hc. injection Hc as <-.
    by rewrite Hq, Hu.
  - intros t f g Hx. by apply elem_of_nil in Hx.
Qed.

(** A chain created paused ([start(PAUSE, ...)], or with an object whose
    [pause] is [PAUSE]) never runs: whatever client program follows its
    creation (steps attached to it or to other chains, ticks, [resolve],
    [all] over it, chains that wait for it, callbacks), no function queued
    on it is ever called and it is still paused at the end: none of the
    operations embedded here resumes it. Here the chain is the first the
    program creates; the functions of the program are any functions of a
    caller ([foreign]: they are not the two closures that a settlement of
    this chain would create, which exist only once the chain has run). *)
Theorem paused_chain_never_runs (d : bool) (value : Val) (fb eb : option Handler)
    (ops : list Op) (fuel : nat) (r : Res) :
  pauses value = true →
  foreign_opt 0 fb → foreign_opt 0 eb → Forall (foreign_op 0) ops →
  run_ops fuel (init_world d) (OStart value fb eb :: ops) = Some r →
  (∀ x, x ∈ trace (store r) → call_chain x ≠ 0) ∧
  ∃ ch, chains (store r) !! 0 = Some ch ∧ _paused ch = true.
Proof.
  intros Hv Hfb Heb Hops H.
  assert (dormant 0 (store r)) as [H1 _ H3 _ _]; [|done].
  simpl in H. eapply and_then_dormant; [exact H | |].
  - intros r1 H1. unfold start, new_Chain in H1.
    match type of H1 with match ?m with _ => _ end = _ =>
      destruct m as [ch|] eqn:E end.
    + eapply Chain_chain_dormant; [apply resolve_dormant | | | | exact H1];
        [|done|done].
      destruct value as [| | | | | | | |[]|tick now pause v| |];
        try discriminate Hv; simplify_eq; by apply dormant_first.
    + destruct value as [| | | | | | | |[]| | |]; by simplify_eq.
  - intros w1 r2 Hw1. by apply run_ops_dormant.
Qed.

(** ** Instances *)

(** C1 fails at [start({tick: TICK, value: 5})], [s1] throwing ["boom"]
    and [s2] throwing [undefined]. *)
Lemma thrown_undefined_is_no_error_witness :
  is_nullish (VStr "boom") = false ∧
  outcome 0 (run_ops 6 (init_world false)
      [OFresh false (VNum 5);
       OChain 0 (Some (throws (λ _, VStr "boom"))) None false;
       OChain 0 None (Some (throws (λ _, VUndef))) false;
       OChain 0 (Some echo) None false;
       OTick]) =
  Some ([mkCall 0 OnSuccess (throws (λ _, VStr "boom")) [VNum 5];
         mkCall 0 OnFailure (throws (λ _, VUndef)) [VStr "boom"];
         mkCall 0 OnSuccess echo [VUndef]],
        mkChain false [] [] [VStr "boom"] false false (VArr [VUndef]) VUndef).
Proof.
  split; [reflexivity|].
  exact (thrown_undefined_is_no_error false false (VNum 5) (VStr "boom") 0 eq_refl).
Defined.

(** [start({tick: TICK, value: 5})], [s1] throwing ["boom"]: with [s2]
    returning 7, and with [s2] throwing ["again"]. *)
Lemma error_skips_to_failure_handler_witness :
  is_nullish (VStr "boom") = false ∧ isThenable (VNum 7) = false ∧
  is_undefined (VStr "again") = false ∧
  let s1 := throws (λ _, VStr "boom") in
  let start := [OFresh false (VNum 5); OChain 0 (Some s1) None false] in
  outcome 0 (run_ops 6 (init_world false)
    (start ++ [OChain 0 None (Some (returns (λ _, VNum 7))) false;
               OChain 0 (Some echo) None false;
               OTick])) =
  Some ([mkCall 0 OnSuccess s1 [VNum 5];
         mkCall 0 OnFailure (returns (λ _, VNum 7)) [VStr "boom"];
         mkCall 0 OnSuccess echo [VNum 7]],
        mkChain false [] [] [VStr "boom"] false false (VArr [VNum 7]) VUndef) ∧
  outcome 0 (run_ops 6 (init_world false)
    (start ++ [OChain 0 None (Some (throws (λ _, VStr "again"))) false;
               OChain 0 (Some echo) None false;
               OTick])) =
  Some ([mkCall 0 OnSuccess s1 [VNum 5];
         mkCall 0 OnFailure (throws (λ _, VStr "again")) [VStr "boom"]],
        mkChain false [] [] [VStr "boom"] false false (VArr [VNum 5])
          (VStr "again")) ∧
  outcome 0 (run_ops 6 (init_world false)
    (start ++ [OChain 0 None (Some (throws (λ _, VStr "again"))) false;
               OChain 0 (Some echo) None false;
               OChain 0 None (Some echo) false;
               OTick])) =
  Some ([mkCall 0 OnSuccess s1 [VNum 5];
         mkCall 0 OnFailure (throws (λ _, VStr "again")) [VStr "boom"];
         mkCall 0 OnFailure echo [VStr "again"]],
        mkChain false [] [] [VStr "boom"; VStr "again"] false false
          (VArr [VStr "again"]) VUndef).
Proof.
  split; [reflexivity|]. split; [reflexivity|]. split; [reflexivity|].
  pose proof (error_skips_to_failure_handler false false (VNum 5)
                (VStr "boom") 0 eq_refl) as [H1 H2].
  split; [exact (H1 (VNum 7) eq_refl)|].
  exact (H2 (VStr "again") eq_refl).
Defined.

(** The amended C5 at the chain that threw ["boom"] and then recovered. *)
Lemma error_history_is_failure_calls_witness :
  run_ops 4 (init_world false)
    [OStart (VNum 1) (Some (throws (λ _, VStr "boom"))) None; OTick] =
    Some (Ok thrown) ∧
  run_ops 4 thrown [OChain 0 None (Some echo) false; OTick] =
    Some (Ok recovered) ∧
  chains thrown !! 0 =
    Some (mkChain false [] [] [] false false (VNum 1) (VStr "boom")) ∧
  [] = handled 0 (trace thrown) ∧
  ∃ ch2, chains recovered !! 0 = Some ch2 ∧
         [] `prefix_of` _errors ch2 ∧
         _errors ch2 = handled 0 (trace recovered).
Proof.
  assert (run_ops 4 (init_world false)
            [OStart (VNum 1) (Some (throws (λ _, VStr "boom"))) None; OTick] =
          Some (Ok thrown)) as H1 by (vm_compute; reflexivity).
  assert (run_ops 4 thrown [OChain 0 None (Some echo) false; OTick] =
          Some (Ok recovered)) as H2 by (vm_compute; reflexivity).
  split; [exact H1|]. split; [exact H2|]. split; [reflexivity|].
  exact (error_history_is_failure_calls false 4 4 _ _ (Ok thrown) (Ok recovered)
           0 _ H1 H2 eq_refl).
Defined.

(** The amended C3 at a chain created with [TICK] on which [chain] has
    just queued a step. *)
Lemma resolve_defers_or_resets_witness :
  chains just_queued !! 0 =
    Some (mkChain false [mkStep (Some echo) None false] [] [] false false
            VUndef VUndef) ∧
  Chain_resolve (resolve 3) just_queued 0 =
    Some (Ok (set_ticks [0] (upd_chain 0 (set_resolving true) just_queued))) ∧
  ∀ fuel' ops r2,
    run_ops fuel' (set_ticks [0] (upd_chain 0 (set_resolving true) just_queued))
      ops = Some r2 →
    ∃ ch2, chains (store r2) !! 0 = Some ch2 ∧ _immediate ch2 = false.
Proof.
  split; [reflexivity|].
  pose proof (resolve_defers_or_resets 3 just_queued 0 _ eq_refl
                ltac:(discriminate) eq_refl) as H.
  simpl in H. destruct H as (H1 & _ & H3). split; [exact H1 | exact H3].
Defined.

(** C8 at a chain created with [TICK]. *)
Lemma deferred_chain_calls_nothing_witness :
  chains deferred_idle !! 0 =
    Some (mkChain false [] [] [] false false VUndef VUndef) ∧
  ∃ w', Chain_chain (resolve 3) deferred_idle 0 (Some echo) None false =
          Some (Ok w') ∧
        trace w' = trace deferred_idle.
Proof.
  split; [reflexivity|].
  exact (proj1 (deferred_chain_calls_nothing 3 deferred_idle 0 _ (Some echo)
                  None false eq_refl eq_refl)).
Defined.

(** C4 at the context of a function that has called [next]. *)
Lemma next_is_honoured_once_witness :
  ctxs after_next !! 0 = Some (mkCtx 0 true true) ∧
  ctx_next (resolve 3) after_next 0 [VNum 2] = Some (Ok after_next).
Proof.
  split; [reflexivity|].
  exact (proj1 (next_is_honoured_once 3 after_next 0 _ [VNum 2] eq_refl eq_refl)).
Defined.


(** C7 at the single value 5. *)
Lemma spread_forwards_arguments_witness :
  outcome 0 (run_ops 4 (init_world false)
    [OFresh false (VNum 5); OSpread 0 (Some echo) None false; OTick]) =
  Some ([mkCall 0 OnSuccess HSpread [VNum 5];
         mkCall 0 OnSuccess echo [VNum 5]],
        mkChain false [] [] [] false false (VArr [VNum 5]) VUndef).
Proof.
  exact (proj2 (proj2 (spread_forwards_arguments false false 0)) (VNum 5)
           eq_refl eq_refl eq_refl).
Defined.

(** The first error in time, at ["y"] before ["x"]. *)
Lemma all_rejects_with_first_error_witness :
  truthy (VStr "y") = true ∧
  outcome 0 (run_ops 4 (init_world false)
               [OAll [VThenable 0; VNum 7; VThenable 1];
                OChain 0 None (Some echo) false; OTick;
                OThenable 1 false [VStr "y"]; OThenable 0 false [VStr "x"]]) =
    Some ([mkCall 0 OnSuccess (HAllStart 0) [VUndef];
           mkCall 0 OnFailure echo [VStr "y"]],
          mkChain false [] [] [VStr "y"] false false (VArr [VStr "y"]) VUndef).
Proof.
  split; [reflexivity|].
  exact (proj2 (all_rejects_with_first_error false (VStr "x") (VStr "y") 0 eq_refl)).
Defined.


(** [fin] after ["boom"] was thrown, its function returning 7. *)
Lemma fin_clears_the_error_witness :
  is_nullish (VStr "boom") = false ∧ isThenable (VNum 7) = false ∧
  outcome 0 (run_ops 5 (init_world false)
    [OFresh false (VNum 5);
     OChain 0 (Some (throws (λ _, VStr "boom"))) None false;
     OFin 0 (Some (returns (λ _, VNum 7))) false;
     OChain 0 (Some echo) (Some echo) false;
     OTick]) =
  Some ([mkCall 0 OnSuccess (throws (λ _, VStr "boom")) [VNum 5];
         mkCall 0 OnFailure (returns (λ _, VNum 7)) [VStr "boom"];
         mkCall 0 OnSuccess echo [VNum 7]],
        mkChain false [] [] [VStr "boom"] false false (VArr [VNum 7]) VUndef).
Proof.
  split; [reflexivity|]. split; [reflexivity|].
  exact (proj1 (fin_clears_the_error false false (VNum 5) (VStr "boom") (VNum 7) 0
                  eq_refl eq_refl)).
Defined.

(** [reject("late")] on a chain that [fail("first")] created. *)
Lemma reject_is_a_queued_step_witness :
  truthy (VStr "first") = true ∧
  outcome 0 (run_ops 5 (init_world false)
    [OFail (VStr "first");
     OReject 0 (VStr "late");
     OChain 0 (Some echo) (Some echo) false;
     OTick]) =
  Some ([mkCall 0 OnFailure echo [VStr "first"]],
        mkChain false [] [] [VStr "first"] false false (VArr [VStr "first"]) VUndef).
Proof.
  split; [reflexivity|].
  exact (proj2 (reject_is_a_queued_step false false VUndef (VStr "late")
                  (VStr "first") 0 eq_refl)).
Defined.

(** A function that queues two steps and returns 1. *)
Lemma context_steps_run_first_witness :
  isThenable (VNum 1) = false ∧ isThenable (VNum 2) = false ∧
  isThenable (VNum 3) = false ∧
  outcome 0 (run_ops 6 (init_world false)
    [OFresh false (VNum 0);
     OChain 0 (Some (HUser (λ _,
        ([CChain (Some (returns (λ _, VNum 2))) None false;
          CChain (Some (returns (λ _, VNum 3))) None false], Return (VNum 1)))))
       None false;
     OChain 0 (Some echo) None false;
     OTick]) =
  Some ([mkCall 0 OnSuccess (HUser (λ _,
           ([CChain (Some (returns (λ _, VNum 2))) None false;
             CChain (Some (returns (λ _, VNum 3))) None false], Return (VNum 1))))
           [VNum 0];
         mkCall 0 OnSuccess (returns (λ _, VNum 2)) [VNum 1];
         mkCall 0 OnSuccess (returns (λ _, VNum 3)) [VNum 2];
         mkCall 0 OnSuccess echo [VNum 3]],
        mkChain false [] [] [] false false (VArr [VNum 3]) VUndef).
Proof.
  split; [reflexivity|]. split; [reflexivity|]. split; [reflexivity|].
  exact (context_steps_run_first false (VNum 0) (VNum 1) (VNum 2) (VNum 3) 0
           eq_refl eq_refl eq_refl).
Defined.

(** The chain of [stranded]: [echo], queued through the context by the
    only function of the chain, waits in [_unPending]. [resolve()] and the
    inner [resolve] call nothing and leave it there; in the scenario the
    waiting step runs once [echo] is attached. *)
Lemma context_steps_wait_for_a_step_witness :
  chains stranded !! 0 =
    Some (mkChain false [] [mkStep (Some echo) None false] [] false false
            (VArr [VNum 1]) VUndef) ∧
  Chain_resolve (resolve 3) stranded 0 = Some (Ok stranded) ∧
  (∃ w', resolve 4 stranded 0 [] = Some (Ok w') ∧ trace w' = trace stranded ∧
         ∃ ch', chains w' !! 0 = Some ch' ∧
                _unPending ch' = [mkStep (Some echo) None false] ∧
                _pending ch' = []) ∧
  isThenable (VNum 1) = false ∧ isThenable (VNum 2) = false ∧
  let sa := returns (λ _, VNum 2) in
  let s1 := HUser (λ _, ([CChain (Some sa) None false], Return (VNum 1))) in
  let start := [OFresh false (VNum 5); OChain 0 (Some s1) None false;
                OTick; OTick; OResolve 0; OTick] in
  outcome 0 (run_ops 5 (init_world false) start) =
    Some ([mkCall 0 OnSuccess s1 [VNum 5]],
          mkChain false [] [mkStep (Some sa) None false] [] false false
            (VArr [VNum 1]) VUndef) ∧
  outcome 0 (run_ops 5 (init_world false)
               (start ++ [OChain 0 (Some echo) None false; OTick])) =
    Some ([mkCall 0 OnSuccess s1 [VNum 5];
           mkCall 0 OnSuccess sa [VNum 1];
           mkCall 0 OnSuccess echo [VNum 2]],
          mkChain false [] [] [] false false (VArr [VNum 2]) VUndef).
Proof.
  split; [reflexivity|].
  pose proof (context_steps_wait_for_a_step 3 stranded 0 _ [] eq_refl eq_refl)
    as (H1 & H2 & H3).
  split; [exact H1|]. split; [exact H2|].
  split; [reflexivity|]. split; [reflexivity|].
  exact (H3 false (VNum 5) (VNum 1) (VNum 2) 0 eq_refl eq_refl).
Defined.

(** Chain 1 waits for chain 0, which is rejected with ["e"]. *)
Lemma returned_chain_is_awaited_witness :
  truthy (VStr "e") = true ∧
  outcome 1 (run_ops 6 (init_world false)
    [OFresh false (VNum 5);
     OChain 0 (Some (HUser (λ _, ([CDelay], Return VUndef)))) None false;
     OFresh false (VNum 1);
     OChain 1 (Some (returns (λ _, VChain 0))) None false;
     OChain 1 (Some echo) (Some echo) false;
     OTick; OTick; OTick; OTick;
     OCtxReject 0 [VStr "e"]]) =
  Some ([mkCall 0 OnSuccess (HUser (λ _, ([CDelay], Return VUndef))) [VNum 5];
         mkCall 1 OnSuccess (returns (λ _, VChain 0)) [VNum 1];
         mkCall 0 OnFailure (HNestedErr 1 true) [VStr "e"];
         mkCall 1 OnFailure echo [VStr "e"]],
        mkChain false [] [] [VStr "e"] false false (VArr [VStr "e"]) VUndef).
Proof.
  split; [reflexivity|].
  exact (proj2 (proj2 (returned_chain_is_awaited false (VNum 5) (VNum 1) VUndef
                         (VStr "e") [] 0 eq_refl))).
Defined.

(** Chain 0 after chain 1 has waited for it and it was resumed with 7. *)
Lemma awaited_chain_is_changed_witness :
  truthy (VStr "e") = true ∧
  outcome 0 (run_ops 6 (init_world false)
    [OFresh false (VNum 5);
     OChain 0 (Some (HUser (λ _, ([CDelay], Return VUndef)))) None false;
     OFresh false (VNum 1);
     OChain 1 (Some (returns (λ _, VChain 0))) None false;
     OChain 1 (Some echo) (Some echo) false;
     OTick; OTick; OTick; OTick;
     OCtxNext 0 [VNum 7];
     OChain 0 (Some echo) (Some echo) false; OTick]) =
  Some ([mkCall 0 OnSuccess (HUser (λ _, ([CDelay], Return VUndef))) [VNum 5];
         mkCall 1 OnSuccess (returns (λ _, VChain 0)) [VNum 1];
         mkCall 0 OnSuccess (HNestedOk 1) [VNum 7];
         mkCall 1 OnSuccess echo [VNum 7];
         mkCall 0 OnSuccess echo []],
        mkChain false [] [] [] false false (VArr []) VUndef).
Proof.
  split; [reflexivity|].
  exact (proj1 (awaited_chain_is_changed false (VNum 5) (VNum 1) (VNum 7)
                  (VStr "e") [] 0 eq_refl)).
Defined.

(** A thenable that fails with ["e"]. *)
Lemma returned_thenable_is_awaited_witness :
  is_undefined (VStr "e") = false ∧
  outcome 0 (run_ops 4 (init_world false)
    [OFresh false (VNum 5);
     OChain 0 (Some (returns (λ _, VThenable 7))) None false;
     OChain 0 (Some echo) (Some echo) false;
     OTick; OTick;
     OThenable 0 false [VStr "e"]]) =
  Some ([mkCall 0 OnSuccess (returns (λ _, VThenable 7)) [VNum 5];
         mkCall 0 OnFailure echo [VStr "e"]],
        mkChain false [] [] [VStr "e"] false false (VArr [VStr "e"]) VUndef).
Proof.
  split; [reflexivity|].
  exact (proj1 (proj2 (proj2 (returned_thenable_is_awaited false false 7 (VNum 5)
                                VUndef (VStr "e") [] [] 0 eq_refl)))).
Defined.

(** [aCall] with a [call] that throws ["boom"]. *)
Lemma aCall_keeps_a_thrown_error_waiting_witness :
  is_nullish (VStr "boom") = false ∧
  outcome 0 (run_ops 5 (init_world false)
    [OaCall (Some (λ _, Throw (VStr "boom"))) [VNum 1];
     OChain 0 (Some echo) (Some echo) false; OTick; OTick]) =
  Some ([mkCall 0 OnSuccess
           (aCall_start (Some (λ _, Throw (VStr "boom"))) [VNum 1]) [VUndef];
         mkCall 0 OnSuccess
           (aCall_step (Some (λ _, Throw (VStr "boom"))) [VNum 1]) []],
        mkChain true [mkStep (Some echo) (Some echo) false] [] [] false true
          (VArr []) (VStr "boom")).
Proof.
  split; [reflexivity|].
  exact (proj1 (aCall_keeps_a_thrown_error_waiting false [VNum 1] [] (VStr "boom")
                  0 eq_refl)).
Defined.

(** [nCall]'s callback called with the error ["err"]. *)
Lemma nCall_callback_takes_the_error_first_witness :
  truthy (VStr "err") = true ∧ truthy VNull = false ∧
  outcome 0 (run_ops 5 (init_world false)
    [OnCall (Some (λ _, Return VUndef)) [VNum 1];
     OChain 0 (Some echo) (Some echo) false; OTick;
     OnCallback 0 1 [VStr "err"; VNum 2]]) =
  Some ([mkCall 0 OnSuccess (nCall_start (Some (λ _, Return VUndef)) [VNum 1])
           [VUndef];
         mkCall 0 OnSuccess (aCall_step (Some (λ _, Return VUndef)) [VNum 1]) [];
         mkCall 0 OnFailure echo [VStr "err"]],
        mkChain false [] [] [VStr "err"] false false (VArr [VStr "err"]) VUndef).
Proof.
  split; [reflexivity|]. split; [reflexivity|].
  exact (proj1 (nCall_callback_takes_the_error_first false [VNum 1] [] VUndef
                  (VStr "err") VNull (VNum 2) 0 eq_refl eq_refl)).
Defined.

(** [cCall] with a function that returns 7. *)
Lemma cCall_hands_on_the_result_witness :
  isThenable (VNum 7) = false ∧ is_nullish (VStr "boom") = false ∧
  outcome 0 (run_ops 6 (init_world false)
    [OFresh false (VNum 5);
     OcCall 0 (Some (λ _, Return (VNum 7))) [VNum 1];
     OChain 0 (Some echo) (Some echo) false;
     OTick]) =
  Some ([mkCall 0 OnSuccess (cCall_start (Some (λ _, Return (VNum 7))) [VNum 1])
           [VNum 5];
         mkCall 0 OnSuccess (cCall_step (Some (λ _, Return (VNum 7))) [VNum 1]) [];
         mkCall 0 OnSuccess echo [VNum 7]],
        mkChain false [] [] [] false false (VArr [VNum 7]) VUndef).
Proof.
  split; [reflexivity|]. split; [reflexivity|].
  exact (proj1 (cCall_hands_on_the_result false false [VNum 1] (VNum 5) (VNum 7)
                  (VStr "boom") 0 eq_refl eq_refl)).
Defined.

(** [all([1, 2])] in the empty store. *)
Lemma all_of_plain_values_witness :
  [VNum 1; VNum 2] ≠ [] ∧
  Forall (λ v, isThenable v = false) [VNum 1; VNum 2] ∧
  all (resolve 2) (init_world false) [VNum 1; VNum 2] =
  Some (Ok (mkWorld false
              [mkChain false [] [] [] false false
                 (VArr [VArr [VNum 1; VNum 2]]) VUndef]
              [mkCtx 0 true true]
              [mkJoin 2 2 [VNum 1; VNum 2] VUndef None (Some 0) [false; false]]
              [] []
              [mkCall 0 OnSuccess (HAllStart 0) [VUndef]])).
Proof.
  assert ([VNum 1; VNum 2] ≠ []) as H1 by discriminate.
  assert (Forall (λ v, isThenable v = false) [VNum 1; VNum 2]) as H2
    by (repeat constructor).
  split; [exact H1|]. split; [exact H2|].
  exact (all_of_plain_values 0 (init_world false) [VNum 1; VNum 2] H1 H2).
Defined.

(** [each([1, 2], picky)] gives the settled chain of [[1, 2]];
    [each([1, 2, 3, 4], picky)] ends with the ["boom"] that [picky] throws
    on 3. *)
Lemma each_hands_the_results_to_all_witness :
  (∀ v, v ∈ [VNum 1; VNum 2] →
        picky (init_world false) v = Some (init_world false, Return (id v))) ∧
  [VNum 1; VNum 2] ≠ [] ∧
  Forall (λ v, isThenable (id v) = false) [VNum 1; VNum 2] ∧
  (∃ w', each (resolve 4) (init_world false) [VNum 1; VNum 2] picky =
           Some (Ok w') ∧
         chains w' =
           [mkChain false [] [] [] false false
              (VArr [VArr [VNum 1; VNum 2]]) VUndef] ∧
         trace w' = [mkCall 0 OnSuccess (HAllStart 0) [VUndef]]) ∧
  picky (init_world false) (VNum 3) =
    Some (init_world false, Throw (VStr "boom")) ∧
  each (resolve 2) (init_world false) [VNum 1; VNum 2; VNum 3; VNum 4] picky =
    Some (Raise (init_world false) (VStr "boom")).
Proof.
  assert (∀ v, v ∈ [VNum 1; VNum 2] →
            picky (init_world false) v =
            Some (init_world false, Return (id v))) as H.
  { intros v Hv. apply elem_of_cons in Hv as [->|Hv]; [reflexivity|].
    apply elem_of_cons in Hv as [->|Hv]; [reflexivity|].
    by apply elem_of_nil in Hv. }
  assert ([VNum 1; VNum 2] ≠ []) as H1 by discriminate.
  assert (Forall (λ v, isThenable (id v) = false) [VNum 1; VNum 2]) as H2
    by (repeat constructor).
  split; [exact H|]. split; [exact H1|]. split; [exact H2|].
  split.
  - exact (proj1 (each_hands_the_results_to_all 2 (init_world false) picky id
                    [VNum 1; VNum 2] H) H1 H2).
  - split; [reflexivity|].
    exact (proj2 (each_hands_the_results_to_all 2 (init_world false) picky id
                    [VNum 1; VNum 2] H) (VNum 3) (VStr "boom") [VNum 4]
                 eq_refl).
Defined.

(** The steps [s1] (throws ["boom"]), [s2] (failure only, returns 7) and
    [echo]. *)
Lemma plain_chain_runs_as_fold_witness :
  let steps := [POk (λ _, Throw (VStr "boom"));
                PErr (λ _, Return (VNum 7));
                POk (λ args, Return (VArr args))] in
  run_plain 0 steps (VNum 5, VUndef, []) =
    Some ([mkCall 0 OnSuccess (plain (λ _, Throw (VStr "boom"))) [VNum 5];
           mkCall 0 OnFailure (plain (λ _, Return (VNum 7))) [VStr "boom"];
           mkCall 0 OnSuccess (plain (λ args, Return (VArr args))) [VNum 7]],
          (VArr [VNum 7], VUndef, [VStr "boom"])) ∧
  outcome 0 (run_ops 4 (init_world false)
               (OFresh false (VNum 5) :: map (OPlain 0) steps ++ [OTick])) =
    Some ([mkCall 0 OnSuccess (plain (λ _, Throw (VStr "boom"))) [VNum 5];
           mkCall 0 OnFailure (plain (λ _, Return (VNum 7))) [VStr "boom"];
           mkCall 0 OnSuccess (plain (λ args, Return (VArr args))) [VNum 7]],
          mkChain false [] [] [VStr "boom"] false false (VArr [VNum 7]) VUndef).
Proof.
  intros steps.
  assert (run_plain 0 steps (VNum 5, VUndef, []) =
    Some ([mkCall 0 OnSuccess (plain (λ _, Throw (VStr "boom"))) [VNum 5];
           mkCall 0 OnFailure (plain (λ _, Return (VNum 7))) [VStr "boom"];
           mkCall 0 OnSuccess (plain (λ args, Return (VArr args))) [VNum 7]],
          (VArr [VNum 7], VUndef, [VStr "boom"]))) as H by reflexivity.
  split; [exact H|].
  exact (plain_chain_runs_as_fold false (VNum 5) steps _ _ _ _ 0 H).
Defined.

(** The context of a function that called [delay], resumed with [next(1)]. *)
Lemma next_is_honoured_once_for_good_witness :
  ctxs suspended !! 0 = Some (mkCtx 0 true false) ∧
  ctx_next (resolve 4) suspended 0 [VNum 1] = Some (Ok resumed) ∧
  run_ops 4 resumed [OTick] = Some (Ok resumed) ∧
  ctx_next (resolve 4) resumed 0 [VNum 2] = Some (Ok resumed) ∧
  ctx_delay resumed 0 = Some (Ok resumed).
Proof.
  assert (ctx_next (resolve 4) suspended 0 [VNum 1] = Some (Ok resumed)) as H1
    by (vm_compute; reflexivity).
  assert (run_ops 4 resumed [OTick] = Some (Ok resumed)) as H2
    by (vm_compute; reflexivity).
  split; [reflexivity|]. split; [exact H1|]. split; [exact H2|].
  exact (next_is_honoured_once_for_good 4 4 4 suspended 0 _ [VNum 1] [VNum 2]
           (Ok resumed) (Ok resumed) [OTick] eq_refl eq_refl H1 H2).
Defined.

(** The first entry of [all([t0, t1])], once [t0] has delivered 1. *)
Lemma entry_of_all_counts_once_witness :
  joins waiting_for_two !! 0 =
    Some (mkJoin 2 0 [VUndef; VUndef] VUndef None (Some 0) [false; false]) ∧
  run_handler (resolve 4) waiting_for_two None (HAllOk 0 0 false) [VNum 1] =
    Some (one_counted, Return VUndef) ∧
  run_ops 4 one_counted [OTick] = Some (Ok one_counted) ∧
  run_handler (resolve 4) one_counted None (HAllOk 0 0 false) [VNum 2] =
    Some (one_counted, Return VUndef) ∧
  run_handler (resolve 4) one_counted None (HAllErr 0 0 false) [VNum 2] =
    Some (one_counted, Return VUndef).
Proof.
  assert (run_handler (resolve 4) waiting_for_two None (HAllOk 0 0 false) [VNum 1] =
          Some (one_counted, Return VUndef)) as H1 by (vm_compute; reflexivity).
  assert (run_ops 4 one_counted [OTick] = Some (Ok one_counted)) as H2
    by (vm_compute; reflexivity).
  split; [reflexivity|]. split; [exact H1|]. split; [exact H2|].
  exact (entry_of_all_counts_once 4 4 4 waiting_for_two one_counted 0 0 _ false
           false false None None [VNum 1] [VNum 2] (Return VUndef) [OTick]
           (Ok one_counted) eq_refl ltac:(simpl; lia) H1 H2).
Defined.

(** [start(PAUSE, echo)], a step attached, ticks and [resolve()]. *)
Lemma paused_chain_never_runs_witness :
  pauses (VSentinel PAUSE) = true ∧
  run_ops 4 (init_world true)
    [OStart (VSentinel PAUSE) (Some echo) None;
     OChain 0 (Some echo) (Some echo) false; OTick; OResolve 0; OTick] =
    Some (Ok never_run) ∧
  (∀ x, x ∈ trace never_run → call_chain x ≠ 0) ∧
  ∃ ch, chains never_run !! 0 = Some ch ∧ _paused ch = true.
Proof.
  assert (run_ops 4 (init_world true)
            [OStart (VSentinel PAUSE) (Some echo) None;
             OChain 0 (Some echo) (Some echo) false; OTick; OResolve 0; OTick] =
          Some (Ok never_run)) as H by (vm_compute; reflexivity).
  assert (foreign_opt 0 (Some echo)) as He.
  { intros h [= <-]. apply (foreign_plain 0 (λ args, Return (VArr args))). }
  assert (foreign_opt 0 None) as Hn by (by intros h).
  split; [reflexivity|]. split; [exact H|].
  refine (paused_chain_never_runs true (VSentinel PAUSE) (Some echo) None _ 4
            (Ok never_run) eq_refl He Hn _ H).
  repeat constructor; assumption.
Defined.
